(** * Pong (pong4k.py): a shallow embedding and its verified properties

    The program is a single Python file built on pygame.  The embedding
    follows the source function by function:

    - Python [int] values are [Z]; Python [float] values are real numbers
      [R].  The definitions of the game compute on them exactly
      ([math.sin], [math.cos] and [math.pi] are [sin], [cos] and [PI]);
      module [Rounded] repeats the float computations with the rounding of
      binary64 after every operation, and module [B64] evaluates some of
      them on binary64 numbers;
    - [int(f)] on a float truncates toward zero ([py_int]); a float stored
      into a [Rect] coordinate is rounded to the nearest integer
      ([pg_round]);
    - [pygame.Rect] is a record of four integers with the accessors the
      program uses;
    - the random draws of [Ball.reset], the event queue and the pointer
      position are inputs of each frame; the sounds played are an output
      list. *)

From Stdlib Require Import ZArith List Bool Lia Reals Lra Zfloor.
From Stdlib Require PrimFloat FloatOps SpecFloat.
Import ListNotations.

Open Scope Z_scope.

(** ** Numbers *)

(** [int(r)] for a float [r]: the integer part, rounding toward zero. *)
Definition py_int (r : R) : Z :=
  if Rle_dec 0 r then Zfloor r else Zceil r.

(** The specification's [round(r)]: an integer at distance at most one half
    from [r] (whatever the rule for ties). *)
Definition nearest_integer (r : R) (z : Z) : Prop :=
  (Rabs (r - IZR z) <= 1 / 2)%R.

(** The conversion pygame applies to a float stored into a [Rect]
    coordinate: the nearest integer, a half going away from zero
    ([d < 0 ? ceil(d - 0.5) : floor(d + 0.5)]). *)
Definition pg_round (d : R) : Z :=
  if Rlt_dec d 0 then Zceil (d - 1 / 2) else Zfloor (d + 1 / 2).

(** [range(n)] *)
Definition range (n : Z) : list Z := map Z.of_nat (seq 0 (Z.to_nat n)).

(** ** pygame.Rect (the part the program uses) *)

Module Rect.

Record t : Type := mk { x : Z; y : Z; w : Z; h : Z }.

Definition left (r : t) : Z := x r.
Definition top (r : t) : Z := y r.
Definition right (r : t) : Z := x r + w r.
Definition bottom (r : t) : Z := y r + h r.
Definition centerx (r : t) : Z := x r + Z.quot (w r) 2.
Definition centery (r : t) : Z := y r + Z.quot (h r) 2.

Definition set_x (v : Z) (r : t) : t := mk v (y r) (w r) (h r).
Definition set_y (v : Z) (r : t) : t := mk (x r) v (w r) (h r).
Definition set_left (v : Z) (r : t) : t := set_x v r.
Definition set_right (v : Z) (r : t) : t := set_x (v - w r) r.

(** [r.center = (cx, cy)] *)
Definition set_center (cx cy : Z) (r : t) : t :=
  mk (cx - Z.quot (w r) 2) (cy - Z.quot (h r) 2) (w r) (h r).

(** [r.x = f] with a float [f]: pygame stores the nearest integer. *)
Definition set_x_float (f : R) (r : t) : t := set_x (pg_round f) r.
Definition set_y_float (f : R) (r : t) : t := set_y (pg_round f) r.

(** [a.colliderect(b)]: the rectangles overlap on a non-empty area. *)
Definition colliderect (a b : t) : bool :=
  if (w a =? 0) || (h a =? 0) || (w b =? 0) || (h b =? 0) then false
  else
    (Z.min (x a) (x a + w a) <? Z.max (x b) (x b + w b)) &&
    (Z.min (y a) (y a + h a) <? Z.max (y b) (y b + h b)) &&
    (Z.max (x a) (x a + w a) >? Z.min (x b) (x b + w b)) &&
    (Z.max (y a) (y a + h a) >? Z.min (y b) (y b + h b)).

(** [r.collidepoint((px, py))] *)
Definition collidepoint (px py : Z) (r : t) : bool :=
  (x r <=? px) && (px <? x r + w r) && (y r <=? py) && (py <? y r + h r).

(** One axis of [clamp_ip]. *)
Definition clamp_axis (pos size apos asize : Z) : Z :=
  if size >=? asize then apos + Z.quot asize 2 - Z.quot size 2
  else if pos <? apos then apos
  else if pos + size >? apos + asize then apos + asize - size
  else pos.

(** [r.clamp_ip(area)]: move [r] inside [area]. *)
Definition clamp_ip (area r : t) : t :=
  mk (clamp_axis (x r) (w r) (x area) (w area))
     (clamp_axis (y r) (h r) (y area) (h area))
     (w r) (h r).

End Rect.

(** ** Dynamic sound engine *)

Module SoundEngine.

Open Scope R_scope.

Definition sample_rate : Z := 22050.

(** The body of the loop of [_generate_tone] at index [i], in exact
    arithmetic ([Rounded.int_val] has the rounding of the floats). *)
Definition int_val (frequency volume : R) (i : Z) : Z :=
  let t := IZR i / IZR sample_rate in
  let value := sin (2 * PI * frequency * t) in
  py_int (volume * 32767 * value).

(** The sample count, in exact arithmetic ([Rounded.n_samples] has the
    rounding of the product). *)
Definition n_samples (duration : R) : Z :=
  py_int (IZR sample_rate * duration).

Definition samples (frequency duration volume : R) : list Z :=
  map (int_val frequency volume) (range (n_samples duration)).

(** [array.array('h', samples)] accepts signed 16-bit values only. *)
Definition fits_int16 (v : Z) : bool := ((-32768 <=? v) && (v <=? 32767))%Z.

(** [_generate_tone]: the sample buffer handed to [pygame.mixer.Sound], or
    [None] when building the 16-bit array raises [OverflowError]. *)
Definition _generate_tone (frequency duration volume : R) : option (list Z) :=
  let s := samples frequency duration volume in
  if forallb fits_int16 s then Some s else None.

(** The two presets, as [(frequency, duration, volume)]. *)
Definition hit_paddle : option (list Z) := _generate_tone 440 (1 / 10) (2 / 10).
Definition score : option (list Z) := _generate_tone 220 (2 / 10) (3 / 10).

End SoundEngine.

(** ** Game constants *)

Definition WIDTH : Z := 800.
Definition HEIGHT : Z := 600.
Definition PADDLE_WIDTH : Z := 15.
Definition PADDLE_HEIGHT : Z := 100.
Definition BALL_SIZE : Z := 15.
Definition BALL_SPEED : Z := 7.
Definition MAX_ANGLE : R := (PI / 3)%R.

Definition playfield : Rect.t := Rect.mk 0 0 WIDTH HEIGHT.

(** [x < y] on floats, as a boolean. *)
Definition Rltb (x y : R) : bool := if Rlt_dec x y then true else false.

(** ** Paddle *)

Module Paddle.

Record t : Type := mk { rect : Rect.t; speed : Z }.

(** [Paddle(x, y)] *)
Definition init (x y : Z) : t :=
  mk (Rect.mk x y PADDLE_WIDTH PADDLE_HEIGHT) 7.

Definition move_ai (ball_y : Z) (p : t) : t :=
  let r := rect p in
  let r' :=
    if Rect.centery r <? ball_y - 10 then Rect.set_y (Rect.y r + speed p) r
    else if Rect.centery r >? ball_y + 10 then Rect.set_y (Rect.y r - speed p) r
    else r in
  mk (Rect.clamp_ip playfield r') (speed p).

Definition move_mouse (mouse_y : Z) (p : t) : t :=
  let r' := Rect.set_y (mouse_y - PADDLE_HEIGHT / 2) (rect p) in
  mk (Rect.clamp_ip playfield r') (speed p).

End Paddle.

(** ** Ball *)

Module Ball.

Record t : Type := mk { rect : Rect.t; vx : R; vy : R }.

(** The two random draws of one [reset]:
    [random.uniform(-MAX_ANGLE, MAX_ANGLE)] and [random.choice([-1, 1])]. *)
Record Draw : Type := mkDraw { angle : R; direction : Z }.

Definition valid_draw (d : Draw) : Prop :=
  (- MAX_ANGLE <= angle d <= MAX_ANGLE)%R /\
  (direction d = -1 \/ direction d = 1).

(** [reset], the velocity in exact arithmetic ([Rounded.reset] has the
    rounding of the floats). *)
Definition reset (d : Draw) (b : t) : t :=
  mk (Rect.set_center (WIDTH / 2) (HEIGHT / 2) (rect b))
     (IZR (direction d) * IZR BALL_SPEED * cos (angle d))%R
     (IZR BALL_SPEED * sin (angle d))%R.

(** [Ball(x, y)]: the rectangle is built, then [reset] gives the ball its
    first velocity (none exists before). *)
Definition init (x y : Z) (d : Draw) : t :=
  reset d (mk (Rect.mk x y BALL_SIZE BALL_SIZE) 0 0).

(** [move]: each sum is stored into the rectangle as the nearest integer
    ([Rounded.move] has the rounding of the float sums as well). *)
Definition move (b : t) : t :=
  let r1 := Rect.set_x_float (IZR (Rect.x (rect b)) + vx b) (rect b) in
  let r2 := Rect.set_y_float (IZR (Rect.y r1) + vy b) r1 in
  mk r2 (vx b) (vy b).

Definition bounce_y (b : t) : t := mk (rect b) (vx b) (- vy b)%R.

End Ball.

(** ** Events *)

Inductive Key : Type := K_y | K_n | K_other.

Inductive Event : Type :=
| QUIT
| MOUSEBUTTONDOWN (px py : Z)
| KEYDOWN (key : Key)
| OTHER.

Definition is_quit (e : Event) : bool :=
  match e with QUIT => true | _ => false end.

(** ** Main game *)

Module Game.

Record State : Type := mkState {
  left_paddle : Paddle.t;
  right_paddle : Paddle.t;
  ball : Ball.t;
  left_score : Z;
  right_score : Z
}.

(** Calls made on the sound engine. *)
Inductive Sound : Type := HitPaddle | Score.

(** What one iteration of the loop reads from outside: the event queue,
    the pointer's vertical position, and the random draws for the two
    [ball.reset()] sites. *)
Record Frame : Type := mkFrame {
  events : list Event;
  mouse_y : Z;
  draw_left : Ball.Draw;
  draw_right : Ball.Draw
}.

Definition set_ball (b : Ball.t) (s : State) : State :=
  mkState (left_paddle s) (right_paddle s) b (left_score s) (right_score s).

(** The state built before the loop starts. *)
Definition init (d : Ball.Draw) : State :=
  mkState (Paddle.init 30 (HEIGHT / 2 - PADDLE_HEIGHT / 2))
          (Paddle.init (WIDTH - 30 - PADDLE_WIDTH) (HEIGHT / 2 - PADDLE_HEIGHT / 2))
          (Ball.init (WIDTH / 2 - BALL_SIZE / 2) (HEIGHT / 2 - BALL_SIZE / 2) d)
          0 0.

(** Mouse control for the right paddle, AI for the left one. *)
Definition move_paddles (my : Z) (s : State) : State :=
  let rp := Paddle.move_mouse my (right_paddle s) in
  let lp := Paddle.move_ai (Rect.centery (Ball.rect (ball s))) (left_paddle s) in
  mkState lp rp (ball s) (left_score s) (right_score s).

(** Wall collisions (top/bottom). *)
Definition wall_collision (s : State) : State :=
  let r := Ball.rect (ball s) in
  if (Rect.top r <=? 0) || (Rect.bottom r >=? HEIGHT)
  then set_ball (Ball.bounce_y (ball s)) s else s.

(** [offset], after the clamp.  This and the two collision responses are
    in exact arithmetic; [Rounded.hit_offset], [Rounded.left_collision] and
    [Rounded.right_collision] have the rounding of the floats. *)
Definition hit_offset (b p : Rect.t) : R :=
  let offset := (IZR (Rect.centery b - Rect.centery p) / (IZR PADDLE_HEIGHT / 2))%R in
  Rmax (-1) (Rmin 1 offset).

Definition left_collision (s : State) : State * list Sound :=
  let b := ball s in
  let p := Paddle.rect (left_paddle s) in
  if Rect.colliderect (Ball.rect b) p && Rltb (Ball.vx b) 0 then
    let angle := (hit_offset (Ball.rect b) p * MAX_ANGLE)%R in
    let b' := Ball.mk (Rect.set_left (Rect.right p + 1) (Ball.rect b))
                      (IZR BALL_SPEED * cos angle)%R
                      (IZR BALL_SPEED * sin angle)%R in
    (set_ball b' s, [HitPaddle])
  else (s, []).

Definition right_collision (s : State) : State * list Sound :=
  let b := ball s in
  let p := Paddle.rect (right_paddle s) in
  if Rect.colliderect (Ball.rect b) p && Rltb 0 (Ball.vx b) then
    let angle := (hit_offset (Ball.rect b) p * MAX_ANGLE)%R in
    let b' := Ball.mk (Rect.set_right (Rect.left p - 1) (Ball.rect b))
                      (- IZR BALL_SPEED * cos angle)%R
                      (IZR BALL_SPEED * sin angle)%R in
    (set_ball b' s, [HitPaddle])
  else (s, []).

(** Scoring: the two tests, in the order of the source. *)
Definition score_right_player (d : Ball.Draw) (s : State) : State * list Sound :=
  if Rect.left (Ball.rect (ball s)) <=? 0 then
    (mkState (left_paddle s) (right_paddle s) (Ball.reset d (ball s))
             (left_score s) (right_score s + 1), [Score])
  else (s, []).

Definition score_left_player (d : Ball.Draw) (s : State) : State * list Sound :=
  if Rect.right (Ball.rect (ball s)) >=? WIDTH then
    (mkState (left_paddle s) (right_paddle s) (Ball.reset d (ball s))
             (left_score s + 1) (right_score s), [Score])
  else (s, []).

Definition scoring (f : Frame) (s : State) : State * list Sound :=
  let '(s1, snd1) := score_right_player (draw_left f) s in
  let '(s2, snd2) := score_left_player (draw_right f) s1 in
  (s2, snd1 ++ snd2).

(** Game over check. *)
Definition game_over (s : State) : bool :=
  (left_score s >=? 5) || (right_score s >=? 5).

(** The part of an iteration between the event loop and the scoring:
    paddles, ball movement, wall and paddle collisions. *)
Definition before_scoring (f : Frame) (s : State) : State * list Sound :=
  let s1 := move_paddles (mouse_y f) s in
  let s2 := set_ball (Ball.move (ball s1)) s1 in
  let s3 := wall_collision s2 in
  let '(s4, snd4) := left_collision s3 in
  let '(s5, snd5) := right_collision s4 in
  (s5, snd4 ++ snd5).

(** The part of an iteration between the event loop and the game over
    check. *)
Definition update (f : Frame) (s : State) : State * list Sound :=
  let '(s5, snd5) := before_scoring f s in
  let '(s6, snd6) := scoring f s5 in
  (s6, snd5 ++ snd6).

(** How one iteration of the loop of [game] ends. *)
Inductive Outcome : Type :=
| Closed                (* a QUIT event: [return False] *)
| Over (s : State)      (* a score reached 5: [game_over_prompt] is entered *)
| Running (s : State).  (* the frame is drawn and the loop goes on *)

Definition tick (f : Frame) (s : State) : Outcome * list Sound :=
  if existsb is_quit (events f) then (Closed, [])
  else
    let '(s', snd) := update f s in
    if game_over s' then (Over s', snd) else (Running s', snd).

(** The number of calls of [sound_engine.score()] in a list of sounds. *)
Definition is_score (x : Sound) : bool :=
  match x with Score => true | HitPaddle => false end.

Definition score_sounds (l : list Sound) : Z :=
  Z.of_nat (length (filter is_score l)).

(** The specification's "the ball has fully exited" the left or the right
    edge: no part of the rectangle is left inside the playfield. *)
Definition fully_exited_left (r : Rect.t) : Prop := Rect.right r <= 0.
Definition fully_exited_right (r : Rect.t) : Prop := WIDTH <= Rect.left r.

(** What a step of the frame keeps: both scores and the width of the
    ball. *)
Definition keeps (s s' : State) : Prop :=
  left_score s' = left_score s /\ right_score s' = right_score s /\
  Rect.w (Ball.rect (ball s')) = Rect.w (Ball.rect (ball s)).

(** States of a match: the initial one and those the loop continues
    with. *)
Inductive reachable : State -> Prop :=
| reach_init (d : Ball.Draw) : reachable (init d)
| reach_tick (s s' : State) (f : Frame) (snd : list Sound) :
    reachable s -> tick f s = (Running s', snd) -> reachable s'.

End Game.

(** ** Menu, game over prompt and [main] *)

Module Screen.

(** The size of a rendered text, which the font decides. *)
Record TextSize : Type := mkSize { text_w : Z; text_h : Z }.

(** [text.get_rect(center=(cx, cy))] *)
Definition get_rect (sz : TextSize) (cx cy : Z) : Rect.t :=
  Rect.set_center cx cy (Rect.mk 0 0 (text_w sz) (text_h sz)).

Definition start_rect (start_text : TextSize) : Rect.t :=
  get_rect start_text (WIDTH / 2) (HEIGHT / 2 - 30).

Definition quit_rect (quit_text : TextSize) : Rect.t :=
  get_rect quit_text (WIDTH / 2) (HEIGHT / 2 + 30).

(** The first event of the queue on which the handler leaves the loop. *)
Fixpoint first_some {A B : Type} (f : A -> option B) (l : list A) : option B :=
  match l with
  | [] => None
  | a :: l' => match f a with Some b => Some b | None => first_some f l' end
  end.

(** How [main_menu] ends: [return "game"], or [pygame.quit(); sys.exit()]. *)
Inductive MenuAction : Type := StartGame | ExitProgram.

Definition main_menu_event (start_text quit_text : TextSize) (e : Event)
  : option MenuAction :=
  match e with
  | QUIT => Some ExitProgram
  | MOUSEBUTTONDOWN px py =>
      if Rect.collidepoint px py (start_rect start_text) then Some StartGame
      else if Rect.collidepoint px py (quit_rect quit_text) then Some ExitProgram
      else None
  | _ => None
  end.

(** One iteration of the loop of [main_menu]; [None]: the menu is drawn
    again. *)
Definition main_menu (start_text quit_text : TextSize) (evs : list Event)
  : option MenuAction :=
  first_some (main_menu_event start_text quit_text) evs.

Definition game_over_prompt_event (e : Event) : option bool :=
  match e with
  | QUIT => Some false
  | KEYDOWN K_y => Some true
  | KEYDOWN K_n => Some false
  | _ => None
  end.

(** One iteration of the loop of [game_over_prompt]; [None]: the prompt
    is drawn again. *)
Definition game_over_prompt (evs : list Event) : option bool :=
  first_some game_over_prompt_event evs.

(** Where the program is: in the loop of [main_menu], in the loop of
    [game] with its local state, in the loop of [game_over_prompt] (called
    from [game]), or past [sys.exit()]. *)
Inductive t : Type :=
| Menu
| Match (s : Game.State)
| GameOverPrompt
| Terminated.

(** [main], one frame at a time.  [main_menu] only returns ["game"], upon
    which [game] starts; [game] returns [False] on a QUIT event and the
    answer of [game_over_prompt] otherwise; [main] calls [main_menu] again
    when that answer is true and leaves its loop for [sys.exit()] when it
    is false. *)
Definition step (start_text quit_text : TextSize) (f : Game.Frame) (scr : t) : t :=
  match scr with
  | Menu =>
      match main_menu start_text quit_text (Game.events f) with
      | Some StartGame => Match (Game.init (Game.draw_left f))
      | Some ExitProgram => Terminated
      | None => Menu
      end
  | Match s =>
      match fst (Game.tick f s) with
      | Game.Closed => Terminated
      | Game.Over _ => GameOverPrompt
      | Game.Running s' => Match s'
      end
  | GameOverPrompt =>
      match game_over_prompt (Game.events f) with
      | Some true => Menu
      | Some false => Terminated
      | None => GameOverPrompt
      end
  | Terminated => Terminated
  end.

(** The screens after a sequence of frames. *)
Fixpoint run (start_text quit_text : TextSize) (frames : list Game.Frame) (scr : t) : t :=
  match frames with
  | [] => scr
  | f :: rest => run start_text quit_text rest (step start_text quit_text f scr)
  end.

(** *** The loops as they are nested in the source

    Each loop consumes the frames that follow and gives back those it
    leaves; [None]: the frames end while the loop is still running. *)

(** [main_menu]: also gives the frame on which the menu was left, whose
    draw is for the ball of the match that starts. *)
Fixpoint main_menu_loop (start_text quit_text : TextSize) (frames : list Game.Frame)
  : option (MenuAction * Game.Frame * list Game.Frame) :=
  match frames with
  | [] => None
  | f :: rest =>
      match main_menu start_text quit_text (Game.events f) with
      | Some a => Some (a, f, rest)
      | None => main_menu_loop start_text quit_text rest
      end
  end.

Fixpoint game_over_prompt_loop (frames : list Game.Frame)
  : option (bool * list Game.Frame) :=
  match frames with
  | [] => None
  | f :: rest =>
      match game_over_prompt (Game.events f) with
      | Some answer => Some (answer, rest)
      | None => game_over_prompt_loop rest
      end
  end.

(** The loop of [game], from state [s]. *)
Fixpoint game_loop (s : Game.State) (frames : list Game.Frame)
  : option (bool * list Game.Frame) :=
  match frames with
  | [] => None
  | f :: rest =>
      match fst (Game.tick f s) with
      | Game.Closed => Some (false, rest)
      | Game.Over _ => game_over_prompt_loop rest
      | Game.Running s' => game_loop s' rest
      end
  end.

Definition game (d : Ball.Draw) (frames : list Game.Frame)
  : option (bool * list Game.Frame) :=
  game_loop (Game.init d) frames.

(** [main]; [fuel] bounds the number of matches.  [Some rest]: the program
    has exited, leaving the frames [rest]. *)
Fixpoint main (fuel : nat) (start_text quit_text : TextSize) (frames : list Game.Frame)
  : option (list Game.Frame) :=
  match fuel with
  | O => None
  | S fuel' =>
      match main_menu_loop start_text quit_text frames with
      | None => None
      | Some (ExitProgram, _, rest) => Some rest
      | Some (StartGame, f, rest) =>
          match game (Game.draw_left f) rest with
          | None => None
          | Some (restart, rest') =>
              if restart then main fuel' start_text quit_text rest' else Some rest'
          end
      end
  end.

(** *** The state machine of the specification *)

Inductive Kind : Type := KMenu | KMatch | KGameOverPrompt | KTerminated.

Inductive Input : Type :=
| StartClick | QuitClick | WindowClose | MatchOver
| Affirmative | Negative | NoInput.

(** The transitions the specification lists; anything else leaves the
    state as it is. *)
Definition spec_next (k : Kind) (i : Input) : Kind :=
  match k, i with
  | KMenu, StartClick => KMatch
  | KMenu, QuitClick => KTerminated
  | KMenu, WindowClose => KTerminated
  | KMatch, MatchOver => KGameOverPrompt
  | KMatch, WindowClose => KTerminated
  | KGameOverPrompt, Affirmative => KMenu
  | KGameOverPrompt, Negative => KTerminated
  | KGameOverPrompt, WindowClose => KTerminated
  | _, _ => k
  end.

Definition kind (scr : t) : Kind :=
  match scr with
  | Menu => KMenu
  | Match _ => KMatch
  | GameOverPrompt => KGameOverPrompt
  | Terminated => KTerminated
  end.

(** What an event means on the menu and on the prompt. *)
Definition menu_input (start_text quit_text : TextSize) (e : Event) : option Input :=
  match e with
  | QUIT => Some WindowClose
  | MOUSEBUTTONDOWN px py =>
      if Rect.collidepoint px py (start_rect start_text) then Some StartClick
      else if Rect.collidepoint px py (quit_rect quit_text) then Some QuitClick
      else None
  | _ => None
  end.

Definition prompt_input (e : Event) : option Input :=
  match e with
  | QUIT => Some WindowClose
  | KEYDOWN K_y => Some Affirmative
  | KEYDOWN K_n => Some Negative
  | _ => None
  end.

Definition or_none (i : option Input) : Input :=
  match i with Some i' => i' | None => NoInput end.

(** The input a frame amounts to on each screen: the first meaningful
    event of its queue; during a match, a window-close event anywhere in
    the queue, otherwise whether a score has reached 5 after the
    update. *)
Definition input_of (start_text quit_text : TextSize) (f : Game.Frame) (scr : t)
  : Input :=
  match scr with
  | Menu => or_none (first_some (menu_input start_text quit_text) (Game.events f))
  | Match s =>
      if existsb is_quit (Game.events f) then WindowClose
      else if Game.game_over (fst (Game.update f s)) then MatchOver
      else NoInput
  | GameOverPrompt => or_none (first_some prompt_input (Game.events f))
  | Terminated => NoInput
  end.

End Screen.

(** ** Scenarios *)

Module Scenario.

Definition paddles_at_start (b : Ball.t) (ls rs : Z) : Game.State :=
  Game.mkState (Paddle.init 30 250) (Paddle.init 755 250) b ls rs.

(** The ball overlaps the left paddle and moves left. *)
Definition at_left_paddle : Game.State :=
  paddles_at_start (Ball.mk (Rect.mk 40 293 15 15) (-7) 0) 0 0.

(** The ball overlaps the right paddle and moves right. *)
Definition at_right_paddle : Game.State :=
  paddles_at_start (Ball.mk (Rect.mk 745 293 15 15) 7 0) 0 0.

(** The ball still overlaps the left paddle and moves right. *)
Definition leaving_left_paddle : Game.State :=
  paddles_at_start (Ball.mk (Rect.mk 40 293 15 15) 7 0) 0 0.

(** The ball still overlaps the right paddle and moves left. *)
Definition leaving_right_paddle : Game.State :=
  paddles_at_start (Ball.mk (Rect.mk 745 293 15 15) (-7) 0) 0 0.

(** The ball overlaps the left paddle near its lower end. *)
Definition low_on_left_paddle : Game.State :=
  paddles_at_start (Ball.mk (Rect.mk 40 345 15 15) (-7) 0) 0 0.

(** The ball touches the left edge of the playfield, all of it inside. *)
Definition at_left_edge : Game.State :=
  paddles_at_start (Ball.mk (Rect.mk 0 293 15 15) (-7) 0) 0 0.

(** The ball touches the right edge of the playfield, all of it inside. *)
Definition at_right_edge : Game.State :=
  paddles_at_start (Ball.mk (Rect.mk 785 293 15 15) 7 0) 0 0.

Definition straight_left : Ball.Draw := Ball.mkDraw 0 (-1).
Definition straight_right : Ball.Draw := Ball.mkDraw 0 1.

Definition quiet_frame : Game.Frame :=
  Game.mkFrame [] 300 straight_left straight_right.

(** A frame with the pointer at the top of the window: the right paddle
    is held at the top and lets a ball at mid-height through. *)
Definition open_goal : Game.Frame :=
  Game.mkFrame [] 0 straight_left straight_right.

(** The states of a match played with such frames only, every serve going
    straight to the right: [k] frames after a serve, the left player
    having [ls] points. *)
Definition flight (k ls : Z) : Game.State :=
  Game.mkState (Paddle.init 30 250) (Paddle.init 755 0)
               (Ball.mk (Rect.mk (393 + 7 * k) 293 15 15) 7 0) ls 0.

End Scenario.

(** ** Predicates on frames and states *)

Module Court.

(** Both draws of a frame are ones the random source can give. *)
Definition valid_frame (f : Game.Frame) : Prop :=
  Ball.valid_draw (Game.draw_left f) /\ Ball.valid_draw (Game.draw_right f).

(** The velocities [reset] and the paddle responses produce: a horizontal
    part between half of the ball speed and all of it, and a bounded
    vertical part. *)
Definition velocity_ok (b : Ball.t) : Prop :=
  (IZR BALL_SPEED / 2 <= Rabs (Ball.vx b) <= IZR BALL_SPEED /\
   Rabs (Ball.vy b) <= IZR BALL_SPEED * sin MAX_ANGLE)%R.

(** A paddle of the game in its column [x0]. *)
Definition paddle_at (x0 : Z) (p : Paddle.t) : Prop :=
  Rect.x (Paddle.rect p) = x0 /\
  Rect.w (Paddle.rect p) = PADDLE_WIDTH /\
  Rect.h (Paddle.rect p) = PADDLE_HEIGHT /\
  0 <= Rect.y (Paddle.rect p) <= HEIGHT - PADDLE_HEIGHT /\
  Paddle.speed p = 7.

(** The geometry of a match while its loop runs. *)
Definition layout_ok (s : Game.State) : Prop :=
  paddle_at 30 (Game.left_paddle s) /\
  paddle_at (WIDTH - 30 - PADDLE_WIDTH) (Game.right_paddle s) /\
  Rect.w (Ball.rect (Game.ball s)) = BALL_SIZE /\
  Rect.h (Ball.rect (Game.ball s)) = BALL_SIZE /\
  0 < Rect.left (Ball.rect (Game.ball s)) /\
  Rect.right (Ball.rect (Game.ball s)) < WIDTH /\
  0 <= Game.left_score s < 5 /\ 0 <= Game.right_score s < 5.

(** Events the game over prompt passes over. *)
Definition prompt_ignores (e : Event) : Prop :=
  e <> QUIT /\ e <> KEYDOWN K_y /\ e <> KEYDOWN K_n.

(** A frame of the menu in which the window is closed, with a font giving
    texts of 80 by 25 pixels. *)
Definition menu_text : Screen.TextSize := Screen.mkSize 80 25.

Definition closing_frame : Game.Frame :=
  Game.mkFrame [QUIT] 300 (Ball.mkDraw 0 (-1)) (Ball.mkDraw 0 1).

End Court.

(** ** The float computations under binary64 rounding *)

Module Rounded.

Open Scope R_scope.

(** The arithmetic of the interpreter: [rnd] takes the exact result of an
    operation on floats to the float the operation returns, and [math_sin],
    [math_cos] and [math_pi] are the library's [math.sin], [math.cos] and
    [math.pi]. *)
Record Arith : Type := mkArith {
  rnd : R -> R;
  math_sin : R -> R;
  math_cos : R -> R;
  math_pi : R
}.

(** The arithmetic without rounding, which the definitions above use. *)
Definition exact : Arith := mkArith (fun x => x) sin cos PI.

(** Every integer up to [2 ^ 53] in magnitude is a binary64 number. *)
Definition max_exact : Z := 9007199254740992.

(** Bounds on the relative error of one rounding and on the error of the
    library's functions (binary64 has [2 ^ -53], about [1.1e-16]), and on
    the absolute error of a rounding next to zero. *)
Definition unit_roundoff : R := 1 / 10 ^ 15.
Definition underflow : R := 1 / 10 ^ 18.

(** What the proofs use of binary64 arithmetic in rounding to nearest and
    of the library.  Overflow is left out: [rnd] is the rounding to 53
    significant bits wherever binary64 returns a finite number.  Both
    [exact] and [binary64] below are such arithmetics. *)
Record sound (A : Arith) : Prop := mkSound {
  rnd_monotone : forall x y, x <= y -> rnd A x <= rnd A y;
  rnd_integer : forall z, (Z.abs z <= max_exact)%Z -> rnd A (IZR z) = IZR z;
  rnd_error : forall x, Rabs x <= IZR max_exact ->
                Rabs (rnd A x - x) <= unit_roundoff * Rabs x + underflow;
  sin_range : forall x, -1 <= math_sin A x <= 1;
  cos_range : forall x, -1 <= math_cos A x <= 1;
  sin_error : forall x, Rabs x <= 2 -> Rabs (math_sin A x - sin x) <= unit_roundoff;
  cos_error : forall x, Rabs x <= 2 -> Rabs (math_cos A x - cos x) <= unit_roundoff;
  pi_error : Rabs (math_pi A - PI) <= unit_roundoff
}.

(** *** Binary64 *)

(** The nearest integer, a tie going to the even one. *)
Definition nearest_even (r : R) : Z :=
  let f := Zfloor r in
  if Rlt_dec (r - IZR f) (1 / 2) then f
  else if Rlt_dec (1 / 2) (r - IZR f) then (f + 1)%Z
  else if Z.even f then f else (f + 1)%Z.

(** The exponent of the binade of a positive number, not below that of the
    smallest normal number. *)
Definition binade (x : R) : Z := Z.max (-1022) (Zfloor (ln x / ln 2)).

(** The distance between the binary64 numbers around a positive number. *)
Definition quantum (x : R) : R := powerRZ 2 (binade x - 52).

Definition rnd_pos (x : R) : R := IZR (nearest_even (x / quantum x)) * quantum x.

(** Rounding to the nearest binary64 number (overflow left out). *)
Definition rnd64 (x : R) : R :=
  if Rlt_dec 0 x then rnd_pos x
  else if Rlt_dec x 0 then - rnd_pos (- x)
  else 0.

(** Binary64 arithmetic with a library that returns the binary64 number
    nearest to the exact sine and cosine. *)
Definition binary64 : Arith :=
  mkArith rnd64 (fun x => rnd64 (sin x)) (fun x => rnd64 (cos x)) (rnd64 PI).

(** The float literals [0.1], [0.2] and [0.3] of the source are the
    binary64 numbers next to them. *)
Definition literal_0_1 : R := 3602879701896397 / 36028797018963968.
Definition literal_0_2 : R := 3602879701896397 / 18014398509481984.
Definition literal_0_3 : R := 5404319552844595 / 18014398509481984.

(** *** Sound engine *)

Definition int_val (A : Arith) (frequency volume : R) (i : Z) : Z :=
  let t := rnd A (IZR i / IZR SoundEngine.sample_rate) in
  let value := math_sin A (rnd A (rnd A (rnd A (2 * math_pi A) * frequency) * t)) in
  py_int (rnd A (rnd A (volume * 32767) * value)).

Definition n_samples (A : Arith) (duration : R) : Z :=
  py_int (rnd A (IZR SoundEngine.sample_rate * duration)).

Definition samples (A : Arith) (frequency duration volume : R) : list Z :=
  map (int_val A frequency volume) (range (n_samples A duration)).

Definition _generate_tone (A : Arith) (frequency duration volume : R)
  : option (list Z) :=
  let s := samples A frequency duration volume in
  if forallb SoundEngine.fits_int16 s then Some s else None.

Definition hit_paddle (A : Arith) : option (list Z) :=
  _generate_tone A 440 literal_0_1 literal_0_2.

Definition score (A : Arith) : option (list Z) :=
  _generate_tone A 220 literal_0_2 literal_0_3.

(** *** Ball *)

Definition MAX_ANGLE (A : Arith) : R := rnd A (math_pi A / 3).

Definition valid_draw (A : Arith) (d : Ball.Draw) : Prop :=
  - MAX_ANGLE A <= Ball.angle d <= MAX_ANGLE A /\
  (Ball.direction d = (-1)%Z \/ Ball.direction d = 1%Z).

Definition reset (A : Arith) (d : Ball.Draw) (b : Ball.t) : Ball.t :=
  Ball.mk (Rect.set_center (WIDTH / 2) (HEIGHT / 2) (Ball.rect b))
          (rnd A (IZR (Ball.direction d) * IZR BALL_SPEED
                  * math_cos A (Ball.angle d)))
          (rnd A (IZR BALL_SPEED * math_sin A (Ball.angle d))).

(** The store of a float into a [Rect] coordinate; the sum with one half
    is a float operation as well. *)
Definition pg_round (A : Arith) (d : R) : Z :=
  if Rlt_dec d 0 then Zceil (rnd A (d - 1 / 2)) else Zfloor (rnd A (d + 1 / 2)).

Definition move (A : Arith) (b : Ball.t) : Ball.t :=
  let r := Ball.rect b in
  let r1 := Rect.set_x (pg_round A (rnd A (IZR (Rect.x r) + Ball.vx b))) r in
  let r2 := Rect.set_y (pg_round A (rnd A (IZR (Rect.y r1) + Ball.vy b))) r1 in
  Ball.mk r2 (Ball.vx b) (Ball.vy b).

(** *** Paddle collisions *)

(** [offset] before the clamp. *)
Definition quotient (A : Arith) (b p : Rect.t) : R :=
  rnd A (IZR (Rect.centery b - Rect.centery p) / rnd A (IZR PADDLE_HEIGHT / 2)).

Definition hit_offset (A : Arith) (b p : Rect.t) : R :=
  Rmax (-1) (Rmin 1 (quotient A b p)).

Definition left_collision (A : Arith) (s : Game.State)
  : Game.State * list Game.Sound :=
  let b := Game.ball s in
  let p := Paddle.rect (Game.left_paddle s) in
  if Rect.colliderect (Ball.rect b) p && Rltb (Ball.vx b) 0 then
    let angle := rnd A (hit_offset A (Ball.rect b) p * MAX_ANGLE A) in
    let b' := Ball.mk (Rect.set_left (Rect.right p + 1) (Ball.rect b))
                      (rnd A (IZR BALL_SPEED * math_cos A angle))
                      (rnd A (IZR BALL_SPEED * math_sin A angle)) in
    (Game.set_ball b' s, [Game.HitPaddle])
  else (s, []).

Definition right_collision (A : Arith) (s : Game.State)
  : Game.State * list Game.Sound :=
  let b := Game.ball s in
  let p := Paddle.rect (Game.right_paddle s) in
  if Rect.colliderect (Ball.rect b) p && Rltb 0 (Ball.vx b) then
    let angle := rnd A (hit_offset A (Ball.rect b) p * MAX_ANGLE A) in
    let b' := Ball.mk (Rect.set_right (Rect.left p - 1) (Ball.rect b))
                      (rnd A (- IZR BALL_SPEED * math_cos A angle))
                      (rnd A (IZR BALL_SPEED * math_sin A angle)) in
    (Game.set_ball b' s, [Game.HitPaddle])
  else (s, []).


End Rounded.

(** ** Some of the float computations on binary64 numbers *)

Module B64.

Import PrimFloat FloatOps SpecFloat.
Open Scope float_scope.

Definition math_pi : float := 0x1.921fb54442d18p+1.
Definition MAX_ANGLE : float := math_pi / 3.

(** The values [math.cos(MAX_ANGLE)] and [math.sin(MAX_ANGLE)] return:
    the binary64 numbers next to the cosine and the sine of the number
    [MAX_ANGLE], which lies a little under a third of pi. *)
Definition cos_MAX_ANGLE : float := 0x1.0000000000001p-1.
Definition sin_MAX_ANGLE : float := 0x1.bb67ae8584caap-1.

(** [min(a, b)] and [max(a, b)] of Python: the first argument unless the
    second is smaller, or larger. *)
Definition py_min (a b : float) : float := if b <? a then b else a.
Definition py_max (a b : float) : float := if a <? b then b else a.

(** [offset] after the clamp, from the difference of the two centres. *)
Definition hit_offset (d : float) : float :=
  let offset := d / (100 / 2) in
  py_max (-1) (py_min 1 offset).

(** The velocity of a collision response ([k] is 7 or -7) or of [reset]
    ([k] is [direction * BALL_SPEED]), from the values the library returns
    for the cosine and the sine of the angle. *)
Definition velocity (k cos_angle sin_angle : float) : float * float :=
  (k * cos_angle, 7 * sin_angle).

(** [vx * vx + vy * vy], in floats. *)
Definition speed_squared (v : float * float) : float :=
  fst v * fst v + snd v * snd v.

(** The real number a finite float stands for. *)
Definition to_R (f : float) : R :=
  match Prim2SF f with
  | S754_finite s m e => (IZR (if s then Z.neg m else Z.pos m) * powerRZ 2 e)%R
  | _ => 0%R
  end.

(** [int(f)] for a finite float. *)
Definition py_int (f : float) : Z :=
  match Prim2SF f with
  | S754_finite s m e =>
      let a := Z.shiftl (Z.pos m) e in if s then (- a)%Z else a
  | _ => 0%Z
  end.

Definition n_samples (duration : float) : Z := py_int (22050 * duration).

End B64.

(** * Properties *)

(** Case analysis on the integer tests of a goal. *)
Ltac z_tests :=
  rewrite ?Z.gtb_ltb, ?Z.geb_leb in *;
  repeat match goal with
         | |- context [(?a <? ?b)%Z] => destruct (Z.ltb_spec a b)
         | |- context [(?a <=? ?b)%Z] => destruct (Z.leb_spec a b)
         | |- context [(?a =? ?b)%Z] => destruct (Z.eqb_spec a b)
         end.

(** ** Truncation *)

Section Truncation.

Open Scope R_scope.

Lemma py_int_nonneg (r : R) : 0 <= r -> py_int r = Zfloor r.
Proof.
  intros Hr. unfold py_int. destruct (Rle_dec 0 r) as [_ | Hn]; [reflexivity | contradiction].
Qed.

Lemma py_int_neg (r : R) : r < 0 -> py_int r = Zceil r.
Proof.
  intros Hr. unfold py_int. destruct (Rle_dec 0 r) as [Hp | _]; [lra | reflexivity].
Qed.

Lemma py_int_floor_eq (z : Z) (r : R) :
  0 <= r -> IZR z <= r < IZR z + 1 -> py_int r = z.
Proof.
  intros Hr Hz. rewrite py_int_nonneg by assumption. now apply Zfloor_eq.
Qed.

Lemma py_int_ceil_eq (z : Z) (r : R) :
  r < 0 -> IZR z - 1 < r <= IZR z -> py_int r = z.
Proof.
  intros Hr Hz. rewrite py_int_neg by assumption. now apply Zceil_eq.
Qed.

Lemma py_int_IZR (z : Z) : py_int (IZR z) = z.
Proof.
  destruct (Rle_dec 0 (IZR z)) as [Hp | Hn].
  - apply py_int_floor_eq; lra.
  - apply py_int_ceil_eq; lra.
Qed.

(** Truncation never increases the magnitude. *)
Lemma py_int_abs (r : R) : Rabs (IZR (py_int r)) <= Rabs r.
Proof.
  destruct (Rle_dec 0 r) as [Hp | Hn].
  - rewrite py_int_nonneg by assumption.
    pose proof (Zfloor_bound r) as [Hlo Hhi].
    assert (0 <= Zfloor r)%Z as H0 by (apply Zfloor_lub; simpl; lra).
    apply IZR_le in H0.
    rewrite !Rabs_pos_eq by lra. exact Hlo.
  - assert (r < 0) as Hr by lra.
    rewrite py_int_neg by assumption.
    pose proof (Zceil_bound r) as [Hlo Hhi].
    assert (Zceil r <= 0)%Z as H0.
    { apply Z.lt_succ_r. apply lt_IZR. rewrite succ_IZR. lra. }
    apply IZR_le in H0.
    rewrite !Rabs_left1 by lra. lra.
Qed.

Lemma py_int_bounded (r : R) (m : Z) :
  Rabs r <= IZR m -> (- m <= py_int r <= m)%Z.
Proof.
  intros Hr. pose proof (py_int_abs r) as Ha.
  assert (Rabs (IZR (py_int r)) <= IZR m) as Hb by lra.
  assert (- IZR m <= IZR (py_int r) <= IZR m) as [Hlo Hhi].
  { unfold Rabs in Hb. destruct (Rcase_abs (IZR (py_int r))); lra. }
  rewrite <- opp_IZR in Hlo.
  split; apply le_IZR; assumption.
Qed.

End Truncation.

(** ** The store into a rectangle *)

Section Store.

Open Scope R_scope.

Lemma Rabs_le_elim (a b : R) : Rabs a <= b -> - b <= a <= b.
Proof. intros H. unfold Rabs in H. destruct (Rcase_abs a); lra. Qed.

(** A float within less than one half of an integer is stored as that
    integer. *)
Lemma pg_round_near (z : Z) (d : R) : Rabs (d - IZR z) < 1 / 2 -> pg_round d = z.
Proof.
  intros H. apply Rabs_def2 in H. destruct H as [Hhi Hlo].
  unfold pg_round. destruct (Rlt_dec d 0).
  - apply Zceil_eq. lra.
  - apply Zfloor_eq. lra.
Qed.

Lemma pg_round_IZR (z : Z) : pg_round (IZR z) = z.
Proof.
  apply pg_round_near. rewrite Rminus_diag, Rabs_R0. lra.
Qed.

(** A half is stored as the next integer away from zero. *)
Lemma pg_round_half (z : Z) :
  (0 <= z)%Z -> pg_round (IZR z + 1 / 2) = (z + 1)%Z /\
                pg_round (- (IZR z + 1 / 2)) = (- (z + 1))%Z.
Proof.
  intros Hz. apply IZR_le in Hz. unfold pg_round. split.
  - destruct (Rlt_dec _ 0); [lra |]. apply Zfloor_eq. rewrite plus_IZR. lra.
  - destruct (Rlt_dec _ 0); [| lra]. apply Zceil_eq. rewrite opp_IZR, plus_IZR. lra.
Qed.

End Store.

(** ** Paddle *)

Section PaddleBounds.

Lemma clamp_axis_inside (pos size asize : Z) :
  size < asize -> 0 <= Rect.clamp_axis pos size 0 asize <= asize - size.
Proof.
  intros Hs. unfold Rect.clamp_axis. z_tests; lia.
Qed.

Lemma move_ai_height (v : Z) (p : Paddle.t) :
  Rect.h (Paddle.rect (Paddle.move_ai v p)) = Rect.h (Paddle.rect p).
Proof.
  unfold Paddle.move_ai. cbn.
  destruct (_ <? _); [reflexivity |]. destruct (_ >? _); reflexivity.
Qed.

Lemma move_mouse_height (v : Z) (p : Paddle.t) :
  Rect.h (Paddle.rect (Paddle.move_mouse v p)) = Rect.h (Paddle.rect p).
Proof. reflexivity. Qed.

(** C4: after [move_ai] and after [move_mouse], whatever the argument,
    the top of a paddle (a rectangle of height [PADDLE_HEIGHT], as
    [Paddle(x, y)] builds it) lies in [0, HEIGHT - PADDLE_HEIGHT]. *)
Theorem paddle_stays_in_playfield (p : Paddle.t) (v : Z) :
  Rect.h (Paddle.rect p) = PADDLE_HEIGHT ->
  0 <= Rect.y (Paddle.rect (Paddle.move_ai v p)) <= HEIGHT - PADDLE_HEIGHT /\
  0 <= Rect.y (Paddle.rect (Paddle.move_mouse v p)) <= HEIGHT - PADDLE_HEIGHT.
Proof.
  intros Hh. split.
  - unfold Paddle.move_ai. cbn [Paddle.rect Rect.clamp_ip Rect.y playfield Rect.h].
    assert (forall r, Rect.h r = PADDLE_HEIGHT ->
              0 <= Rect.clamp_axis (Rect.y r) (Rect.h r) 0 HEIGHT
                <= HEIGHT - PADDLE_HEIGHT) as Hc.
    { intros r Hr. rewrite Hr. apply clamp_axis_inside. reflexivity. }
    apply Hc.
    destruct (_ <? _); [exact Hh |]. destruct (_ >? _); exact Hh.
  - unfold Paddle.move_mouse. cbn [Paddle.rect Rect.clamp_ip Rect.y playfield Rect.h Rect.set_y].
    rewrite Hh. apply clamp_axis_inside. reflexivity.
Qed.

Lemma paddle_stays_in_playfield_witness :
  0 <= Rect.y (Paddle.rect (Paddle.move_ai 1000 (Paddle.init 30 250)))
    <= HEIGHT - PADDLE_HEIGHT /\
  0 <= Rect.y (Paddle.rect (Paddle.move_mouse 1000 (Paddle.init 30 250)))
    <= HEIGHT - PADDLE_HEIGHT.
Proof.
  exact (paddle_stays_in_playfield (Paddle.init 30 250) 1000 eq_refl).
Defined.

(** The moves at the two ends of the playfield. *)
Example move_mouse_top :
  Rect.y (Paddle.rect (Paddle.move_mouse (-40) (Paddle.init 30 250))) = 0.
Proof. reflexivity. Qed.

Example move_mouse_bottom :
  Rect.y (Paddle.rect (Paddle.move_mouse 5000 (Paddle.init 30 250))) = 500.
Proof. reflexivity. Qed.

Example move_ai_bottom :
  Rect.y (Paddle.rect (Paddle.move_ai 600 (Paddle.init 30 498))) = 500.
Proof. reflexivity. Qed.

End PaddleBounds.

(** ** Paddle bounces *)

Section Bounce.

Open Scope R_scope.
Import Game.

Lemma Rltb_true (x y : R) : x < y -> Rltb x y = true.
Proof. intros H. unfold Rltb. destruct (Rlt_dec x y); [reflexivity | contradiction]. Qed.

Lemma Rltb_false (x y : R) : y <= x -> Rltb x y = false.
Proof. intros H. unfold Rltb. destruct (Rlt_dec x y); [lra | reflexivity]. Qed.

Lemma Rltb_lt (x y : R) : Rltb x y = true -> x < y.
Proof. unfold Rltb. destruct (Rlt_dec x y); [trivial | discriminate]. Qed.

Lemma clamp_bounds (o : R) : -1 <= Rmax (-1) (Rmin 1 o) <= 1.
Proof.
  unfold Rmax, Rmin.
  destruct (Rle_dec 1 o); destruct (Rle_dec (-1) _); lra.
Qed.

Lemma deflection_within_quarter_turn (o : R) :
  -1 <= o <= 1 -> - (PI / 2) < o * MAX_ANGLE < PI / 2.
Proof.
  intros Ho. unfold MAX_ANGLE. pose proof PI_RGT_0. split; nra.
Qed.

Lemma deflection_cos_pos (o : R) : -1 <= o <= 1 -> 0 < cos (o * MAX_ANGLE).
Proof.
  intros Ho. apply deflection_within_quarter_turn in Ho.
  apply cos_gt_0; tauto.
Qed.

Lemma fixed_speed (k a : R) : (k * cos a)² + (k * sin a)² = k².
Proof.
  pose proof (sin2_cos2 a) as H. unfold Rsqr in *. nra.
Qed.

(** The ball's centre 52 pixels below the paddle's: the quotient is 1.04,
    the offset used is 1. *)
Example hit_offset_beyond_paddle_end :
  let s := Scenario.low_on_left_paddle in
  Rect.colliderect (Ball.rect (ball s)) (Paddle.rect (left_paddle s)) = true /\
  hit_offset (Ball.rect (ball s)) (Paddle.rect (left_paddle s)) = 1.
Proof.
  split; [reflexivity |].
  unfold hit_offset, PADDLE_HEIGHT. cbn.
  rewrite Rmin_left by lra. apply Rmax_right. lra.
Qed.

(** C8: the response of the left paddle fires only when [vx < 0] and that
    of the right paddle only when [vx > 0]; with the ball moving away the
    state is left as it is, overlap or not, so a response does not fire
    again on the state it has just produced. *)
Theorem bounce_only_toward_paddle (s : State) :
  (snd (left_collision s) <> [] -> Ball.vx (ball s) < 0) /\
  (snd (right_collision s) <> [] -> 0 < Ball.vx (ball s)) /\
  (0 <= Ball.vx (ball s) -> left_collision s = (s, [])) /\
  (Ball.vx (ball s) <= 0 -> right_collision s = (s, [])) /\
  left_collision (fst (left_collision s)) = (fst (left_collision s), []) /\
  right_collision (fst (right_collision s)) = (fst (right_collision s), []).
Proof.
  assert (forall t, 0 <= Ball.vx (ball t) -> left_collision t = (t, [])) as HL.
  { intros t Ht. unfold left_collision. rewrite (Rltb_false _ _ Ht), andb_false_r. reflexivity. }
  assert (forall t, Ball.vx (ball t) <= 0 -> right_collision t = (t, [])) as HR.
  { intros t Ht. unfold right_collision. rewrite (Rltb_false _ _ Ht), andb_false_r. reflexivity. }
  repeat split.
  - intros Hf. destruct (Rlt_dec (Ball.vx (ball s)) 0) as [Hlt | Hge]; [exact Hlt |].
    exfalso. apply Hf. rewrite HL by lra. reflexivity.
  - intros Hf. destruct (Rlt_dec 0 (Ball.vx (ball s))) as [Hlt | Hge]; [exact Hlt |].
    exfalso. apply Hf. rewrite HR by lra. reflexivity.
  - apply HL.
  - apply HR.
  - unfold left_collision at 2 3.
    destruct (Rect.colliderect _ _ && Rltb _ _) eqn:E; cbn [fst].
    + apply HL. cbn. apply Rlt_le, Rmult_lt_0_compat; [unfold BALL_SPEED; lra |].
      apply deflection_cos_pos, clamp_bounds.
    + unfold left_collision. rewrite E. reflexivity.
  - unfold right_collision at 2 3.
    destruct (Rect.colliderect _ _ && Rltb _ _) eqn:E; cbn [fst].
    + apply HR. cbn.
      assert (0 < IZR BALL_SPEED * cos (hit_offset (Ball.rect (ball s))
                 (Paddle.rect (right_paddle s)) * MAX_ANGLE)).
      { apply Rmult_lt_0_compat; [unfold BALL_SPEED; lra |].
        apply deflection_cos_pos, clamp_bounds. }
      lra.
    + unfold right_collision. rewrite E. reflexivity.
Qed.

Lemma left_collision_fires (s : State) :
  Rect.colliderect (Ball.rect (ball s)) (Paddle.rect (left_paddle s)) = true ->
  Ball.vx (ball s) < 0 ->
  snd (left_collision s) = [HitPaddle].
Proof.
  intros Hc Hv. unfold left_collision. rewrite Hc, (Rltb_true _ _ Hv). reflexivity.
Qed.

Lemma right_collision_fires (s : State) :
  Rect.colliderect (Ball.rect (ball s)) (Paddle.rect (right_paddle s)) = true ->
  0 < Ball.vx (ball s) ->
  snd (right_collision s) = [HitPaddle].
Proof.
  intros Hc Hv. unfold right_collision. rewrite Hc, (Rltb_true _ _ Hv). reflexivity.
Qed.

Lemma bounce_only_toward_paddle_witness :
  Ball.vx (ball Scenario.at_left_paddle) < 0 /\
  0 < Ball.vx (ball Scenario.at_right_paddle) /\
  Rect.colliderect (Ball.rect (ball Scenario.leaving_left_paddle))
                   (Paddle.rect (left_paddle Scenario.leaving_left_paddle)) = true /\
  left_collision Scenario.leaving_left_paddle = (Scenario.leaving_left_paddle, []) /\
  Rect.colliderect (Ball.rect (ball Scenario.leaving_right_paddle))
                   (Paddle.rect (right_paddle Scenario.leaving_right_paddle)) = true /\
  right_collision Scenario.leaving_right_paddle = (Scenario.leaving_right_paddle, []).
Proof.
  destruct (bounce_only_toward_paddle Scenario.at_left_paddle) as (HL & _).
  destruct (bounce_only_toward_paddle Scenario.at_right_paddle) as (_ & HR & _).
  destruct (bounce_only_toward_paddle Scenario.leaving_left_paddle) as (_ & _ & HL' & _).
  destruct (bounce_only_toward_paddle Scenario.leaving_right_paddle) as (_ & _ & _ & HR' & _).
  repeat split.
  - apply HL. rewrite left_collision_fires; [discriminate | reflexivity | cbn; lra].
  - apply HR. rewrite right_collision_fires; [discriminate | reflexivity | cbn; lra].
  - apply HL'. cbn. lra.
  - apply HR'. cbn. lra.
Defined.

(** In exact arithmetic the speed is the same at every offset; only the
    direction depends on it. *)
Lemma speed_at_every_offset (o : R) :
  -1 <= o <= 1 ->
  (IZR BALL_SPEED * cos (o * MAX_ANGLE))² + (IZR BALL_SPEED * sin (o * MAX_ANGLE))²
    = (IZR BALL_SPEED)² /\
  0 < IZR BALL_SPEED * cos (o * MAX_ANGLE).
Proof.
  intros Ho. split; [apply fixed_speed |].
  apply Rmult_lt_0_compat; [unfold BALL_SPEED; lra | now apply deflection_cos_pos].
Qed.

(** The scenario of the specification: a hit at the paddle's centre sends
    the ball back at [(7, 0)], placed one pixel right of the paddle. *)
Example centre_hit :
  ball (fst (left_collision Scenario.at_left_paddle))
    = Ball.mk (Rect.mk 46 293 15 15) 7 0.
Proof.
  assert (hit_offset (Ball.rect (ball Scenario.at_left_paddle))
            (Paddle.rect (left_paddle Scenario.at_left_paddle)) = 0) as Ho.
  { unfold hit_offset, PADDLE_HEIGHT. cbn.
    replace (0 / (100 / 2)) with 0 by lra.
    rewrite Rmin_right by lra. apply Rmax_right. lra. }
  unfold left_collision.
  replace (Rect.colliderect _ _) with true by reflexivity.
  rewrite Rltb_true by (cbn; lra). cbn [andb fst ball set_ball].
  rewrite Ho, Rmult_0_l, cos_0, sin_0. unfold BALL_SPEED. cbn.
  f_equal; lra.
Qed.

End Bounce.

(** ** Ball *)

Section BallProps.

Open Scope R_scope.

Lemma valid_straight_left : Ball.valid_draw Scenario.straight_left.
Proof.
  unfold Ball.valid_draw, MAX_ANGLE. cbn. pose proof PI_RGT_0.
  split; [lra | left; reflexivity].
Qed.

Lemma sin_within_max_angle (a : R) :
  - MAX_ANGLE <= a <= MAX_ANGLE -> Rabs (sin a) <= sin MAX_ANGLE.
Proof.
  unfold MAX_ANGLE. intros [Hlo Hhi]. pose proof PI_RGT_0 as Hpi.
  assert (sin a <= sin (PI / 3)) as Hup by (apply sin_incr_1; lra).
  assert (sin (- (PI / 3)) <= sin a) as Hdown by (apply sin_incr_1; lra).
  rewrite sin_neg in Hdown.
  apply Rabs_le. lra.
Qed.

Lemma reset_centre (d : Ball.Draw) (b : Ball.t) :
  Rect.centerx (Ball.rect (Ball.reset d b)) = (WIDTH / 2)%Z /\
  Rect.centery (Ball.rect (Ball.reset d b)) = (HEIGHT / 2)%Z.
Proof.
  unfold Rect.centerx, Rect.centery, Ball.reset, Rect.set_center.
  cbn [Ball.rect Rect.x Rect.y Rect.w Rect.h]. split; lia.
Qed.

(** The ball of the game, 15 pixels wide, lands with its corner at
    (393, 293). *)
Example reset_rect (d : Ball.Draw) (x y : Z) :
  Ball.rect (Ball.init x y d) = Rect.mk 393 293 15 15.
Proof. reflexivity. Qed.

End BallProps.

(** ** Scoring and the end of the match *)

Section Scoring.

Import Game.

Lemma scoring_unfold (f : Frame) (s : State) :
  scoring f s =
    (fst (score_left_player (draw_right f) (fst (score_right_player (draw_left f) s))),
     snd (score_right_player (draw_left f) s)
       ++ snd (score_left_player (draw_right f) (fst (score_right_player (draw_left f) s)))).
Proof.
  unfold scoring.
  destruct (score_right_player (draw_left f) s) as [s1 snd1].
  cbn [fst snd].
  destruct (score_left_player (draw_right f) s1) as [s2 snd2].
  reflexivity.
Qed.

Lemma reset_right_edge (d : Ball.Draw) (b : Ball.t) :
  Rect.w (Ball.rect b) = BALL_SIZE ->
  Rect.right (Ball.rect (Ball.reset d b)) = 408 /\
  Rect.left (Ball.rect (Ball.reset d b)) = 393.
Proof.
  intros Hw. unfold Rect.right, Rect.left. cbn. rewrite Hw. split; reflexivity.
Qed.

(** The three cases of the scoring step for a ball of the game's size. *)
Lemma scoring_cases (f : Frame) (s : State) :
  Rect.w (Ball.rect (ball s)) = BALL_SIZE ->
  let r := Ball.rect (ball s) in
  (Rect.left r <= 0 /\
   scoring f s =
     (mkState (left_paddle s) (right_paddle s) (Ball.reset (draw_left f) (ball s))
              (left_score s) (right_score s + 1), [Score])) \/
  (WIDTH <= Rect.right r /\
   scoring f s =
     (mkState (left_paddle s) (right_paddle s) (Ball.reset (draw_right f) (ball s))
              (left_score s + 1) (right_score s), [Score])) \/
  (0 < Rect.left r /\ Rect.right r < WIDTH /\ scoring f s = (s, [])).
Proof.
  intros Hw r. rewrite scoring_unfold.
  destruct (Z.leb_spec (Rect.left (Ball.rect (ball s))) 0) as [Hl | Hl].
  - left. split; [exact Hl |].
    assert (score_right_player (draw_left f) s =
              (mkState (left_paddle s) (right_paddle s)
                       (Ball.reset (draw_left f) (ball s))
                       (left_score s) (right_score s + 1), [Score])) as ->.
    { unfold score_right_player. apply Z.leb_le in Hl. rewrite Hl. reflexivity. }
    cbn [fst snd]. unfold score_left_player. cbn [ball].
    destruct (reset_right_edge (draw_left f) (ball s) Hw) as [-> _].
    reflexivity.
  - right.
    assert (score_right_player (draw_left f) s = (s, [])) as ->.
    { unfold score_right_player. apply Z.leb_gt in Hl. rewrite Hl. reflexivity. }
    cbn [fst snd app]. unfold score_left_player. rewrite Z.geb_leb.
    destruct (Z.leb_spec WIDTH (Rect.right (Ball.rect (ball s)))) as [Hr | Hr].
    + left. split; [exact Hr | reflexivity].
    + right. repeat split; assumption.
Qed.

(** C2, as the code has it: a scoring event occurs exactly when, after the
    movement and the collisions of the frame, the left side of the ball is
    at or beyond the left edge of the playfield (the right player scores)
    or its right side is at or beyond the right edge (the left player
    scores); on either event the score sound is played once and the ball
    is reset to the centre; otherwise nothing changes. *)
Theorem scoring_when_edge_reached (f : Frame) (s : State) :
  Rect.w (Ball.rect (ball s)) = BALL_SIZE ->
  let r := Ball.rect (ball s) in
  let s' := fst (scoring f s) in
  let played := snd (scoring f s) in
  (Rect.left r <= 0 ->
   right_score s' = right_score s + 1 /\ left_score s' = left_score s /\
   played = [Score] /\ ball s' = Ball.reset (draw_left f) (ball s) /\
   Rect.centerx (Ball.rect (ball s')) = WIDTH / 2 /\
   Rect.centery (Ball.rect (ball s')) = HEIGHT / 2) /\
  (WIDTH <= Rect.right r ->
   left_score s' = left_score s + 1 /\ right_score s' = right_score s /\
   played = [Score] /\ ball s' = Ball.reset (draw_right f) (ball s) /\
   Rect.centerx (Ball.rect (ball s')) = WIDTH / 2 /\
   Rect.centery (Ball.rect (ball s')) = HEIGHT / 2) /\
  (0 < Rect.left r -> Rect.right r < WIDTH -> s' = s /\ played = []).
Proof.
  intros Hw. cbv zeta.
  assert (Rect.right (Ball.rect (ball s)) = Rect.left (Ball.rect (ball s)) + 15) as Hlr.
  { unfold Rect.right, Rect.left. rewrite Hw. reflexivity. }
  destruct (scoring_cases f s Hw) as [[Hl ->] | [[Hr ->] | (Hl & Hr & ->)]];
    cbn [fst snd ball left_score right_score]; unfold WIDTH in *.
  - (* the left edge is reached *)
    split; [| split]; intros; try lia.
    repeat split; apply reset_centre.
  - (* the right edge is reached *)
    split; [| split]; intros; try lia.
    repeat split; apply reset_centre.
  - (* the ball is strictly between the edges *)
    split; [| split]; intros; try lia.
    split; reflexivity.
Qed.

Lemma scoring_when_edge_reached_witness :
  let s := Scenario.at_right_edge in
  let s' := fst (scoring Scenario.quiet_frame s) in
  left_score s' = left_score s + 1 /\ right_score s' = right_score s /\
  snd (scoring Scenario.quiet_frame s) = [Score] /\
  ball s' = Ball.reset Scenario.straight_right (ball s) /\
  Rect.centerx (Ball.rect (ball s')) = WIDTH / 2 /\
  Rect.centery (Ball.rect (ball s')) = HEIGHT / 2.
Proof.
  destruct (scoring_when_edge_reached Scenario.quiet_frame Scenario.at_right_edge eq_refl)
    as (_ & Hright & _).
  apply Hright. cbn. unfold WIDTH. lia.
Defined.

(** C2 fails as stated: a ball that touches the left edge, all of it
    still inside the playfield, is a scoring event. *)
Lemma score_inside_playfield_counterexample :
  let s := Scenario.at_left_edge in
  ~ fully_exited_left (Ball.rect (ball s)) /\
  ~ fully_exited_right (Ball.rect (ball s)) /\
  0 <= Rect.left (Ball.rect (ball s)) /\ Rect.right (Ball.rect (ball s)) <= WIDTH /\
  right_score (fst (scoring Scenario.quiet_frame s)) = right_score s + 1 /\
  snd (scoring Scenario.quiet_frame s) = [Score].
Proof.
  cbv zeta. unfold fully_exited_left, fully_exited_right, WIDTH. cbn.
  repeat split; try lia; try reflexivity.
Qed.

End Scoring.

Section MatchEnd.

Import Game.

Local Open Scope Z_scope.

Lemma keeps_refl (s : State) : keeps s s.
Proof. repeat split. Qed.

Lemma keeps_trans (a b c : State) : keeps a b -> keeps b c -> keeps a c.
Proof. unfold keeps. intuition congruence. Qed.

Lemma move_paddles_keeps (my : Z) (s : State) : keeps s (move_paddles my s).
Proof. repeat split. Qed.

Lemma move_keeps (s : State) : keeps s (set_ball (Ball.move (ball s)) s).
Proof. repeat split. Qed.

Lemma wall_collision_keeps (s : State) : keeps s (wall_collision s).
Proof. unfold wall_collision. destruct (_ || _); repeat split. Qed.

Lemma left_collision_keeps (s : State) :
  keeps s (fst (left_collision s)) /\ score_sounds (snd (left_collision s)) = 0.
Proof. unfold left_collision. destruct (_ && _); repeat split. Qed.

Lemma right_collision_keeps (s : State) :
  keeps s (fst (right_collision s)) /\ score_sounds (snd (right_collision s)) = 0.
Proof. unfold right_collision. destruct (_ && _); repeat split. Qed.

Lemma score_sounds_app (a b : list Sound) :
  score_sounds (a ++ b) = score_sounds a + score_sounds b.
Proof.
  unfold score_sounds. rewrite filter_app, length_app. lia.
Qed.

Lemma before_scoring_keeps (f : Frame) (s : State) :
  keeps s (fst (before_scoring f s)) /\ score_sounds (snd (before_scoring f s)) = 0.
Proof.
  unfold before_scoring.
  set (s1 := move_paddles (mouse_y f) s).
  set (s2 := set_ball (Ball.move (ball s1)) s1).
  set (s3 := wall_collision s2).
  pose proof (left_collision_keeps s3) as [K4 S4].
  destruct (left_collision s3) as [s4 snd4]. cbn [fst snd] in *.
  pose proof (right_collision_keeps s4) as [K5 S5].
  destruct (right_collision s4) as [s5 snd5]. cbn [fst snd] in *.
  split.
  - apply keeps_trans with s4; [| exact K5].
    apply keeps_trans with s3; [| exact K4].
    apply keeps_trans with s2; [| apply wall_collision_keeps].
    apply keeps_trans with s1; [apply move_paddles_keeps | apply move_keeps].
  - rewrite score_sounds_app. lia.
Qed.

Lemma update_unfold (f : Frame) (s : State) :
  update f s =
    (fst (scoring f (fst (before_scoring f s))),
     snd (before_scoring f s) ++ snd (scoring f (fst (before_scoring f s)))).
Proof.
  unfold update.
  destruct (before_scoring f s) as [s5 snd5]. cbn [fst snd].
  destruct (scoring f s5) as [s6 snd6]. reflexivity.
Qed.

(** One frame changes the scores in one of three ways. *)
Lemma update_scores (f : Frame) (s : State) :
  Rect.w (Ball.rect (ball s)) = BALL_SIZE ->
  let s' := fst (update f s) in
  let played := snd (update f s) in
  Rect.w (Ball.rect (ball s')) = BALL_SIZE /\
  ((left_score s' = left_score s /\ right_score s' = right_score s /\
    score_sounds played = 0) \/
   (left_score s' = left_score s + 1 /\ right_score s' = right_score s /\
    score_sounds played = 1) \/
   (left_score s' = left_score s /\ right_score s' = right_score s + 1 /\
    score_sounds played = 1)).
Proof.
  intros Hw. cbv zeta. rewrite update_unfold. cbn [fst snd].
  destruct (before_scoring_keeps f s) as [(Kl & Kr & Kw) S0].
  rewrite score_sounds_app, S0.
  set (s5 := fst (before_scoring f s)) in *.
  assert (Rect.w (Ball.rect (ball s5)) = BALL_SIZE) as Hw5 by congruence.
  destruct (scoring_cases f s5 Hw5) as [[_ ->] | [[_ ->] | (_ & _ & ->)]];
    cbn [fst snd ball left_score right_score].
  - split; [exact Hw5 |]. right. right. rewrite Kl, Kr. repeat split.
  - split; [exact Hw5 |]. right. left. rewrite Kl, Kr. repeat split.
  - split; [exact Hw5 |]. left. rewrite Kl, Kr. repeat split.
Qed.

Lemma tick_unfold (f : Frame) (s : State) :
  tick f s =
    if existsb is_quit (events f) then (Closed, [])
    else if game_over (fst (update f s))
         then (Over (fst (update f s)), snd (update f s))
         else (Running (fst (update f s)), snd (update f s)).
Proof.
  unfold tick. destruct (update f s) as [s' played]. reflexivity.
Qed.

(** While the loop runs, both scores are below 5 and the ball keeps its
    size. *)
Lemma reachable_invariant (s : State) :
  reachable s ->
  Rect.w (Ball.rect (ball s)) = BALL_SIZE /\
  0 <= left_score s < 5 /\ 0 <= right_score s < 5.
Proof.
  induction 1 as [d | s s' f played Hs IH Ht].
  - cbn. repeat split; lia.
  - destruct IH as (Hw & Hl & Hr).
    rewrite tick_unfold in Ht.
    destruct (existsb is_quit (events f)); [discriminate |].
    destruct (game_over (fst (update f s))) eqn:Hover; [discriminate |].
    injection Ht as <- _.
    unfold game_over in Hover. apply orb_false_iff in Hover.
    rewrite !Z.geb_leb, !Z.leb_gt in Hover.
    destruct (update_scores f s Hw) as (Hw' & Hcases).
    split; [exact Hw' |]. lia.
Qed.

(** A velocity of whole pixels moves the rectangle by that many pixels. *)
Lemma move_whole_pixels (r : Rect.t) (a b : Z) :
  Ball.move (Ball.mk r (IZR a) (IZR b))
    = Ball.mk (Rect.mk (Rect.x r + a) (Rect.y r + b) (Rect.w r) (Rect.h r))
              (IZR a) (IZR b).
Proof.
  unfold Ball.move, Rect.set_x_float, Rect.set_y_float, Rect.set_x, Rect.set_y.
  cbn [Ball.rect Ball.vx Ball.vy Rect.x Rect.y Rect.w Rect.h].
  rewrite <- !plus_IZR, !pg_round_IZR. reflexivity.
Qed.

(** *** A match played to its end *)

Lemma serve_straight_right (b : Ball.t) :
  Ball.reset Scenario.straight_right b
    = Ball.mk (Rect.set_center (WIDTH / 2) (HEIGHT / 2) (Ball.rect b)) 7 0.
Proof.
  unfold Ball.reset, Scenario.straight_right, BALL_SPEED.
  cbn [Ball.angle Ball.direction]. rewrite cos_0, sin_0. f_equal; lra.
Qed.

Lemma colliderect_apart_vertically (a b : Rect.t) :
  0 <= Rect.h a -> 0 <= Rect.h b -> Rect.y b + Rect.h b <= Rect.y a ->
  Rect.colliderect a b = false.
Proof.
  intros Ha Hb Hab. unfold Rect.colliderect.
  destruct (_ || _); [reflexivity |]. rewrite !Z.gtb_ltb.
  assert ((Z.min (Rect.y a) (Rect.y a + Rect.h a)
           <? Z.max (Rect.y b) (Rect.y b + Rect.h b)) = false) as -> by (apply Z.ltb_ge; lia).
  now rewrite andb_false_r.
Qed.

(** With the right paddle held at the top, a ball at mid-height flying
    straight to the right only moves. *)
Lemma flight_before_scoring (k ls : Z) (rp : Z) :
  rp = 250 \/ rp = 0 ->
  before_scoring Scenario.open_goal
    (mkState (Paddle.init 30 250) (Paddle.init 755 rp)
             (Ball.mk (Rect.mk (393 + 7 * k) 293 15 15) 7 0) ls 0)
    = (Scenario.flight (k + 1) ls, []).
Proof.
  intros Hrp. unfold before_scoring. cbv zeta.
  assert (move_paddles (mouse_y Scenario.open_goal)
            (mkState (Paddle.init 30 250) (Paddle.init 755 rp)
               (Ball.mk (Rect.mk (393 + 7 * k) 293 15 15) 7 0) ls 0)
          = Scenario.flight k ls) as ->.
  { destruct Hrp as [-> | ->]; reflexivity. }
  assert (set_ball (Ball.move (ball (Scenario.flight k ls))) (Scenario.flight k ls)
          = Scenario.flight (k + 1) ls) as ->.
  { unfold Scenario.flight, set_ball. cbn [ball left_paddle right_paddle left_score right_score].
    rewrite (move_whole_pixels (Rect.mk (393 + 7 * k) 293 15 15) 7 0).
    cbn [Rect.x Rect.y Rect.w Rect.h].
    replace (393 + 7 * (k + 1)) with (393 + 7 * k + 7) by lia. reflexivity. }
  assert (wall_collision (Scenario.flight (k + 1) ls) = Scenario.flight (k + 1) ls) as ->
    by reflexivity.
  assert (left_collision (Scenario.flight (k + 1) ls) = (Scenario.flight (k + 1) ls, []))
    as ->.
  { unfold left_collision, Scenario.flight. cbn [ball Ball.vx].
    rewrite (Rltb_false 7 0) by lra. now rewrite andb_false_r. }
  assert (right_collision (Scenario.flight (k + 1) ls) = (Scenario.flight (k + 1) ls, []))
    as ->.
  { unfold right_collision, Scenario.flight. cbn [ball Ball.rect right_paddle].
    rewrite colliderect_apart_vertically by (cbn; unfold PADDLE_HEIGHT; lia).
    reflexivity. }
  reflexivity.
Qed.

Lemma flight_update (k ls : Z) :
  0 <= k < 55 ->
  update Scenario.open_goal (Scenario.flight k ls) = (Scenario.flight (k + 1) ls, []).
Proof.
  intros Hk. unfold update. unfold Scenario.flight at 1.
  rewrite (flight_before_scoring k ls 0) by (right; reflexivity).
  destruct (scoring_cases Scenario.open_goal (Scenario.flight (k + 1) ls) eq_refl)
    as [[H _] | [[H _] | (_ & _ & ->)]].
  - cbv [Scenario.flight Rect.left Rect.right ball Ball.rect Rect.x Rect.w] in H. lia.
  - cbv [Scenario.flight Rect.left Rect.right ball Ball.rect Rect.x Rect.w WIDTH] in H. lia.
  - reflexivity.
Qed.

Lemma flight_step (k ls : Z) :
  0 <= k < 55 -> ls < 5 ->
  tick Scenario.open_goal (Scenario.flight k ls)
    = (Running (Scenario.flight (k + 1) ls), []).
Proof.
  intros Hk Hls. unfold tick.
  replace (existsb is_quit (events Scenario.open_goal)) with false by reflexivity.
  rewrite (flight_update k ls Hk).
  unfold game_over, Scenario.flight. cbn [left_score right_score]. rewrite !Z.geb_leb.
  assert ((5 <=? ls) = false) as -> by (apply Z.leb_gt; lia).
  reflexivity.
Qed.

(** The frame in which the ball reaches the right edge: the left player
    has one point more. *)
Lemma flight_score (ls : Z) :
  update Scenario.open_goal (Scenario.flight 55 ls)
    = (Scenario.flight 0 (ls + 1), [Score]).
Proof.
  unfold update. unfold Scenario.flight at 1.
  rewrite (flight_before_scoring 55 ls 0) by (right; reflexivity).
  destruct (scoring_cases Scenario.open_goal (Scenario.flight (55 + 1) ls) eq_refl)
    as [[H _] | [[_ ->] | (_ & H & _)]].
  - cbv [Scenario.flight Rect.left Rect.right ball Ball.rect Rect.x Rect.w] in H. lia.
  - cbn [app]. f_equal.
    cbn [Scenario.open_goal draw_right].
    rewrite serve_straight_right. reflexivity.
  - cbv [Scenario.flight Rect.left Rect.right ball Ball.rect Rect.x Rect.w WIDTH] in H. lia.
Qed.

Lemma first_frame :
  tick Scenario.open_goal (init Scenario.straight_right)
    = (Running (Scenario.flight 1 0), []).
Proof.
  unfold tick.
  replace (existsb is_quit (events Scenario.open_goal)) with false by reflexivity.
  assert (init Scenario.straight_right
          = mkState (Paddle.init 30 250) (Paddle.init 755 250)
              (Ball.mk (Rect.mk (393 + 7 * 0) 293 15 15) 7 0) 0 0) as ->.
  { unfold init, Ball.init. rewrite serve_straight_right. reflexivity. }
  unfold update.
  rewrite (flight_before_scoring 0 0 250) by (left; reflexivity).
  destruct (scoring_cases Scenario.open_goal (Scenario.flight (0 + 1) 0) eq_refl)
    as [[H _] | [[H _] | (_ & _ & ->)]].
  - cbv in H. now contradiction H.
  - cbv in H. now contradiction H.
  - reflexivity.
Qed.

Lemma flight_reachable_from (k ls : Z) (n : nat) :
  reachable (Scenario.flight k ls) -> 0 <= k -> k + Z.of_nat n <= 55 -> ls < 5 ->
  reachable (Scenario.flight (k + Z.of_nat n) ls).
Proof.
  intros Hr Hk. induction n as [| n IH]; intros Hn Hls.
  - now rewrite Z.add_0_r.
  - replace (k + Z.of_nat (S n)) with (k + Z.of_nat n + 1) by lia.
    apply reach_tick with (s := Scenario.flight (k + Z.of_nat n) ls)
                          (f := Scenario.open_goal) (snd := []).
    + apply IH; lia.
    + apply flight_step; lia.
Qed.

(** Match point for the left player is reached: 4 to 0, the ball one
    frame from the right edge. *)
Lemma match_point_reachable : reachable (Scenario.flight 55 4).
Proof.
  assert (reachable (Scenario.flight 55 0)) as H0.
  { apply (flight_reachable_from 1 0 54); try lia.
    apply reach_tick with (s := init Scenario.straight_right)
                          (f := Scenario.open_goal) (snd := []).
    - apply reach_init.
    - apply first_frame. }
  assert (forall ls, 0 <= ls < 4 -> reachable (Scenario.flight 55 ls) ->
                     reachable (Scenario.flight 55 (ls + 1))) as Hnext.
  { intros ls Hls Hr.
    apply (flight_reachable_from 0 (ls + 1) 55); try lia.
    apply reach_tick with (s := Scenario.flight 55 ls)
                          (f := Scenario.open_goal) (snd := [Score]); [exact Hr |].
    unfold tick.
    replace (existsb is_quit (events Scenario.open_goal)) with false by reflexivity.
    rewrite flight_score. unfold game_over, Scenario.flight.
    cbn [left_score right_score]. rewrite !Z.geb_leb.
    assert ((5 <=? ls + 1) = false) as -> by (apply Z.leb_gt; lia).
    reflexivity. }
  apply (Hnext 3), (Hnext 2), (Hnext 1), (Hnext 0); try lia. exact H0.
Qed.

(** C6: in every state the loop of a match can be in, both scores are
    below 5.  In a frame, once the ball has moved and the paddles have
    answered, the ball cannot be at both edges; if its left side is at or
    beyond the left edge the right score grows by exactly 1 and the left
    score stays, if its right side is at or beyond the right edge the left
    score grows by exactly 1 and the right score stays, in both cases with
    one score sound; otherwise no score changes and no score sound is
    played.  The frame ends the match (the game over prompt is entered)
    exactly when one of the scores is 5 after it, and the loop goes on
    otherwise, again with both scores below 5.  A QUIT event leaves the
    match before any of this. *)
Theorem one_point_per_event_and_end_at_five (s : State) (f : Frame) :
  reachable s ->
  let r := Ball.rect (ball (fst (before_scoring f s))) in
  let s' := fst (update f s) in
  let played := snd (update f s) in
  (0 <= left_score s < 5 /\ 0 <= right_score s < 5) /\
  ~ (Rect.left r <= 0 /\ WIDTH <= Rect.right r) /\
  (Rect.left r <= 0 ->
   right_score s' = right_score s + 1 /\ left_score s' = left_score s /\
   score_sounds played = 1) /\
  (WIDTH <= Rect.right r ->
   left_score s' = left_score s + 1 /\ right_score s' = right_score s /\
   score_sounds played = 1) /\
  (0 < Rect.left r -> Rect.right r < WIDTH ->
   left_score s' = left_score s /\ right_score s' = right_score s /\
   score_sounds played = 0) /\
  tick f s =
    (if existsb is_quit (events f) then (Closed, [])
     else if (left_score s' =? 5) || (right_score s' =? 5)
          then (Over s', played)
          else (Running s', played)) /\
  (forall s'' snd, tick f s = (Running s'', snd) ->
     left_score s'' < 5 /\ right_score s'' < 5).
Proof.
  intros Hreach. cbv zeta.
  destruct (reachable_invariant s Hreach) as (Hw & Hl & Hr).
  destruct (before_scoring_keeps f s) as [(Kl & Kr & Kw) S0].
  assert (Rect.w (Ball.rect (ball (fst (before_scoring f s)))) = BALL_SIZE) as Hw5
    by congruence.
  assert (Rect.right (Ball.rect (ball (fst (before_scoring f s))))
          = Rect.left (Ball.rect (ball (fst (before_scoring f s)))) + 15) as Hlr.
  { unfold Rect.right, Rect.left. rewrite Hw5. reflexivity. }
  assert (left_score (fst (update f s)) <= 5 /\ right_score (fst (update f s)) <= 5)
    as Hmax.
  { destruct (update_scores f s Hw) as (_ & Hcases). lia. }
  split; [lia |]. split; [unfold WIDTH; lia |].
  assert (tick f s =
    (if existsb is_quit (events f) then (Closed, [])
     else if (left_score (fst (update f s)) =? 5) || (right_score (fst (update f s)) =? 5)
          then (Over (fst (update f s)), snd (update f s))
          else (Running (fst (update f s)), snd (update f s)))) as Htick.
  { rewrite tick_unfold.
    destruct (existsb is_quit (events f)); [reflexivity |].
    unfold game_over. rewrite !Z.geb_leb.
    assert ((5 <=? left_score (fst (update f s))) = (left_score (fst (update f s)) =? 5))
      as ->.
    { destruct (Z.leb_spec 5 (left_score (fst (update f s))));
        destruct (Z.eqb_spec (left_score (fst (update f s))) 5); try reflexivity; lia. }
    assert ((5 <=? right_score (fst (update f s))) = (right_score (fst (update f s)) =? 5))
      as ->.
    { destruct (Z.leb_spec 5 (right_score (fst (update f s))));
        destruct (Z.eqb_spec (right_score (fst (update f s))) 5); try reflexivity; lia. }
    reflexivity. }
  rewrite update_unfold in *. cbn [fst snd] in *.
  rewrite score_sounds_app, S0.
  destruct (scoring_cases f (fst (before_scoring f s)) Hw5)
    as [[Hle Hsc] | [[Hge Hsc] | (Hlt & Hgt & Hsc)]];
    rewrite Hsc in *; cbn [fst snd left_score right_score] in *;
    unfold WIDTH in *;
    (split; [intros; try lia; rewrite Kl, Kr; repeat split |]);
    (split; [intros; try lia; rewrite Kl, Kr; repeat split |]);
    (split; [intros; try lia; rewrite Kl, Kr; repeat split |]);
    (split; [exact Htick |]);
    intros s'' snd Hrun; rewrite Htick in Hrun;
    destruct (existsb is_quit (events f)); try discriminate;
    destruct (_ || _) eqn:Hover; try discriminate;
    apply orb_false_iff in Hover; destruct Hover as [H1 H2];
    apply Z.eqb_neq in H1, H2; injection Hrun as <- _;
    cbn [left_score right_score] in *; lia.
Qed.

(** The fifth point of a match in which every ball passes the right
    player: at 4 to 0, a state the match reaches, the ball comes to the
    right edge; the left score becomes 5 with one score sound and the frame
    ends the match. *)
Lemma one_point_per_event_and_end_at_five_witness :
  let s := Scenario.flight 55 4 in
  let f := Scenario.open_goal in
  reachable s /\
  WIDTH <= Rect.right (Ball.rect (ball (fst (before_scoring f s)))) /\
  left_score (fst (update f s)) = 5 /\ right_score (fst (update f s)) = 0 /\
  score_sounds (snd (update f s)) = 1 /\
  tick f s = (Over (fst (update f s)), snd (update f s)).
Proof.
  cbv zeta.
  assert (WIDTH <= Rect.right (Ball.rect (ball (fst (before_scoring Scenario.open_goal
                                                    (Scenario.flight 55 4)))))) as Hedge.
  { unfold Scenario.flight at 1.
    rewrite (flight_before_scoring 55 4 0) by (right; reflexivity).
    cbn. unfold WIDTH. lia. }
  destruct (one_point_per_event_and_end_at_five
              (Scenario.flight 55 4) Scenario.open_goal match_point_reachable)
    as (_ & _ & _ & Hright & _ & Htick & _).
  destruct (Hright Hedge) as (Hl & Hr & Hs).
  split; [exact match_point_reachable |]. split; [exact Hedge |].
  split; [exact Hl |]. split; [exact Hr |]. split; [exact Hs |].
  rewrite Htick, Hl. reflexivity.
Defined.

(** The frames before that point are played on: 54 frames after the
    serve the ball moves on, no score changes and no sound is played. *)
Example flight_goes_on :
  tick Scenario.open_goal (Scenario.flight 54 4) = (Running (Scenario.flight 55 4), []).
Proof. apply (flight_step 54 4); lia. Qed.

End MatchEnd.

(** ** Tone generation *)

Section Tone.

Open Scope R_scope.
Import SoundEngine.

Lemma range_length (n : Z) : length (range n) = Z.to_nat n.
Proof. unfold range. now rewrite length_map, length_seq. Qed.

Lemma range_nth (n : Z) (i : nat) :
  (i < Z.to_nat n)%nat -> nth i (range n) 0%Z = Z.of_nat i.
Proof.
  intros Hi. unfold range.
  change 0%Z with (Z.of_nat 0). rewrite map_nth, seq_nth by assumption.
  reflexivity.
Qed.

Lemma samples_length (frequency duration volume : R) :
  length (samples frequency duration volume) = Z.to_nat (n_samples duration).
Proof. unfold samples. now rewrite length_map, range_length. Qed.

Lemma samples_nth (frequency duration volume : R) (i : nat) :
  (i < Z.to_nat (n_samples duration))%nat ->
  nth i (samples frequency duration volume) 0%Z
    = int_val frequency volume (Z.of_nat i).
Proof.
  intros Hi. unfold samples.
  rewrite nth_indep with (d' := int_val frequency volume 0%Z)
    by now rewrite length_map, range_length.
  rewrite map_nth, range_nth by assumption. reflexivity.
Qed.

(** A sample is no larger in magnitude than the amplitude
    [volume * 32767]. *)
Lemma int_val_amplitude (frequency volume : R) (i : Z) :
  0 <= volume ->
  - (volume * 32767) <= IZR (int_val frequency volume i) <= volume * 32767.
Proof.
  intros Hv. unfold int_val. cbv zeta.
  set (x := sin _). pose proof (SIN_bound (2 * PI * frequency * (IZR i / IZR sample_rate))) as Hs.
  fold x in Hs.
  pose proof (py_int_abs (volume * 32767 * x)) as Ha.
  assert (Rabs (volume * 32767 * x) <= volume * 32767) as Hb.
  { apply Rabs_le. split; nra. }
  assert (Rabs (IZR (py_int (volume * 32767 * x))) <= volume * 32767) as Hc by lra.
  unfold Rabs in Hc. destruct (Rcase_abs _); lra.
Qed.

Lemma int_val_fits (frequency volume : R) (i : Z) :
  -1 <= volume <= 1 -> fits_int16 (int_val frequency volume i) = true.
Proof.
  intros Hv. unfold int_val. cbv zeta.
  set (x := sin _). pose proof (SIN_bound (2 * PI * frequency * (IZR i / IZR sample_rate))) as Hs.
  fold x in Hs.
  assert (Rabs (volume * 32767 * x) <= IZR 32767) as Hb.
  { apply Rabs_le. split; nra. }
  apply py_int_bounded in Hb.
  unfold fits_int16. apply andb_true_iff. split; apply Z.leb_le; lia.
Qed.

Lemma generate_tone_buffer (frequency duration volume : R) :
  -1 <= volume <= 1 ->
  _generate_tone frequency duration volume = Some (samples frequency duration volume).
Proof.
  intros Hv. unfold _generate_tone. cbv zeta.
  assert (forallb fits_int16 (samples frequency duration volume) = true) as ->;
    [| reflexivity].
  apply forallb_forall. intros v Hin. unfold samples in Hin.
  apply in_map_iff in Hin. destruct Hin as (i & <- & _).
  now apply int_val_fits.
Qed.

Lemma n_samples_hit_paddle : n_samples (1 / 10) = 2205%Z.
Proof.
  unfold n_samples, sample_rate.
  replace (22050 * (1 / 10)) with (IZR 2205) by lra.
  apply py_int_IZR.
Qed.

Lemma n_samples_short : n_samples (1 / 8192) = 2%Z.
Proof.
  unfold n_samples, sample_rate. apply py_int_floor_eq; lra.
Qed.

(** C3 fails as stated: for a duration of 1/8192 s the product
    [sample_rate * duration] is about 2.69; the buffer has 2 samples, and
    2 is not that number rounded. *)
Lemma sample_count_counterexample :
  exists buf,
    _generate_tone 440 (1 / 8192) (2 / 10) = Some buf /\
    length buf = 2%nat /\
    ~ nearest_integer (IZR sample_rate * (1 / 8192)) (Z.of_nat (length buf)).
Proof.
  exists (samples 440 (1 / 8192) (2 / 10)).
  split; [apply generate_tone_buffer; lra |].
  assert (length (samples 440 (1 / 8192) (2 / 10)) = 2%nat) as Hlen
    by (rewrite samples_length, n_samples_short; reflexivity).
  split; [exact Hlen |].
  rewrite Hlen. unfold nearest_integer, sample_rate. cbn [Z.of_nat Pos.of_succ_nat Pos.succ].
  intros H. unfold Rabs in H. destruct (Rcase_abs _); lra.
Qed.

(** The samples are truncated as well: at the crest of a 5512.5 Hz tone of
    volume 0.1 the amplitude is 3276.7 and the sample is 3276. *)
Example sample_truncated_at_crest :
  int_val (11025 / 2) (1 / 10) 1 = 3276%Z /\
  ~ nearest_integer (1 / 10 * 32767 * sin (2 * PI * (11025 / 2) * (1 / 22050))) 3276.
Proof.
  assert (sin (2 * PI * (11025 / 2) * (1 / 22050)) = 1) as Hs.
  { replace (2 * PI * (11025 / 2) * (1 / 22050)) with (PI / 2) by lra.
    apply sin_PI2. }
  split.
  - unfold int_val, sample_rate. cbv zeta. rewrite Hs.
    apply py_int_floor_eq; lra.
  - rewrite Hs. unfold nearest_integer. intros H.
    unfold Rabs in H. destruct (Rcase_abs _); lra.
Qed.

(** Beyond volume 1 the buffer may not exist: at the crest of a
    5512.5 Hz tone of volume 2 the sample would be 65534, which the
    16-bit array refuses. *)
Example loud_tone_overflows : _generate_tone (11025 / 2) (1 / 8192) 2 = None.
Proof.
  unfold _generate_tone, samples. cbv zeta. rewrite n_samples_short.
  change (range 2) with [0%Z; 1%Z]. cbn [map forallb].
  assert (int_val (11025 / 2) 2 1 = 65534%Z) as ->.
  { unfold int_val, sample_rate. cbv zeta.
    replace (2 * PI * (11025 / 2) * (1 / 22050)) with (PI / 2) by lra.
    rewrite sin_PI2. apply py_int_floor_eq; lra. }
  replace (fits_int16 65534) with false by reflexivity.
  now rewrite andb_false_r.
Qed.

End Tone.

(** ** Screen flow *)

Section ScreenFlow.

Import Screen.

Variables start_text quit_text : TextSize.

Lemma main_menu_input (evs : list Event) :
  match main_menu start_text quit_text evs with
  | Some StartGame =>
      first_some (menu_input start_text quit_text) evs = Some StartClick
  | Some ExitProgram =>
      first_some (menu_input start_text quit_text) evs = Some QuitClick \/
      first_some (menu_input start_text quit_text) evs = Some WindowClose
  | None => first_some (menu_input start_text quit_text) evs = None
  end.
Proof.
  unfold main_menu. induction evs as [| e evs IH]; [reflexivity |].
  cbn [first_some].
  destruct e as [| px py | k |]; cbn [main_menu_event menu_input]; try exact IH.
  - right. reflexivity.
  - destruct (Rect.collidepoint px py (start_rect start_text)); [reflexivity |].
    destruct (Rect.collidepoint px py (quit_rect quit_text)); [left; reflexivity |].
    exact IH.
Qed.

Lemma game_over_prompt_input (evs : list Event) :
  match game_over_prompt evs with
  | Some true => first_some prompt_input evs = Some Affirmative
  | Some false =>
      first_some prompt_input evs = Some Negative \/
      first_some prompt_input evs = Some WindowClose
  | None => first_some prompt_input evs = None
  end.
Proof.
  unfold game_over_prompt. induction evs as [| e evs IH]; [reflexivity |].
  cbn [first_some].
  destruct e as [| px py | k |]; cbn [game_over_prompt_event prompt_input];
    try exact IH.
  - right. reflexivity.
  - destruct k; [reflexivity | left; reflexivity | exact IH].
Qed.

Lemma step_refines_spec (f : Game.Frame) (scr : Screen.t) :
  kind (step start_text quit_text f scr)
    = spec_next (kind scr) (input_of start_text quit_text f scr).
Proof.
  destruct scr as [| s | |]; cbn [step kind input_of].
  - pose proof (main_menu_input (Game.events f)) as H.
    destruct (main_menu start_text quit_text (Game.events f)) as [[|] |].
    + rewrite H. reflexivity.
    + destruct H as [-> | ->]; reflexivity.
    + rewrite H. reflexivity.
  - rewrite tick_unfold.
    destruct (existsb is_quit (Game.events f)); [reflexivity |].
    destruct (Game.game_over (fst (Game.update f s))); reflexivity.
  - pose proof (game_over_prompt_input (Game.events f)) as H.
    destruct (game_over_prompt (Game.events f)) as [[|] |].
    + rewrite H. reflexivity.
    + destruct H as [-> | ->]; reflexivity.
    + rewrite H. reflexivity.
  - reflexivity.
Qed.

(** *** The nested loops and the step function agree *)

Lemma run_app (a b : list Game.Frame) (scr : Screen.t) :
  run start_text quit_text (a ++ b) scr
    = run start_text quit_text b (run start_text quit_text a scr).
Proof.
  revert scr. induction a as [| f a IH]; intros scr; [reflexivity |].
  cbn [app run]. apply IH.
Qed.

Lemma run_terminated (frames : list Game.Frame) :
  run start_text quit_text frames Terminated = Terminated.
Proof. induction frames as [| f frames IH]; [reflexivity | exact IH]. Qed.

Lemma main_menu_loop_run (frames : list Game.Frame) :
  match main_menu_loop start_text quit_text frames with
  | Some (a, f, rest) =>
      exists pre, frames = pre ++ f :: rest /\
                  run start_text quit_text pre Menu = Menu /\
                  main_menu start_text quit_text (Game.events f) = Some a
  | None => run start_text quit_text frames Menu = Menu
  end.
Proof.
  induction frames as [| f frames IH]; [reflexivity |].
  cbn [main_menu_loop run step].
  destruct (main_menu start_text quit_text (Game.events f)) as [a |] eqn:Ha.
  - exists []. repeat split. exact Ha.
  - destruct (main_menu_loop start_text quit_text frames) as [[[a g] rest] |].
    + destruct IH as (pre & -> & Hrun & Hg).
      exists (f :: pre). cbn [app run step]. rewrite Ha. repeat split; assumption.
    + exact IH.
Qed.

Lemma game_over_prompt_loop_run (frames : list Game.Frame) :
  match game_over_prompt_loop frames with
  | Some (answer, rest) =>
      exists used, frames = used ++ rest /\
                   run start_text quit_text used GameOverPrompt
                     = if answer then Menu else Terminated
  | None => run start_text quit_text frames GameOverPrompt = GameOverPrompt
  end.
Proof.
  induction frames as [| f frames IH]; [reflexivity |].
  cbn [game_over_prompt_loop run step].
  destruct (game_over_prompt (Game.events f)) as [answer |] eqn:Ha.
  - exists [f]. split; [reflexivity |]. cbn [run step]. rewrite Ha.
    destruct answer; reflexivity.
  - destruct (game_over_prompt_loop frames) as [[answer rest] |].
    + destruct IH as (used & -> & Hrun).
      exists (f :: used). cbn [app run step]. rewrite Ha. split; [reflexivity | exact Hrun].
    + exact IH.
Qed.

Lemma game_loop_run (frames : list Game.Frame) (s : Game.State) :
  match game_loop s frames with
  | Some (restart, rest) =>
      exists used, frames = used ++ rest /\
                   run start_text quit_text used (Match s)
                     = if restart then Menu else Terminated
  | None =>
      kind (run start_text quit_text frames (Match s)) = KMatch \/
      kind (run start_text quit_text frames (Match s)) = KGameOverPrompt
  end.
Proof.
  revert s. induction frames as [| f frames IH]; intros s; [left; reflexivity |].
  cbn [game_loop run step].
  destruct (fst (Game.tick f s)) as [| s' | s'] eqn:Ht.
  - exists [f]. split; [reflexivity |]. cbn [run step]. now rewrite Ht.
  - pose proof (game_over_prompt_loop_run frames) as Hp.
    destruct (game_over_prompt_loop frames) as [[answer rest] |].
    + destruct Hp as (used & -> & Hrun).
      exists (f :: used). split; [reflexivity |]. cbn [run step]. now rewrite Ht.
    + rewrite Hp. right. reflexivity.
  - specialize (IH s').
    destruct (game_loop s' frames) as [[restart rest] |].
    + destruct IH as (used & -> & Hrun).
      exists (f :: used). split; [reflexivity |]. cbn [run step]. now rewrite Ht.
    + exact IH.
Qed.

(** X19: when [main], as the nested loops of the source, exits, the frames
    it has consumed lead the step function from the menu to [Terminated]:
    the program never ends in another way than the state machine's. *)
Lemma main_exit_is_terminated (fuel : nat) (frames rest : list Game.Frame) :
  main fuel start_text quit_text frames = Some rest ->
  exists used, frames = used ++ rest /\
               run start_text quit_text used Menu = Terminated.
Proof.
  revert frames. induction fuel as [| fuel IH]; intros frames Hmain; [discriminate |].
  cbn [main] in Hmain.
  pose proof (main_menu_loop_run frames) as Hm.
  destruct (main_menu_loop start_text quit_text frames) as [[[a f] r] |];
    [| discriminate].
  destruct Hm as (pre & -> & Hpre & Ha).
  assert (step start_text quit_text f Menu
          = match a with StartGame => Match (Game.init (Game.draw_left f))
                       | ExitProgram => Terminated end) as Hstep.
  { cbn [step]. rewrite Ha. destruct a; reflexivity. }
  destruct a.
  - unfold game in Hmain.
    pose proof (game_loop_run r (Game.init (Game.draw_left f))) as Hg.
    destruct (game_loop (Game.init (Game.draw_left f)) r) as [[restart r'] |];
      [| discriminate].
    destruct Hg as (used & -> & Hused).
    destruct restart.
    + destruct (IH _ Hmain) as (used' & -> & Hused').
      exists (pre ++ f :: used ++ used'). split.
      * rewrite <- !app_assoc. cbn [app]. rewrite <- app_assoc. reflexivity.
      * rewrite run_app, Hpre. cbn [run]. rewrite Hstep, run_app, Hused. exact Hused'.
    + injection Hmain as <-.
      exists (pre ++ f :: used). split.
      * rewrite <- app_assoc. reflexivity.
      * rewrite run_app, Hpre. cbn [run]. rewrite Hstep. exact Hused.
  - injection Hmain as <-.
    exists (pre ++ [f]). split.
    + rewrite <- app_assoc. reflexivity.
    + rewrite run_app, Hpre. cbn [run]. rewrite Hstep. reflexivity.
Qed.

(** X20: when the step function reaches [Terminated] on some frames,
    [main], given more fuel than there are frames, exits on them: the
    nested loops of the source do not run on past a window-close event, a
    click on QUIT or the answer [n]. *)
Lemma terminated_is_main_exit (fuel : nat) (frames : list Game.Frame) :
  (length frames < fuel)%nat ->
  run start_text quit_text frames Menu = Terminated ->
  exists rest, main fuel start_text quit_text frames = Some rest.
Proof.
  revert frames. induction fuel as [| fuel IH]; intros frames Hlen Hrun; [lia |].
  cbn [main].
  pose proof (main_menu_loop_run frames) as Hm.
  destruct (main_menu_loop start_text quit_text frames) as [[[a f] r] |].
  - destruct Hm as (pre & -> & Hpre & Ha).
    rewrite run_app, Hpre in Hrun. cbn [run step] in Hrun. rewrite Ha in Hrun.
    destruct a; [| eexists; reflexivity].
    unfold game.
    pose proof (game_loop_run r (Game.init (Game.draw_left f))) as Hg.
    destruct (game_loop (Game.init (Game.draw_left f)) r) as [[restart r'] |].
    + destruct Hg as (used & -> & Hused).
      destruct restart; [| eexists; reflexivity].
      rewrite run_app, Hused in Hrun.
      apply IH; [| exact Hrun].
      rewrite !length_app in Hlen. cbn [length] in Hlen. rewrite length_app in Hlen. lia.
    + rewrite Hrun in Hg. destruct Hg; discriminate.
  - rewrite Hm in Hrun. discriminate.
Qed.

(** C9: the screens change as the state machine says.  From the game over
    prompt, [y] leads back to the menu, [n] and a window-close event end
    the program; from the menu, a click on START starts a match, a click
    on QUIT and a window-close event end the program; every frame follows
    the transition table of the specification, so that a screen changes
    only along Menu→Match, Menu→Terminated, Match→GameOverPrompt,
    Match→Terminated, GameOverPrompt→Menu and GameOverPrompt→Terminated,
    and nothing follows Terminated. *)
Theorem screen_flow_is_the_state_machine :
  (forall my d1 d2,
      step start_text quit_text (Game.mkFrame [KEYDOWN K_y] my d1 d2) GameOverPrompt
        = Menu /\
      step start_text quit_text (Game.mkFrame [KEYDOWN K_n] my d1 d2) GameOverPrompt
        = Terminated /\
      step start_text quit_text (Game.mkFrame [QUIT] my d1 d2) GameOverPrompt
        = Terminated /\
      step start_text quit_text (Game.mkFrame [QUIT] my d1 d2) Menu = Terminated) /\
  (forall px py my d1 d2,
      step start_text quit_text (Game.mkFrame [MOUSEBUTTONDOWN px py] my d1 d2) Menu
        = if Rect.collidepoint px py (start_rect start_text) then Match (Game.init d1)
          else if Rect.collidepoint px py (quit_rect quit_text) then Terminated
          else Menu) /\
  (forall f scr,
      kind (step start_text quit_text f scr)
        = spec_next (kind scr) (input_of start_text quit_text f scr)) /\
  (forall f scr,
      let k := kind scr in
      let k' := kind (step start_text quit_text f scr) in
      k' = k \/
      (k = KMenu /\ k' = KMatch) \/ (k = KMenu /\ k' = KTerminated) \/
      (k = KMatch /\ k' = KGameOverPrompt) \/ (k = KMatch /\ k' = KTerminated) \/
      (k = KGameOverPrompt /\ k' = KMenu) \/
      (k = KGameOverPrompt /\ k' = KTerminated)).
Proof.
  split; [| split; [| split]].
  - intros my d1 d2. repeat split.
  - intros px py my d1 d2. cbn.
    destruct (Rect.collidepoint px py (start_rect start_text)); [reflexivity |].
    destruct (Rect.collidepoint px py (quit_rect quit_text)); reflexivity.
  - apply step_refines_spec.
  - intros f scr. cbv zeta. rewrite step_refines_spec.
    destruct scr; destruct (input_of start_text quit_text f _); cbn; tauto.
Qed.

End ScreenFlow.

(** * Further properties *)

(** ** Paddle movement *)

Section PaddleMoves.

(** X1: a paddle narrower than the playfield and horizontally inside it
    only moves vertically: [move_ai] and [move_mouse] keep its column, its
    size and its speed. *)
Theorem paddle_moves_only_vertically (p : Paddle.t) (v : Z) :
  Rect.w (Paddle.rect p) < WIDTH ->
  0 <= Rect.x (Paddle.rect p) <= WIDTH - Rect.w (Paddle.rect p) ->
  let keeps_column p' :=
    Rect.x (Paddle.rect p') = Rect.x (Paddle.rect p) /\
    Rect.w (Paddle.rect p') = Rect.w (Paddle.rect p) /\
    Rect.h (Paddle.rect p') = Rect.h (Paddle.rect p) /\
    Paddle.speed p' = Paddle.speed p in
  keeps_column (Paddle.move_ai v p) /\ keeps_column (Paddle.move_mouse v p).
Proof.
  intros Hw Hx. cbv zeta.
  assert (Rect.clamp_axis (Rect.x (Paddle.rect p)) (Rect.w (Paddle.rect p)) 0 WIDTH
          = Rect.x (Paddle.rect p)) as Hc.
  { unfold Rect.clamp_axis. z_tests; lia. }
  split.
  - unfold Paddle.move_ai. cbv zeta.
    destruct (_ <? _); [| destruct (_ >? _)];
      cbn [Paddle.rect Paddle.speed Rect.clamp_ip Rect.set_y Rect.x Rect.w Rect.h playfield];
      rewrite Hc; repeat split.
  - unfold Paddle.move_mouse. cbv zeta.
    cbn [Paddle.rect Paddle.speed Rect.clamp_ip Rect.set_y Rect.x Rect.w Rect.h playfield].
    rewrite Hc. repeat split.
Qed.

Lemma paddle_moves_only_vertically_witness :
  let p := Paddle.init 30 250 in
  let keeps_column p' :=
    Rect.x (Paddle.rect p') = Rect.x (Paddle.rect p) /\
    Rect.w (Paddle.rect p') = Rect.w (Paddle.rect p) /\
    Rect.h (Paddle.rect p') = Rect.h (Paddle.rect p) /\
    Paddle.speed p' = Paddle.speed p in
  keeps_column (Paddle.move_ai 100 p) /\ keeps_column (Paddle.move_mouse 100 p).
Proof.
  apply (paddle_moves_only_vertically (Paddle.init 30 250) 100).
  - reflexivity.
  - cbn. unfold WIDTH. lia.
Defined.

(** X2: the AI paddle (height [PADDLE_HEIGHT], inside the playfield, speed
    not negative and at most the width of the band) steps by its speed
    toward a ball that is more than 10 pixels away from its centre, held
    back only by the top and bottom of the playfield, and stays where it is
    otherwise; it never steps past the ball and never gets farther from
    it. *)
Theorem move_ai_tracks_ball (p : Paddle.t) (ball_y : Z) :
  Rect.h (Paddle.rect p) = PADDLE_HEIGHT ->
  0 <= Rect.y (Paddle.rect p) <= HEIGHT - PADDLE_HEIGHT ->
  0 <= Paddle.speed p <= 10 ->
  let c := Rect.centery (Paddle.rect p) in
  let y := Rect.y (Paddle.rect p) in
  let y' := Rect.y (Paddle.rect (Paddle.move_ai ball_y p)) in
  let c' := Rect.centery (Paddle.rect (Paddle.move_ai ball_y p)) in
  (c < ball_y - 10 ->
   y' = Z.min (y + Paddle.speed p) (HEIGHT - PADDLE_HEIGHT) /\ c' < ball_y) /\
  (ball_y + 10 < c -> y' = Z.max (y - Paddle.speed p) 0 /\ ball_y < c') /\
  (ball_y - 10 <= c <= ball_y + 10 -> y' = y) /\
  Z.abs (c' - ball_y) <= Z.abs (c - ball_y).
Proof.
  intros Hh Hy Hs. cbv zeta.
  unfold Paddle.move_ai, Rect.centery, Rect.clamp_ip, Rect.clamp_axis, Rect.set_y,
    playfield, HEIGHT, PADDLE_HEIGHT in *.
  cbv zeta. rewrite Hh. change (Z.quot 100 2) with 50.
  z_tests; cbn [Paddle.rect Rect.x Rect.y Rect.w Rect.h] in *;
    rewrite ?Hh; change (Z.quot 100 2) with 50 in *;
    repeat split; intros; lia.
Qed.

Lemma move_ai_tracks_ball_witness :
  let p := Paddle.init 30 250 in
  let y' := Rect.y (Paddle.rect (Paddle.move_ai 400 p)) in
  let c' := Rect.centery (Paddle.rect (Paddle.move_ai 400 p)) in
  y' = Z.min (250 + 7) (HEIGHT - PADDLE_HEIGHT) /\ c' < 400.
Proof.
  destruct (move_ai_tracks_ball (Paddle.init 30 250) 400) as (Hdown & _).
  - reflexivity.
  - cbn. unfold HEIGHT, PADDLE_HEIGHT. lia.
  - cbn. lia.
  - apply Hdown. cbn. lia.
Defined.

(** X3: [move_mouse] puts the top of a paddle of height [PADDLE_HEIGHT] at
    [mouse_y - 50] cut to [0, 500], whatever its position before; so the
    paddle is centred on the pointer whenever the pointer is between 50 and
    550. *)
Theorem move_mouse_centres_on_pointer (p : Paddle.t) (mouse_y : Z) :
  Rect.h (Paddle.rect p) = PADDLE_HEIGHT ->
  Rect.y (Paddle.rect (Paddle.move_mouse mouse_y p))
    = Z.max 0 (Z.min (mouse_y - 50) (HEIGHT - PADDLE_HEIGHT)) /\
  (50 <= mouse_y <= 550 ->
   Rect.centery (Paddle.rect (Paddle.move_mouse mouse_y p)) = mouse_y).
Proof.
  intros Hh. unfold Paddle.move_mouse, Rect.centery. cbv zeta.
  cbn [Paddle.rect Rect.clamp_ip Rect.set_y Rect.x Rect.y Rect.w Rect.h playfield].
  rewrite Hh. unfold Rect.clamp_axis, HEIGHT, PADDLE_HEIGHT.
  change (Z.quot 100 2) with 50. change (100 / 2) with 50.
  z_tests; split; intros; lia.
Qed.

Lemma move_mouse_centres_on_pointer_witness :
  Rect.y (Paddle.rect (Paddle.move_mouse 320 (Paddle.init 755 0)))
    = Z.max 0 (Z.min (320 - 50) (HEIGHT - PADDLE_HEIGHT)) /\
  Rect.centery (Paddle.rect (Paddle.move_mouse 320 (Paddle.init 755 0))) = 320.
Proof.
  destruct (move_mouse_centres_on_pointer (Paddle.init 755 0) 320 eq_refl) as [Hy Hc].
  split; [exact Hy | apply Hc; lia].
Defined.

End PaddleMoves.

(** ** More on paddle bounces *)

Section BounceDirection.

Open Scope R_scope.
Import Game.

Lemma hit_offset_below_centre (b p : Rect.t) :
  (Rect.centery p < Rect.centery b)%Z -> 0 < hit_offset b p <= 1.
Proof.
  intros Hd. unfold hit_offset, PADDLE_HEIGHT. cbv zeta.
  assert (0 < IZR (Rect.centery b - Rect.centery p)) as Hpos by (apply IZR_lt; lia).
  set (d := IZR (Rect.centery b - Rect.centery p)) in *.
  assert (0 < d / (100 / 2)) as Hq by lra.
  unfold Rmax, Rmin.
  destruct (Rle_dec 1 (d / (100 / 2))); destruct (Rle_dec (-1) _); lra.
Qed.

Lemma hit_offset_above_centre (b p : Rect.t) :
  (Rect.centery b < Rect.centery p)%Z -> -1 <= hit_offset b p < 0.
Proof.
  intros Hd. unfold hit_offset, PADDLE_HEIGHT. cbv zeta.
  assert (IZR (Rect.centery b - Rect.centery p) < 0) as Hneg by (apply IZR_lt; lia).
  set (d := IZR (Rect.centery b - Rect.centery p)) in *.
  assert (d / (100 / 2) < 0) as Hq by lra.
  unfold Rmax, Rmin.
  destruct (Rle_dec 1 (d / (100 / 2))); destruct (Rle_dec (-1) _); lra.
Qed.

Lemma hit_offset_at_centre (b p : Rect.t) :
  Rect.centery b = Rect.centery p -> hit_offset b p = 0.
Proof.
  intros Hd. unfold hit_offset, PADDLE_HEIGHT. cbv zeta.
  rewrite Hd, Z.sub_diag.
  replace (0 / (100 / 2)) with 0 by lra.
  rewrite Rmin_right by lra. apply Rmax_right. lra.
Qed.

Lemma hit_offset_at_lower_end (b p : Rect.t) :
  (Rect.centery p + 50 <= Rect.centery b)%Z -> hit_offset b p = 1.
Proof.
  intros Hd. unfold hit_offset, PADDLE_HEIGHT. cbv zeta.
  assert (50 <= IZR (Rect.centery b - Rect.centery p)) as H50
    by (apply (IZR_le 50); lia).
  set (d := IZR (Rect.centery b - Rect.centery p)) in *.
  assert (1 <= d / (100 / 2)) as Hq by lra.
  rewrite Rmin_left by lra. apply Rmax_right. lra.
Qed.

Lemma hit_offset_at_upper_end (b p : Rect.t) :
  (Rect.centery b <= Rect.centery p - 50)%Z -> hit_offset b p = -1.
Proof.
  intros Hd. unfold hit_offset, PADDLE_HEIGHT. cbv zeta.
  assert (IZR (Rect.centery b - Rect.centery p) <= -50) as H50
    by (apply (IZR_le _ (-50)); lia).
  set (d := IZR (Rect.centery b - Rect.centery p)) in *.
  assert (d / (100 / 2) <= -1) as Hq by lra.
  rewrite Rmin_right by lra. apply Rmax_left. lra.
Qed.

Lemma sin_deflection_sign (o : R) :
  (0 < o <= 1 -> 0 < sin (o * MAX_ANGLE)) /\
  (-1 <= o < 0 -> sin (o * MAX_ANGLE) < 0).
Proof.
  unfold MAX_ANGLE. pose proof PI_RGT_0 as Hpi. split; intros Ho.
  - apply sin_gt_0; nra.
  - apply sin_lt_0_var; nra.
Qed.

(** The velocity either response gives, in terms of the offset. *)
Lemma left_collision_velocity (s : State) :
  Rect.colliderect (Ball.rect (ball s)) (Paddle.rect (left_paddle s)) = true ->
  Ball.vx (ball s) < 0 ->
  ball (fst (left_collision s))
    = Ball.mk (Rect.set_left (Rect.right (Paddle.rect (left_paddle s)) + 1)
                             (Ball.rect (ball s)))
              (IZR BALL_SPEED
               * cos (hit_offset (Ball.rect (ball s)) (Paddle.rect (left_paddle s))
                      * MAX_ANGLE))
              (IZR BALL_SPEED
               * sin (hit_offset (Ball.rect (ball s)) (Paddle.rect (left_paddle s))
                      * MAX_ANGLE)).
Proof.
  intros Hc Hv. unfold left_collision. rewrite Hc, (Rltb_true _ _ Hv). reflexivity.
Qed.

Lemma right_collision_velocity (s : State) :
  Rect.colliderect (Ball.rect (ball s)) (Paddle.rect (right_paddle s)) = true ->
  0 < Ball.vx (ball s) ->
  ball (fst (right_collision s))
    = Ball.mk (Rect.set_right (Rect.left (Paddle.rect (right_paddle s)) - 1)
                              (Ball.rect (ball s)))
              (- IZR BALL_SPEED
               * cos (hit_offset (Ball.rect (ball s)) (Paddle.rect (right_paddle s))
                      * MAX_ANGLE))
              (IZR BALL_SPEED
               * sin (hit_offset (Ball.rect (ball s)) (Paddle.rect (right_paddle s))
                      * MAX_ANGLE)).
Proof.
  intros Hc Hv. unfold right_collision. rewrite Hc, (Rltb_true _ _ Hv). reflexivity.
Qed.

(** X4: when a collision response fires, it leaves the ball, if it has a
    positive width, outside the paddle it struck (of a width that is not
    negative): the two rectangles no longer overlap. *)
Theorem bounce_leaves_paddle (s : State) :
  (0 < Rect.w (Ball.rect (ball s)))%Z ->
  (Rect.colliderect (Ball.rect (ball s)) (Paddle.rect (left_paddle s)) = true ->
   Ball.vx (ball s) < 0 ->
   (0 <= Rect.w (Paddle.rect (left_paddle s)))%Z ->
   Rect.colliderect (Ball.rect (ball (fst (left_collision s))))
                    (Paddle.rect (left_paddle s)) = false) /\
  (Rect.colliderect (Ball.rect (ball s)) (Paddle.rect (right_paddle s)) = true ->
   0 < Ball.vx (ball s) ->
   (0 <= Rect.w (Paddle.rect (right_paddle s)))%Z ->
   Rect.colliderect (Ball.rect (ball (fst (right_collision s))))
                    (Paddle.rect (right_paddle s)) = false).
Proof.
  intros Hw. split; intros Hc Hv Hp.
  - rewrite (left_collision_velocity s Hc Hv).
    unfold Rect.colliderect, Rect.set_left, Rect.set_x, Rect.right.
    cbn [Ball.rect Rect.x Rect.y Rect.w Rect.h].
    destruct (_ || _); [reflexivity |].
    assert ((Z.min (Rect.x (Paddle.rect (left_paddle s)) + Rect.w (Paddle.rect (left_paddle s)) + 1)
                   (Rect.x (Paddle.rect (left_paddle s)) + Rect.w (Paddle.rect (left_paddle s)) + 1
                    + Rect.w (Ball.rect (ball s)))
             <? Z.max (Rect.x (Paddle.rect (left_paddle s)))
                      (Rect.x (Paddle.rect (left_paddle s))
                       + Rect.w (Paddle.rect (left_paddle s)))) = false)%Z as ->.
    { apply Z.ltb_ge. lia. }
    reflexivity.
  - rewrite (right_collision_velocity s Hc Hv).
    unfold Rect.colliderect, Rect.set_right, Rect.set_x, Rect.left.
    cbn [Ball.rect Rect.x Rect.y Rect.w Rect.h].
    destruct (_ || _); [reflexivity |].
    rewrite !Z.gtb_ltb.
    assert ((Z.min (Rect.x (Paddle.rect (right_paddle s)))
                   (Rect.x (Paddle.rect (right_paddle s))
                    + Rect.w (Paddle.rect (right_paddle s)))
             <? Z.max (Rect.x (Paddle.rect (right_paddle s)) - 1 - Rect.w (Ball.rect (ball s)))
                      (Rect.x (Paddle.rect (right_paddle s)) - 1 - Rect.w (Ball.rect (ball s))
                       + Rect.w (Ball.rect (ball s)))) = false)%Z as ->.
    { apply Z.ltb_ge. lia. }
    now rewrite !andb_false_r.
Qed.

Lemma bounce_leaves_paddle_witness :
  Rect.colliderect (Ball.rect (ball (fst (left_collision Scenario.at_left_paddle))))
                   (Paddle.rect (left_paddle Scenario.at_left_paddle)) = false /\
  Rect.colliderect (Ball.rect (ball (fst (right_collision Scenario.at_right_paddle))))
                   (Paddle.rect (right_paddle Scenario.at_right_paddle)) = false.
Proof.
  split.
  - apply (bounce_leaves_paddle Scenario.at_left_paddle);
      [cbn; lia | reflexivity | cbn; lra | cbn; unfold PADDLE_WIDTH; lia].
  - apply (bounce_leaves_paddle Scenario.at_right_paddle);
      [cbn; lia | reflexivity | cbn; lra | cbn; unfold PADDLE_WIDTH; lia].
Defined.

(** X5: the side of the paddle's centre on which the ball is hit decides
    the vertical direction after the bounce: below the centre the ball
    leaves downward ([vy > 0]), above it upward ([vy < 0]), and level with
    it horizontally ([vy = 0]). *)
Theorem bounce_vertical_direction (s : State) :
  (Rect.colliderect (Ball.rect (ball s)) (Paddle.rect (left_paddle s)) = true ->
   Ball.vx (ball s) < 0 ->
   let cb := Rect.centery (Ball.rect (ball s)) in
   let cp := Rect.centery (Paddle.rect (left_paddle s)) in
   let vy' := Ball.vy (ball (fst (left_collision s))) in
   ((cp < cb)%Z -> 0 < vy') /\ ((cb < cp)%Z -> vy' < 0) /\ (cb = cp -> vy' = 0)) /\
  (Rect.colliderect (Ball.rect (ball s)) (Paddle.rect (right_paddle s)) = true ->
   0 < Ball.vx (ball s) ->
   let cb := Rect.centery (Ball.rect (ball s)) in
   let cp := Rect.centery (Paddle.rect (right_paddle s)) in
   let vy' := Ball.vy (ball (fst (right_collision s))) in
   ((cp < cb)%Z -> 0 < vy') /\ ((cb < cp)%Z -> vy' < 0) /\ (cb = cp -> vy' = 0)).
Proof.
  assert (forall b p,
             let vy' := IZR BALL_SPEED * sin (hit_offset b p * MAX_ANGLE) in
             ((Rect.centery p < Rect.centery b)%Z -> 0 < vy') /\
             ((Rect.centery b < Rect.centery p)%Z -> vy' < 0) /\
             (Rect.centery b = Rect.centery p -> vy' = 0)) as Hsign.
  { intros b p. cbv zeta. unfold BALL_SPEED.
    destruct (sin_deflection_sign (hit_offset b p)) as [Hpos Hneg].
    repeat split; intros Hd.
    - apply hit_offset_below_centre in Hd. apply Hpos in Hd. lra.
    - apply hit_offset_above_centre in Hd. apply Hneg in Hd. lra.
    - rewrite (hit_offset_at_centre b p Hd), Rmult_0_l, sin_0. lra. }
  split; intros Hc Hv; cbv zeta.
  - rewrite (left_collision_velocity s Hc Hv). cbn [Ball.vy]. apply Hsign.
  - rewrite (right_collision_velocity s Hc Hv). cbn [Ball.vy]. apply Hsign.
Qed.

Lemma bounce_vertical_direction_witness :
  0 < Ball.vy (ball (fst (left_collision Scenario.low_on_left_paddle))) /\
  Ball.vy (ball (fst (right_collision Scenario.at_right_paddle))) = 0.
Proof.
  destruct (bounce_vertical_direction Scenario.low_on_left_paddle) as [HL _].
  destruct (bounce_vertical_direction Scenario.at_right_paddle) as [_ HR].
  split.
  - apply HL; [reflexivity | cbn; lra | cbn; lia].
  - apply HR; [reflexivity | cbn; lra | reflexivity].
Defined.




End BounceDirection.

(** ** The velocity of the ball over a match *)

Section Velocity.

Open Scope R_scope.
Import Game.

Lemma cos_within_max_angle (a : R) :
  - MAX_ANGLE <= a <= MAX_ANGLE -> 1 / 2 <= cos a.
Proof.
  unfold MAX_ANGLE. intros [Hlo Hhi]. pose proof PI_RGT_0 as Hpi.
  rewrite <- cos_PI3.
  destruct (Rle_dec 0 a) as [Hp | Hn].
  - apply cos_decr_1; lra.
  - rewrite <- (cos_neg a). apply cos_decr_1; lra.
Qed.

Lemma velocity_at_angle (r : Rect.t) (vx vy a : R) :
  - MAX_ANGLE <= a <= MAX_ANGLE ->
  vx = 7 * cos a \/ vx = - (7 * cos a) ->
  vy = 7 * sin a ->
  Court.velocity_ok (Ball.mk r vx vy).
Proof.
  intros Ha Hvx ->. pose proof (cos_within_max_angle a Ha) as Hcos.
  pose proof (COS_bound a) as [_ Hc1].
  unfold Court.velocity_ok, BALL_SPEED. cbn [Ball.vx Ball.vy]. repeat split.
  - destruct Hvx as [-> | ->].
    + rewrite Rabs_pos_eq by lra. lra.
    + rewrite Rabs_Ropp, Rabs_pos_eq by lra. lra.
  - destruct Hvx as [-> | ->].
    + rewrite Rabs_pos_eq by lra. lra.
    + rewrite Rabs_Ropp, Rabs_pos_eq by lra. lra.
  - rewrite Rabs_mult, (Rabs_pos_eq 7) by lra.
    apply Rmult_le_compat_l; [lra |]. now apply sin_within_max_angle.
Qed.

Lemma offset_angle_within_max (o : R) :
  -1 <= o <= 1 -> - MAX_ANGLE <= o * MAX_ANGLE <= MAX_ANGLE.
Proof.
  intros Ho. unfold MAX_ANGLE. pose proof PI_RGT_0. split; nra.
Qed.

Lemma reset_velocity_ok (d : Ball.Draw) (b : Ball.t) :
  Ball.valid_draw d -> Court.velocity_ok (Ball.reset d b).
Proof.
  intros [Ha Hd]. unfold Ball.reset, BALL_SPEED.
  apply velocity_at_angle with (a := Ball.angle d); [exact Ha | | reflexivity].
  destruct Hd as [-> | ->]; [right | left]; lra.
Qed.

Lemma bounce_y_velocity_ok (b : Ball.t) :
  Court.velocity_ok b -> Court.velocity_ok (Ball.bounce_y b).
Proof.
  unfold Court.velocity_ok, Ball.bounce_y. cbn [Ball.vx Ball.vy].
  rewrite Rabs_Ropp. trivial.
Qed.

Lemma wall_collision_velocity_ok (s : State) :
  Court.velocity_ok (ball s) -> Court.velocity_ok (ball (wall_collision s)).
Proof.
  intros H. unfold wall_collision. cbv zeta.
  destruct (_ || _); [apply bounce_y_velocity_ok |]; exact H.
Qed.

Lemma left_collision_velocity_ok (s : State) :
  Court.velocity_ok (ball s) -> Court.velocity_ok (ball (fst (left_collision s))).
Proof.
  intros H. unfold left_collision. cbv zeta.
  destruct (_ && _); [| exact H]. cbn [fst ball set_ball]. unfold BALL_SPEED.
  match goal with
  | |- Court.velocity_ok (Ball.mk ?r _ (_ * sin ?ang)) =>
      apply (velocity_at_angle r _ _ ang)
  end; [apply offset_angle_within_max, clamp_bounds | | reflexivity].
  left. reflexivity.
Qed.

Lemma right_collision_velocity_ok (s : State) :
  Court.velocity_ok (ball s) -> Court.velocity_ok (ball (fst (right_collision s))).
Proof.
  intros H. unfold right_collision. cbv zeta.
  destruct (_ && _); [| exact H]. cbn [fst ball set_ball]. unfold BALL_SPEED.
  match goal with
  | |- Court.velocity_ok (Ball.mk ?r _ (_ * sin ?ang)) =>
      apply (velocity_at_angle r _ _ ang)
  end; [apply offset_angle_within_max, clamp_bounds | | reflexivity].
  right. ring.
Qed.

Lemma scoring_velocity_ok (f : Frame) (s : State) :
  Court.valid_frame f ->
  Court.velocity_ok (ball s) -> Court.velocity_ok (ball (fst (scoring f s))).
Proof.
  intros [Hl Hr] H. rewrite scoring_unfold. cbn [fst].
  assert (Court.velocity_ok (ball (fst (score_right_player (draw_left f) s)))) as H1.
  { unfold score_right_player. destruct (_ <=? _)%Z; [| exact H].
    cbn [fst ball]. now apply reset_velocity_ok. }
  unfold score_left_player. destruct (_ >=? _)%Z; [| exact H1].
  cbn [fst ball]. now apply reset_velocity_ok.
Qed.

(** X7: the velocity of the ball keeps, from the first serve on and through
    every frame whose random draws are in range, a horizontal part of at
    least half of [BALL_SPEED] and at most [BALL_SPEED], and a vertical
    part of at most [BALL_SPEED * sin MAX_ANGLE]: movement, wall bounces,
    paddle bounces and serves all preserve these bounds. *)
Theorem velocity_invariant :
  (forall d, Ball.valid_draw d -> Court.velocity_ok (ball (init d))) /\
  (forall f s, Court.valid_frame f -> Court.velocity_ok (ball s) ->
               Court.velocity_ok (ball (fst (update f s)))).
Proof.
  split.
  - intros d Hd. unfold init. cbn [ball]. unfold Ball.init. now apply reset_velocity_ok.
  - intros f s Hf H. rewrite update_unfold. cbn [fst].
    apply scoring_velocity_ok; [exact Hf |].
    unfold before_scoring. cbv zeta.
    set (s3 := wall_collision _).
    assert (Court.velocity_ok (ball s3)) as H3.
    { apply wall_collision_velocity_ok. cbn [ball set_ball move_paddles]. exact H. }
    pose proof (left_collision_velocity_ok s3 H3) as H4.
    destruct (left_collision s3) as [s4 snd4]. cbn [fst] in H4.
    pose proof (right_collision_velocity_ok s4 H4) as H5.
    destruct (right_collision s4) as [s5 snd5]. exact H5.
Qed.

Lemma velocity_invariant_witness :
  Court.velocity_ok (ball (init Scenario.straight_left)) /\
  Court.velocity_ok
    (ball (fst (update Scenario.quiet_frame (init Scenario.straight_left)))).
Proof.
  assert (Ball.valid_draw Scenario.straight_left) as Hl.
  { unfold Ball.valid_draw, MAX_ANGLE. cbn. pose proof PI_RGT_0.
    split; [lra | left; reflexivity]. }
  assert (Ball.valid_draw Scenario.straight_right) as Hr.
  { unfold Ball.valid_draw, MAX_ANGLE. cbn. pose proof PI_RGT_0.
    split; [lra | right; reflexivity]. }
  destruct velocity_invariant as [Hinit Hstep].
  split.
  - apply Hinit, Hl.
  - apply Hstep; [split; assumption | apply Hinit, Hl].
Defined.

(** X8: a serve goes to the side that was drawn, at no less than half the
    ball speed horizontally: with direction 1 [vx >= BALL_SPEED / 2], with
    direction -1 [vx <= - BALL_SPEED / 2]. *)
Theorem serve_direction (d : Ball.Draw) (b : Ball.t) :
  Ball.valid_draw d ->
  (Ball.direction d = 1%Z -> IZR BALL_SPEED / 2 <= Ball.vx (Ball.reset d b)) /\
  (Ball.direction d = (-1)%Z -> Ball.vx (Ball.reset d b) <= - (IZR BALL_SPEED / 2)).
Proof.
  intros [Ha _]. pose proof (cos_within_max_angle _ Ha) as Hcos.
  unfold Ball.reset, BALL_SPEED. cbn [Ball.vx].
  split; intros ->; lra.
Qed.

Lemma serve_direction_witness :
  Ball.vx (Ball.reset Scenario.straight_left (Ball.mk (Rect.mk 0 293 15 15) (-7) 0))
    <= - (IZR BALL_SPEED / 2).
Proof.
  destruct (serve_direction Scenario.straight_left
              (Ball.mk (Rect.mk 0 293 15 15) (-7) 0)) as [_ Hleft].
  - unfold Ball.valid_draw, MAX_ANGLE. cbn. pose proof PI_RGT_0.
    split; [lra | left; reflexivity].
  - apply Hleft. reflexivity.
Defined.

End Velocity.

(** ** The layout of a match *)

Section Layout.

Import Game.

Lemma no_overlap_left_of (a b : Rect.t) :
  0 <= Rect.w a -> 0 <= Rect.w b ->
  Rect.x a + Rect.w a <= Rect.x b ->
  Rect.colliderect a b = false /\ Rect.colliderect b a = false.
Proof.
  intros Ha Hb Hab. unfold Rect.colliderect. rewrite !Z.gtb_ltb. split.
  - destruct (_ || _); [reflexivity |].
    assert ((Z.min (Rect.x b) (Rect.x b + Rect.w b)
             <? Z.max (Rect.x a) (Rect.x a + Rect.w a)) = false) as ->
        by (apply Z.ltb_ge; lia).
    now rewrite andb_false_r.
  - destruct (_ || _); [reflexivity |].
    assert ((Z.min (Rect.x b) (Rect.x b + Rect.w b)
             <? Z.max (Rect.x a) (Rect.x a + Rect.w a)) = false) as ->
        by (apply Z.ltb_ge; lia).
    reflexivity.
Qed.

Lemma paddle_at_moves (x0 v : Z) (p : Paddle.t) :
  0 <= x0 <= WIDTH - PADDLE_WIDTH ->
  Court.paddle_at x0 p ->
  Court.paddle_at x0 (Paddle.move_ai v p) /\ Court.paddle_at x0 (Paddle.move_mouse v p).
Proof.
  unfold Court.paddle_at, WIDTH, HEIGHT, PADDLE_WIDTH, PADDLE_HEIGHT.
  intros Hx0 (Hx & Hw & Hh & Hy & Hs).
  unfold Paddle.move_ai, Paddle.move_mouse, Rect.clamp_ip, Rect.clamp_axis, Rect.set_y,
    Rect.centery, playfield, WIDTH, HEIGHT, PADDLE_HEIGHT.
  cbv zeta. rewrite Hx, Hw, Hh.
  split; z_tests; cbn [Paddle.rect Paddle.speed Rect.x Rect.y Rect.w Rect.h] in *;
    rewrite ?Hx, ?Hw, ?Hh; repeat split; try assumption; lia.
Qed.

Lemma init_layout (d : Ball.Draw) : Court.layout_ok (init d).
Proof.
  unfold Court.layout_ok, Court.paddle_at, WIDTH, HEIGHT, PADDLE_WIDTH, PADDLE_HEIGHT,
    BALL_SIZE.
  cbn. repeat split; lia.
Qed.

(** What the part of a frame before the scoring does to a match whose
    paddles are in their columns and whose ball has the game's size. *)
Lemma before_scoring_shape (f : Frame) (s : State) :
  Court.paddle_at 30 (left_paddle s) ->
  Court.paddle_at (WIDTH - 30 - PADDLE_WIDTH) (right_paddle s) ->
  Rect.w (Ball.rect (ball s)) = BALL_SIZE ->
  Rect.h (Ball.rect (ball s)) = BALL_SIZE ->
  let s5 := fst (before_scoring f s) in
  let played := snd (before_scoring f s) in
  Court.paddle_at 30 (left_paddle s5) /\
  Court.paddle_at (WIDTH - 30 - PADDLE_WIDTH) (right_paddle s5) /\
  Rect.w (Ball.rect (ball s5)) = BALL_SIZE /\
  Rect.h (Ball.rect (ball s5)) = BALL_SIZE /\
  left_score s5 = left_score s /\ right_score s5 = right_score s /\
  (played = [] \/
   (played = [HitPaddle] /\
    0 < Rect.left (Ball.rect (ball s5)) /\ Rect.right (Ball.rect (ball s5)) < WIDTH)).
Proof.
  intros Hlp Hrp Hw Hh. cbv zeta. unfold before_scoring. cbv zeta.
  set (s1 := move_paddles (mouse_y f) s).
  assert (Court.paddle_at 30 (left_paddle s1)) as Hlp1.
  { apply paddle_at_moves; [unfold WIDTH, PADDLE_WIDTH; lia | exact Hlp]. }
  assert (Court.paddle_at (WIDTH - 30 - PADDLE_WIDTH) (right_paddle s1)) as Hrp1.
  { apply paddle_at_moves; [unfold WIDTH, PADDLE_WIDTH; lia | exact Hrp]. }
  set (s3 := wall_collision (set_ball (Ball.move (ball s1)) s1)).
  assert (left_paddle s3 = left_paddle s1 /\ right_paddle s3 = right_paddle s1 /\
          Rect.w (Ball.rect (ball s3)) = BALL_SIZE /\
          Rect.h (Ball.rect (ball s3)) = BALL_SIZE /\
          left_score s3 = left_score s /\ right_score s3 = right_score s)
    as (El & Er & Hw3 & Hh3 & Els & Ers).
  { subst s3. unfold wall_collision. cbv zeta.
    destruct (_ || _); cbn; repeat split; assumption. }
  rewrite <- El in Hlp1. rewrite <- Er in Hrp1.
  clearbody s3. clear s1 El Er.
  destruct Hlp1 as (Hlx & Hlw & Hlh & Hly & Hls).
  destruct Hrp1 as (Hrx & Hrw & Hrh & Hry & Hrs).
  unfold left_collision. cbv zeta.
  destruct (Rect.colliderect (Ball.rect (ball s3)) (Paddle.rect (left_paddle s3))
            && Rltb (Ball.vx (ball s3)) 0).
  - (* the left paddle is struck: the ball is put at x = 46 *)
    unfold right_collision. cbv zeta.
    cbn [fst snd ball right_paddle set_ball Ball.rect Ball.vx].
    assert (Rect.colliderect
              (Rect.set_left (Rect.right (Paddle.rect (left_paddle s3)) + 1)
                             (Ball.rect (ball s3)))
              (Paddle.rect (right_paddle s3)) = false) as ->.
    { apply (no_overlap_left_of
               (Rect.set_left (Rect.right (Paddle.rect (left_paddle s3)) + 1)
                              (Ball.rect (ball s3)))
               (Paddle.rect (right_paddle s3)));
        unfold Rect.set_left, Rect.set_x, Rect.right, WIDTH, PADDLE_WIDTH, BALL_SIZE in *;
        cbn [Rect.x Rect.w]; lia. }
    cbn [andb fst snd app ball left_paddle right_paddle left_score right_score set_ball
         Ball.rect].
    unfold Court.paddle_at, Rect.set_left, Rect.set_x, Rect.right, Rect.left,
      WIDTH, PADDLE_WIDTH, BALL_SIZE in *.
    cbn [Rect.x Rect.w Rect.h].
    repeat split; try assumption; try lia.
    right. repeat split; lia.
  - cbn [fst snd app]. unfold right_collision. cbv zeta.
    destruct (Rect.colliderect (Ball.rect (ball s3)) (Paddle.rect (right_paddle s3))
              && Rltb 0 (Ball.vx (ball s3))).
    + (* the right paddle is struck: the ball is put at x = 739 *)
      cbn [fst snd ball left_paddle right_paddle left_score right_score set_ball Ball.rect].
      unfold Court.paddle_at, Rect.set_right, Rect.set_x, Rect.right, Rect.left,
        WIDTH, PADDLE_WIDTH, BALL_SIZE in *.
      cbn [Rect.x Rect.w Rect.h].
      repeat split; try assumption; try lia.
      right. repeat split; lia.
    + cbn [fst snd]. unfold Court.paddle_at. repeat split; try assumption; try lia.
      left. reflexivity.
Qed.

(** The same for the whole update of a frame. *)
Lemma update_shape (f : Frame) (s : State) :
  Court.paddle_at 30 (left_paddle s) ->
  Court.paddle_at (WIDTH - 30 - PADDLE_WIDTH) (right_paddle s) ->
  Rect.w (Ball.rect (ball s)) = BALL_SIZE ->
  Rect.h (Ball.rect (ball s)) = BALL_SIZE ->
  let s' := fst (update f s) in
  let played := snd (update f s) in
  Court.paddle_at 30 (left_paddle s') /\
  Court.paddle_at (WIDTH - 30 - PADDLE_WIDTH) (right_paddle s') /\
  Rect.w (Ball.rect (ball s')) = BALL_SIZE /\
  Rect.h (Ball.rect (ball s')) = BALL_SIZE /\
  0 < Rect.left (Ball.rect (ball s')) /\ Rect.right (Ball.rect (ball s')) < WIDTH /\
  (played = [] \/ played = [HitPaddle] \/ played = [Score]).
Proof.
  intros Hlp Hrp Hw Hh. cbv zeta. rewrite update_unfold. cbn [fst snd].
  destruct (before_scoring_shape f s Hlp Hrp Hw Hh)
    as (Hlp5 & Hrp5 & Hw5 & Hh5 & _ & _ & Hplayed).
  set (s5 := fst (before_scoring f s)) in *.
  destruct (scoring_cases f s5 Hw5) as [[Hl ->] | [[Hr ->] | (Hl & Hr & ->)]];
    cbn [fst snd ball left_paddle right_paddle].
  - (* a point for the right player *)
    destruct (reset_right_edge (draw_left f) (ball s5) Hw5) as [-> ->].
    destruct Hplayed as [-> | (_ & Hin & _)]; [| lia].
    split; [exact Hlp5 |]. split; [exact Hrp5 |].
    split; [exact Hw5 |]. split; [exact Hh5 |].
    unfold WIDTH. split; [lia |]. split; [lia |].
    right. right. reflexivity.
  - (* a point for the left player *)
    destruct (reset_right_edge (draw_right f) (ball s5) Hw5) as [-> ->].
    destruct Hplayed as [-> | (_ & _ & Hin)]; [| lia].
    split; [exact Hlp5 |]. split; [exact Hrp5 |].
    split; [exact Hw5 |]. split; [exact Hh5 |].
    unfold WIDTH. split; [lia |]. split; [lia |].
    right. right. reflexivity.
  - split; [exact Hlp5 |]. split; [exact Hrp5 |].
    split; [exact Hw5 |]. split; [exact Hh5 |].
    split; [exact Hl |]. split; [exact Hr |].
    rewrite app_nil_r. destruct Hplayed as [-> | (-> & _)]; [left | right; left];
      reflexivity.
Qed.

(** X9: in every state the loop of a match can be in, the left paddle is
    in column 30 and the right one in column 755, both 15 by 100, at speed 7
    and with their top in [0, 500]; the ball is 15 by 15 and horizontally
    strictly inside the playfield; both scores are in [0, 4]. *)
Theorem match_layout_invariant (s : State) :
  reachable s -> Court.layout_ok s.
Proof.
  induction 1 as [d | s s' f played Hs IH Ht]; [apply init_layout |].
  destruct IH as (Hlp & Hrp & Hw & Hh & _ & _ & Hls & Hrs).
  rewrite tick_unfold in Ht.
  destruct (existsb is_quit (events f)); [discriminate |].
  destruct (game_over (fst (update f s))) eqn:Hover; [discriminate |].
  injection Ht as <- _.
  unfold game_over in Hover. apply orb_false_iff in Hover.
  rewrite !Z.geb_leb, !Z.leb_gt in Hover.
  destruct (update_scores f s Hw) as (_ & Hcases).
  destruct (update_shape f s Hlp Hrp Hw Hh) as (Hlp' & Hrp' & Hw' & Hh' & Hl' & Hr' & _).
  unfold Court.layout_ok.
  split; [exact Hlp' |]. split; [exact Hrp' |].
  split; [exact Hw' |]. split; [exact Hh' |].
  split; [exact Hl' |]. split; [exact Hr' |].
  lia.
Qed.

Lemma match_layout_invariant_witness :
  Court.layout_ok (init Scenario.straight_left).
Proof.
  exact (match_layout_invariant (init Scenario.straight_left)
           (reach_init Scenario.straight_left)).
Defined.

(** X10: a frame of a match in that layout plays at most one sound: nothing,
    one paddle hit, or one score; in particular the two paddles are never
    hit in the same frame, and no point is scored in the frame of a
    paddle hit. *)
Theorem one_sound_per_frame (f : Frame) (s : State) :
  Court.layout_ok s ->
  snd (tick f s) = [] \/ snd (tick f s) = [HitPaddle] \/ snd (tick f s) = [Score].
Proof.
  intros (Hlp & Hrp & Hw & Hh & _).
  rewrite tick_unfold.
  destruct (existsb is_quit (events f)); [left; reflexivity |].
  destruct (update_shape f s Hlp Hrp Hw Hh) as (_ & _ & _ & _ & _ & _ & Hplayed).
  destruct (game_over (fst (update f s))); exact Hplayed.
Qed.

Lemma one_sound_per_frame_witness :
  let s := init Scenario.straight_left in
  let f := Scenario.quiet_frame in
  snd (tick f s) = [] \/ snd (tick f s) = [HitPaddle] \/ snd (tick f s) = [Score].
Proof.
  apply (one_sound_per_frame Scenario.quiet_frame (init Scenario.straight_left)).
  unfold Court.layout_ok, Court.paddle_at, WIDTH, HEIGHT, PADDLE_WIDTH, PADDLE_HEIGHT,
    BALL_SIZE.
  cbn. repeat split; lia.
Defined.

End Layout.

(** ** More on tone generation *)

Section ToneShape.

Open Scope R_scope.
Import SoundEngine.

Lemma py_int_monotone (x y : R) : x <= y -> (py_int x <= py_int y)%Z.
Proof.
  intros Hxy. unfold py_int.
  destruct (Rle_dec 0 x) as [Hx | Hx]; destruct (Rle_dec 0 y) as [Hy | Hy].
  - now apply Zfloor_le.
  - lra.
  - assert (Zceil x <= 0)%Z.
    { pose proof (Zceil_bound x) as [Hlo _].
      apply Z.lt_succ_r, lt_IZR. rewrite succ_IZR. lra. }
    assert (0 <= Zfloor y)%Z by (apply Zfloor_lub; lra).
    lia.
  - now apply Zceil_le.
Qed.

Lemma py_int_opp (r : R) : py_int (- r) = (- py_int r)%Z.
Proof.
  destruct (Rtotal_order r 0) as [Hneg | [-> | Hpos]].
  - rewrite (py_int_neg r Hneg), py_int_nonneg by lra. apply ZfloorN.
  - rewrite Ropp_0, py_int_IZR. reflexivity.
  - rewrite (py_int_nonneg r) by lra. rewrite py_int_neg by lra. apply ZceilN.
Qed.

Lemma range_empty (n : Z) : (n <= 0)%Z -> range n = [].
Proof.
  intros Hn. unfold range. replace (Z.to_nat n) with 0%nat by lia. reflexivity.
Qed.

Lemma range_extends (n m : Z) :
  (n <= m)%Z ->
  range m = range n ++ map Z.of_nat (seq (Z.to_nat n) (Z.to_nat m - Z.to_nat n)).
Proof.
  intros Hnm. unfold range. rewrite <- map_app, <- seq_app.
  do 2 f_equal. lia.
Qed.

Lemma generate_tone_is_samples (frequency duration volume : R) (buf : list Z) :
  _generate_tone frequency duration volume = Some buf ->
  buf = samples frequency duration volume.
Proof.
  unfold _generate_tone. cbv zeta. destruct (forallb _ _); congruence.
Qed.

(** X13: a duration below one sample period (1/22050 s), zero and negative
    durations included, gives an empty buffer and no error, at any
    frequency and volume; from one sample period on the buffer is never
    empty. *)
Theorem short_tone_is_empty (frequency duration volume : R) :
  (duration < 1 / 22050 -> _generate_tone frequency duration volume = Some []) /\
  (1 / 22050 <= duration -> _generate_tone frequency duration volume <> Some []).
Proof.
  split; intros Hd.
  - assert (n_samples duration <= 0)%Z as Hn.
    { unfold n_samples, sample_rate.
      destruct (Rle_dec 0 (22050 * duration)) as [Hp | Hn].
      - rewrite (py_int_floor_eq 0 (22050 * duration)); [lia | lra | lra].
      - rewrite <- (py_int_IZR 0). apply py_int_monotone. lra. }
    unfold _generate_tone, samples. cbv zeta. rewrite (range_empty _ Hn). reflexivity.
  - intros Hgen. apply generate_tone_is_samples in Hgen.
    assert (length (samples frequency duration volume) = 0%nat) as Hlen
      by (rewrite <- Hgen; reflexivity).
    rewrite samples_length in Hlen.
    assert (1 <= n_samples duration)%Z as Hn.
    { unfold n_samples, sample_rate.
      rewrite <- (py_int_IZR 1). apply py_int_monotone. lra. }
    lia.
Qed.

Lemma short_tone_is_empty_witness :
  _generate_tone 440 (- (1 / 10)) 5 = Some [] /\
  _generate_tone 440 (1 / 10) (2 / 10) <> Some [].
Proof.
  split.
  - apply (short_tone_is_empty 440 (- (1 / 10)) 5). lra.
  - apply (short_tone_is_empty 440 (1 / 10) (2 / 10)). lra.
Defined.

(** X14: for a volume of magnitude at most 1, lengthening the duration
    only appends samples: the buffer of the shorter tone is the beginning
    of the buffer of the longer one. *)
Theorem longer_tone_extends_shorter (frequency d1 d2 volume : R) :
  -1 <= volume <= 1 ->
  d1 <= d2 ->
  exists buf tail,
    _generate_tone frequency d1 volume = Some buf /\
    _generate_tone frequency d2 volume = Some (buf ++ tail).
Proof.
  intros Hv Hd.
  assert (n_samples d1 <= n_samples d2)%Z as Hn.
  { unfold n_samples, sample_rate. apply py_int_monotone. nra. }
  exists (samples frequency d1 volume).
  exists (map (int_val frequency volume)
              (map Z.of_nat (seq (Z.to_nat (n_samples d1))
                                 (Z.to_nat (n_samples d2) - Z.to_nat (n_samples d1))))).
  split; [now apply generate_tone_buffer |].
  rewrite (generate_tone_buffer frequency d2 volume Hv).
  unfold samples. rewrite (range_extends _ _ Hn), map_app. reflexivity.
Qed.

Lemma longer_tone_extends_shorter_witness :
  exists buf tail,
    _generate_tone 440 (1 / 10) (2 / 10) = Some buf /\
    _generate_tone 440 (2 / 10) (2 / 10) = Some (buf ++ tail).
Proof.
  apply (longer_tone_extends_shorter 440 (1 / 10) (2 / 10) (2 / 10)); lra.
Defined.

(** X15: the samples are truncated toward zero, so the waveform has no
    bias: for a volume of magnitude at most 1, the tone of volume
    [- volume] is the tone of volume [volume] with every sample negated. *)
Theorem negated_volume_negates_samples (frequency duration volume : R) :
  -1 <= volume <= 1 ->
  exists buf,
    _generate_tone frequency duration volume = Some buf /\
    _generate_tone frequency duration (- volume) = Some (map Z.opp buf).
Proof.
  intros Hv. exists (samples frequency duration volume).
  split; [now apply generate_tone_buffer |].
  rewrite generate_tone_buffer by lra.
  unfold samples. rewrite map_map. f_equal.
  apply map_ext. intros i. unfold int_val. cbv zeta.
  rewrite <- py_int_opp. f_equal. ring.
Qed.

Lemma negated_volume_negates_samples_witness :
  exists buf,
    _generate_tone 440 (1 / 10) (2 / 10) = Some buf /\
    _generate_tone 440 (1 / 10) (- (2 / 10)) = Some (map Z.opp buf).
Proof.
  apply (negated_volume_negates_samples 440 (1 / 10) (2 / 10)). lra.
Defined.

(** X16: the score sound (220 Hz, 0.2 s, volume 0.3) is a buffer of exactly
    4410 samples, each within [-0.3 * 32767, 0.3 * 32767], that starts at
    0. *)
Theorem score_sound_buffer :
  exists buf,
    score = Some buf /\
    length buf = 4410%nat /\
    Forall (fun v => - (3 / 10 * 32767) <= IZR v <= 3 / 10 * 32767) buf /\
    nth 0 buf 1%Z = 0%Z.
Proof.
  assert (n_samples (2 / 10) = 4410%Z) as Hn.
  { unfold n_samples, sample_rate.
    replace (22050 * (2 / 10)) with (IZR 4410) by lra. apply py_int_IZR. }
  exists (samples 220 (2 / 10) (3 / 10)).
  split; [apply generate_tone_buffer; lra |].
  split; [rewrite samples_length, Hn; reflexivity |].
  split.
  - apply Forall_forall. intros v Hin. unfold samples in Hin.
    apply in_map_iff in Hin. destruct Hin as (i & <- & _).
    apply int_val_amplitude. lra.
  - rewrite (nth_indep _ 1%Z 0%Z) by (rewrite samples_length, Hn; lia).
    rewrite samples_nth by (rewrite Hn; lia).
    unfold int_val, sample_rate. cbv zeta. cbn [Z.of_nat].
    replace (2 * PI * 220 * (0 / 22050)) with 0 by lra.
    rewrite sin_0, Rmult_0_r. apply py_int_IZR.
Qed.

End ToneShape.

(** ** More on the menu and the prompt *)

Section Prompts.

Import Screen.

Lemma prompt_ignores_event (e : Event) :
  Court.prompt_ignores e <-> game_over_prompt_event e = None.
Proof.
  unfold Court.prompt_ignores. split.
  - intros (Hq & Hy & Hn). destruct e as [| px py | [| |] |]; try reflexivity; congruence.
  - intros He. destruct e as [| px py | [| |] |]; try discriminate;
      repeat split; discriminate.
Qed.

(** X17: the game over prompt answers to the first event of the queue that
    is a window-close, [y] or [n]: the events before it, whatever they are,
    and everything after it are without effect, and a queue without such an
    event leaves the prompt open. *)
Theorem prompt_answers_first_decisive_event (pre rest : list Event) :
  (Forall Court.prompt_ignores pre ->
   game_over_prompt pre = None /\
   game_over_prompt (pre ++ rest) = game_over_prompt rest /\
   game_over_prompt (pre ++ QUIT :: rest) = Some false /\
   game_over_prompt (pre ++ KEYDOWN K_y :: rest) = Some true /\
   game_over_prompt (pre ++ KEYDOWN K_n :: rest) = Some false) /\
  (game_over_prompt pre = None -> Forall Court.prompt_ignores pre).
Proof.
  unfold game_over_prompt. split.
  - intros Hpre.
    assert (forall l, first_some game_over_prompt_event (pre ++ l)
                      = first_some game_over_prompt_event l) as Hskip.
    { intros l. induction Hpre as [| e pre He _ IH]; [reflexivity |].
      cbn [app first_some]. apply prompt_ignores_event in He. rewrite He. exact IH. }
    split; [| split; [apply Hskip | repeat split; rewrite Hskip; reflexivity]].
    rewrite <- (app_nil_r pre) at 1. rewrite Hskip. reflexivity.
  - induction pre as [| e pre IH]; intros Hnone; [constructor |].
    cbn [first_some] in Hnone.
    destruct (game_over_prompt_event e) eqn:He; [discriminate |].
    constructor; [now apply prompt_ignores_event | now apply IH].
Qed.

Lemma prompt_answers_first_decisive_event_witness :
  game_over_prompt [KEYDOWN K_other; MOUSEBUTTONDOWN 5 5] = None /\
  game_over_prompt ([KEYDOWN K_other; MOUSEBUTTONDOWN 5 5] ++ [KEYDOWN K_n; KEYDOWN K_y])
    = game_over_prompt [KEYDOWN K_n; KEYDOWN K_y] /\
  game_over_prompt ([KEYDOWN K_other; MOUSEBUTTONDOWN 5 5]
                      ++ QUIT :: [KEYDOWN K_n; KEYDOWN K_y]) = Some false /\
  game_over_prompt ([KEYDOWN K_other; MOUSEBUTTONDOWN 5 5]
                      ++ KEYDOWN K_y :: [KEYDOWN K_n; KEYDOWN K_y]) = Some true /\
  game_over_prompt ([KEYDOWN K_other; MOUSEBUTTONDOWN 5 5]
                      ++ KEYDOWN K_n :: [KEYDOWN K_n; KEYDOWN K_y]) = Some false.
Proof.
  apply (prompt_answers_first_decisive_event
           [KEYDOWN K_other; MOUSEBUTTONDOWN 5 5] [KEYDOWN K_n; KEYDOWN K_y]).
  repeat constructor; discriminate.
Defined.

(** X18: with texts at most 60 pixels high the two buttons of the menu do
    not overlap: no point is on both, so that the order in which
    [main_menu] tests them does not matter, and a click on QUIT always
    leaves the program. *)
Theorem menu_buttons_do_not_overlap (start_text quit_text : TextSize) (px py : Z) :
  0 <= text_h start_text <= 60 ->
  0 <= text_h quit_text <= 60 ->
  Rect.collidepoint px py (start_rect start_text)
    && Rect.collidepoint px py (quit_rect quit_text) = false /\
  (Rect.collidepoint px py (quit_rect quit_text) = true ->
   main_menu_event start_text quit_text (MOUSEBUTTONDOWN px py) = Some ExitProgram).
Proof.
  intros Hs Hq.
  assert (Rect.collidepoint px py (start_rect start_text) = true ->
          Rect.collidepoint px py (quit_rect quit_text) = true -> False) as Hboth.
  { unfold Rect.collidepoint, start_rect, quit_rect, get_rect, Rect.set_center,
      WIDTH, HEIGHT.
    cbn [Rect.x Rect.y Rect.w Rect.h].
    rewrite (Z.quot_div_nonneg (text_h start_text) 2),
      (Z.quot_div_nonneg (text_h quit_text) 2) by lia.
    rewrite !andb_true_iff, !Z.leb_le, !Z.ltb_lt.
    change (600 / 2) with 300.
    intros ((_ & _) & Hs2) (((_ & _) & Hq1) & _).
    pose proof (Z.div_mod (text_h start_text) 2 ltac:(lia)).
    pose proof (Z.mod_pos_bound (text_h start_text) 2 ltac:(lia)).
    pose proof (Z.div_mod (text_h quit_text) 2 ltac:(lia)).
    pose proof (Z.mod_pos_bound (text_h quit_text) 2 ltac:(lia)).
    lia. }
  split.
  - destruct (Rect.collidepoint px py (start_rect start_text)) eqn:E1;
      destruct (Rect.collidepoint px py (quit_rect quit_text)) eqn:E2;
      try reflexivity.
    exfalso. now apply Hboth.
  - intros E2. cbn [main_menu_event]. rewrite E2.
    destruct (Rect.collidepoint px py (start_rect start_text)) eqn:E1; [| reflexivity].
    exfalso. now apply Hboth.
Qed.

Lemma menu_buttons_do_not_overlap_witness :
  Rect.collidepoint 400 330 (start_rect Court.menu_text)
    && Rect.collidepoint 400 330 (quit_rect Court.menu_text) = false /\
  main_menu_event Court.menu_text Court.menu_text (MOUSEBUTTONDOWN 400 330)
    = Some ExitProgram.
Proof.
  destruct (menu_buttons_do_not_overlap Court.menu_text Court.menu_text 400 330)
    as [Hno Hquit].
  - cbn. lia.
  - cbn. lia.
  - split; [exact Hno | apply Hquit; reflexivity].
Defined.

Lemma main_exit_is_terminated_witness :
  exists used, [Court.closing_frame] = used ++ [] /\
               run Court.menu_text Court.menu_text used Menu = Terminated.
Proof.
  apply (main_exit_is_terminated Court.menu_text Court.menu_text 1
           [Court.closing_frame] []).
  reflexivity.
Defined.

Lemma terminated_is_main_exit_witness :
  exists rest, main 2 Court.menu_text Court.menu_text [Court.closing_frame] = Some rest.
Proof.
  apply (terminated_is_main_exit Court.menu_text Court.menu_text 2 [Court.closing_frame]).
  - cbn. lia.
  - reflexivity.
Defined.

End Prompts.

(** * Properties under binary64 rounding *)

(** ** The arithmetic *)

Section Arithmetic.

Open Scope R_scope.

(** Exact arithmetic is one of the arithmetics [Rounded.sound] admits. *)
Lemma exact_sound : Rounded.sound Rounded.exact.
Proof.
  assert (Rabs 0 <= Rounded.unit_roundoff) as H0.
  { rewrite Rabs_R0. unfold Rounded.unit_roundoff. lra. }
  constructor; cbn.
  - intros x y H. exact H.
  - reflexivity.
  - intros x _. rewrite Rminus_diag, Rabs_R0.
    pose proof (Rabs_pos x). unfold Rounded.unit_roundoff, Rounded.underflow. lra.
  - apply SIN_bound.
  - apply COS_bound.
  - intros x _. now rewrite Rminus_diag.
  - intros x _. now rewrite Rminus_diag.
  - now rewrite Rminus_diag.
Qed.

(** In exact arithmetic the definitions of [Rounded] are those of the
    game. *)
Lemma exact_agrees :
  (forall f v i, Rounded.int_val Rounded.exact f v i = SoundEngine.int_val f v i) /\
  (forall d, Rounded.n_samples Rounded.exact d = SoundEngine.n_samples d) /\
  (forall f d v,
     Rounded._generate_tone Rounded.exact f d v = SoundEngine._generate_tone f d v) /\
  Rounded.MAX_ANGLE Rounded.exact = MAX_ANGLE /\
  (forall d b, Rounded.reset Rounded.exact d b = Ball.reset d b) /\
  (forall b, Rounded.move Rounded.exact b = Ball.move b) /\
  (forall b p, Rounded.hit_offset Rounded.exact b p = Game.hit_offset b p) /\
  (forall s, Rounded.left_collision Rounded.exact s = Game.left_collision s) /\
  (forall s, Rounded.right_collision Rounded.exact s = Game.right_collision s).
Proof. repeat split. Qed.

(** The sine and the cosine change no faster than their argument. *)
Lemma sin_abs_le (t : R) : Rabs (sin t) <= Rabs t.
Proof.
  assert (forall x, 0 <= x -> Rabs (sin x) <= x) as Hpos.
  { intros x Hx. pose proof (SIN_bound x) as Hb. pose proof PI2_3_2 as Hpi.
    destruct (Rle_dec 1 x) as [H1 | H1]; [apply Rabs_le; lra |].
    destruct (Req_dec x 0) as [-> | Hn]; [rewrite sin_0, Rabs_R0; lra |].
    assert (0 < sin x) by (apply sin_gt_0; lra).
    assert (sin x < x) by (apply sin_lt_x; lra).
    apply Rabs_le. lra. }
  destruct (Rle_dec 0 t) as [Ht | Ht].
  - rewrite (Rabs_pos_eq t) by assumption. now apply Hpos.
  - rewrite <- (Rabs_Ropp (sin t)), <- sin_neg, <- (Rabs_Ropp t).
    rewrite (Rabs_pos_eq (- t)) by lra. apply Hpos. lra.
Qed.

Lemma cos_lipschitz (p q : R) : Rabs (cos p - cos q) <= Rabs (p - q).
Proof.
  rewrite form2.
  pose proof (sin_abs_le ((p - q) / 2)) as Ha.
  pose proof (SIN_bound ((p + q) / 2)) as Hb.
  set (a := sin ((p - q) / 2)) in *. set (b := sin ((p + q) / 2)) in *.
  replace (Rabs ((p - q) / 2)) with (Rabs (p - q) / 2) in Ha
    by (unfold Rdiv; rewrite Rabs_mult, (Rabs_pos_eq (/ 2)); lra).
  pose proof (Rabs_pos (p - q)) as Hh. set (h := Rabs (p - q)) in *.
  apply Rabs_le_elim in Ha. apply Rabs_le. split; nra.
Qed.

Lemma sin_lipschitz (p q : R) : Rabs (sin p - sin q) <= Rabs (p - q).
Proof.
  rewrite form4.
  pose proof (sin_abs_le ((p - q) / 2)) as Ha.
  pose proof (COS_bound ((p + q) / 2)) as Hb.
  set (a := sin ((p - q) / 2)) in *. set (b := cos ((p + q) / 2)) in *.
  replace (Rabs ((p - q) / 2)) with (Rabs (p - q) / 2) in Ha
    by (unfold Rdiv; rewrite Rabs_mult, (Rabs_pos_eq (/ 2)); lra).
  pose proof (Rabs_pos (p - q)) as Hh. set (h := Rabs (p - q)) in *.
  apply Rabs_le_elim in Ha. apply Rabs_le. split; nra.
Qed.

Variable A : Rounded.Arith.
Hypothesis HA : Rounded.sound A.

(** One rounding of a number of magnitude at most [b]. *)
Lemma rnd_within (x b : R) :
  Rabs x <= b -> b <= 10 ^ 7 ->
  - (b / 10 ^ 15 + 1 / 10 ^ 18) <= Rounded.rnd A x - x <= b / 10 ^ 15 + 1 / 10 ^ 18.
Proof.
  intros Hx Hb. pose proof (Rounded.rnd_error A HA x) as H.
  unfold Rounded.max_exact, Rounded.unit_roundoff, Rounded.underflow in H.
  apply Rabs_le_elim. lra.
Qed.

Lemma rnd_IZR (z : Z) :
  (Z.abs z <= 9007199254740992)%Z -> Rounded.rnd A (IZR z) = IZR z.
Proof. apply (Rounded.rnd_integer A HA). Qed.

Lemma MAX_ANGLE_near :
  - (2 / 10 ^ 15) <= Rounded.MAX_ANGLE A - PI / 3 <= 2 / 10 ^ 15.
Proof.
  pose proof (Rounded.pi_error A HA) as Hpi. apply Rabs_le_elim in Hpi.
  unfold Rounded.unit_roundoff in Hpi.
  pose proof PI_4 as H4. pose proof PI_RGT_0 as H0.
  pose proof (rnd_within (Rounded.math_pi A / 3) (3 / 2)) as Hr.
  unfold Rounded.MAX_ANGLE.
  assert (Rabs (Rounded.math_pi A / 3) <= 3 / 2) as Hb by (apply Rabs_le; lra).
  specialize (Hr Hb ltac:(lra)). lra.
Qed.

(** The deflection angle of a clamped offset. *)
Lemma angle_near (o : R) :
  -1 <= o <= 1 ->
  - (4 / 10 ^ 15) <= Rounded.rnd A (o * Rounded.MAX_ANGLE A) - o * (PI / 3) <= 4 / 10 ^ 15.
Proof.
  intros Ho. pose proof MAX_ANGLE_near as Hm.
  pose proof PI_4 as H4. pose proof PI_RGT_0 as H0.
  set (M := Rounded.MAX_ANGLE A) in *.
  assert (- (3 / 2) <= o * M <= 3 / 2) as Hb by (split; nra).
  pose proof (rnd_within (o * M) (3 / 2) ltac:(apply Rabs_le; lra) ltac:(lra)) as Hr.
  assert (- (2 / 10 ^ 15) <= o * M - o * (PI / 3) <= 2 / 10 ^ 15) by (split; nra).
  lra.
Qed.

(** The two components of a velocity computed from an angle. *)
Lemma cos_component (k a : R) :
  k = 7 \/ k = -7 -> Rabs a <= 2 ->
  - (15 / 10 ^ 15) <= Rounded.rnd A (k * Rounded.math_cos A a) - k * cos a
    <= 15 / 10 ^ 15.
Proof.
  intros Hk Ha.
  pose proof (Rounded.cos_range A HA a) as Hc.
  pose proof (Rounded.cos_error A HA a Ha) as He. apply Rabs_le_elim in He.
  unfold Rounded.unit_roundoff in He.
  set (c := Rounded.math_cos A a) in *.
  pose proof (rnd_within (k * c) 7) as Hr.
  assert (Rabs (k * c) <= 7) as Hb by (apply Rabs_le; destruct Hk as [-> | ->]; lra).
  specialize (Hr Hb ltac:(lra)). destruct Hk as [-> | ->]; lra.
Qed.

Lemma sin_component (a : R) :
  Rabs a <= 2 ->
  - (15 / 10 ^ 15) <= Rounded.rnd A (7 * Rounded.math_sin A a) - 7 * sin a
    <= 15 / 10 ^ 15.
Proof.
  intros Ha.
  pose proof (Rounded.sin_range A HA a) as Hc.
  pose proof (Rounded.sin_error A HA a Ha) as He. apply Rabs_le_elim in He.
  unfold Rounded.unit_roundoff in He.
  set (c := Rounded.math_sin A a) in *.
  pose proof (rnd_within (7 * c) 7) as Hr.
  assert (Rabs (7 * c) <= 7) as Hb by (apply Rabs_le; lra).
  specialize (Hr Hb ltac:(lra)). lra.
Qed.

(** A velocity whose components are that close to [(k cos a, 7 sin a)]
    has the square of its length within [1e-12] of 49. *)
Lemma speed_near (vx vy k a : R) :
  k = 7 \/ k = -7 ->
  - (15 / 10 ^ 15) <= vx - k * cos a <= 15 / 10 ^ 15 ->
  - (15 / 10 ^ 15) <= vy - 7 * sin a <= 15 / 10 ^ 15 ->
  Rabs (vx² + vy² - 49) <= 1 / 10 ^ 12.
Proof.
  intros Hk Hx Hy.
  pose proof (sin2_cos2 a) as H1. pose proof (COS_bound a) as Hc.
  pose proof (SIN_bound a) as Hs. unfold Rsqr in *.
  set (c := cos a) in *. set (s := sin a) in *.
  assert (exists e1, vx = k * c + e1 /\ - (15 / 10 ^ 15) <= e1 <= 15 / 10 ^ 15)
    as (e1 & -> & He1) by (exists (vx - k * c); split; [ring | exact Hx]).
  assert (exists e2, vy = 7 * s + e2 /\ - (15 / 10 ^ 15) <= e2 <= 15 / 10 ^ 15)
    as (e2 & -> & He2) by (exists (vy - 7 * s); split; [ring | exact Hy]).
  clear Hx Hy.
  assert (k * k = 49) as Hkk by (destruct Hk as [-> | ->]; lra).
  assert ((k * c + e1) * (k * c + e1) + (7 * s + e2) * (7 * s + e2) - 49
          = 2 * k * (c * e1) + 14 * (s * e2) + e1 * e1 + e2 * e2) as ->.
  { destruct Hk as [-> | ->]; nra. }
  assert (- (15 / 10 ^ 15) <= c * e1 <= 15 / 10 ^ 15) as P1 by (split; nra).
  assert (- (15 / 10 ^ 15) <= s * e2 <= 15 / 10 ^ 15) as P2 by (split; nra).
  assert (0 <= e1 * e1 <= 1 / 10 ^ 15) as P3 by (split; nra).
  assert (0 <= e2 * e2 <= 1 / 10 ^ 15) as P4 by (split; nra).
  apply Rabs_le. destruct Hk as [-> | ->]; lra.
Qed.

End Arithmetic.

(** ** Binary64 rounding on the reals *)

Section Nearest.

Open Scope R_scope.

Lemma nearest_even_cases (r : R) :
  let f := Zfloor r in
  (Rounded.nearest_even r = f /\ r - IZR f <= 1 / 2) \/
  (Rounded.nearest_even r = (f + 1)%Z /\ 1 / 2 <= r - IZR f).
Proof.
  cbv zeta. unfold Rounded.nearest_even.
  destruct (Rlt_dec _ _); [left; split; [reflexivity | lra] |].
  destruct (Rlt_dec _ _); [right; split; [reflexivity | lra] |].
  destruct (Z.even _); [left | right]; split; try reflexivity; lra.
Qed.

Lemma nearest_even_error (r : R) : - (1 / 2) <= IZR (Rounded.nearest_even r) - r <= 1 / 2.
Proof.
  pose proof (Zfloor_bound r) as Hb.
  destruct (nearest_even_cases r) as [[-> H] | [-> H]]; rewrite ?plus_IZR; lra.
Qed.

Lemma nearest_even_IZR (k : Z) : Rounded.nearest_even (IZR k) = k.
Proof.
  unfold Rounded.nearest_even. rewrite ZfloorZ, Rminus_diag.
  destruct (Rlt_dec 0 (1 / 2)); [reflexivity | lra].
Qed.

Lemma nearest_even_monotone (r s : R) :
  r <= s -> (Rounded.nearest_even r <= Rounded.nearest_even s)%Z.
Proof.
  intros Hrs. pose proof (Zfloor_le r s Hrs) as Hf.
  pose proof (Zfloor_bound r) as Hr. pose proof (Zfloor_bound s) as Hs.
  destruct (Z.eq_dec (Zfloor r) (Zfloor s)) as [He | Hne].
  - unfold Rounded.nearest_even. rewrite He in *.
    destruct (Rlt_dec (r - _) _); destruct (Rlt_dec (s - _) _);
      try destruct (Rlt_dec _ (r - _)); try destruct (Rlt_dec _ (s - _));
      try destruct (Z.even _); try lia; lra.
  - destruct (nearest_even_cases r) as [[-> _] | [-> _]];
      destruct (nearest_even_cases s) as [[-> _] | [-> _]]; lia.
Qed.

Lemma nearest_even_ge (k : Z) (r : R) : IZR k <= r -> (k <= Rounded.nearest_even r)%Z.
Proof.
  intros H. apply nearest_even_monotone in H. now rewrite nearest_even_IZR in H.
Qed.

Lemma nearest_even_le (k : Z) (r : R) : r <= IZR k -> (Rounded.nearest_even r <= k)%Z.
Proof.
  intros H. apply nearest_even_monotone in H. now rewrite nearest_even_IZR in H.
Qed.

End Nearest.

Section Powers.

Open Scope R_scope.

Lemma two_to_pos (e : Z) : 0 < powerRZ 2 e.
Proof. apply powerRZ_lt. lra. Qed.

Lemma two_to_add (a b : Z) : powerRZ 2 (a + b) = powerRZ 2 a * powerRZ 2 b.
Proof. apply powerRZ_add. lra. Qed.

Lemma two_to_le (a b : Z) : (a <= b)%Z -> powerRZ 2 a <= powerRZ 2 b.
Proof.
  intros H. rewrite !powerRZ_Rpower by lra.
  apply Rle_Rpower; [lra | now apply IZR_le].
Qed.

Lemma two_to_lt (a b : Z) : (a < b)%Z -> powerRZ 2 a < powerRZ 2 b.
Proof.
  intros H. rewrite !powerRZ_Rpower by lra.
  apply Rpower_lt; [lra | now apply IZR_lt].
Qed.

Lemma two_to_IZR (k : Z) : (0 <= k)%Z -> powerRZ 2 k = IZR (2 ^ k).
Proof.
  intros Hk. rewrite <- (Z2Nat.id k Hk) at 1 2.
  rewrite <- pow_powerRZ, pow_IZR. reflexivity.
Qed.

(** A positive number lies in the Rounded.binade of its logarithm. *)
Lemma in_its_binade (x : R) :
  0 < x ->
  powerRZ 2 (Zfloor (ln x / ln 2)) <= x < powerRZ 2 (Zfloor (ln x / ln 2) + 1).
Proof.
  intros Hx. pose proof ln_lt_2 as H2.
  pose proof (Zfloor_bound (ln x / ln 2)) as [Hlo Hhi].
  set (e := Zfloor (ln x / ln 2)) in *.
  assert (ln x = ln x / ln 2 * ln 2) as Hq by (field; lra).
  rewrite !powerRZ_Rpower by lra. unfold Rpower.
  rewrite <- (exp_ln x Hx) at 1 2. rewrite plus_IZR.
  split.
  - destruct (Req_dec (IZR e * ln 2) (ln x)) as [-> | Hn]; [lra |].
    apply Rlt_le, exp_increasing. nra.
  - apply exp_increasing. nra.
Qed.

End Powers.

Section RoundPositive.

Open Scope R_scope.

Lemma binade_cases (x : R) :
  (Rounded.binade x = Zfloor (ln x / ln 2) /\ (-1022 <= Rounded.binade x)%Z) \/
  (Rounded.binade x = (-1022)%Z /\ (Zfloor (ln x / ln 2) < -1022)%Z).
Proof. unfold Rounded.binade. lia. Qed.

Lemma quantum_pos (x : R) : 0 < Rounded.quantum x.
Proof. apply two_to_pos. Qed.

Lemma below_next_binade (x : R) : 0 < x -> x < powerRZ 2 (Rounded.binade x + 1).
Proof.
  intros Hx. destruct (in_its_binade x Hx) as [_ Hhi].
  apply Rlt_le_trans with (1 := Hhi). apply two_to_le. unfold Rounded.binade. lia.
Qed.

Lemma quotient_times_quantum (x : R) : x / Rounded.quantum x * Rounded.quantum x = x.
Proof. pose proof (quantum_pos x). field. lra. Qed.

Lemma rnd_pos_error (x : R) :
  - (Rounded.quantum x / 2) <= Rounded.rnd_pos x - x <= Rounded.quantum x / 2.
Proof.
  unfold Rounded.rnd_pos. pose proof (quantum_pos x) as Hq.
  pose proof (nearest_even_error (x / Rounded.quantum x)) as Hn.
  pose proof (quotient_times_quantum x) as Hx.
  set (n := IZR (Rounded.nearest_even (x / Rounded.quantum x))) in *.
  set (t := x / Rounded.quantum x) in *. set (q := Rounded.quantum x) in *.
  replace (n * q - x) with ((n - t) * q) by (rewrite <- Hx; ring).
  split; nra.
Qed.

Lemma half_quantum (x : R) :
  0 < x -> Rounded.quantum x / 2 <= x * powerRZ 2 (-53) + powerRZ 2 (-1075).
Proof.
  intros Hx. unfold Rounded.quantum.
  pose proof (two_to_pos (-53)) as H53. pose proof (two_to_pos (-1075)) as H1075.
  assert (forall e, powerRZ 2 (e - 52) / 2 = powerRZ 2 (e - 53)) as Hhalf.
  { intros e. replace (e - 52)%Z with (e - 53 + 1)%Z by lia.
    rewrite two_to_add. change (powerRZ 2 1) with (2 * 1). lra. }
  rewrite Hhalf.
  destruct (binade_cases x) as [[-> _] | [-> _]].
  - destruct (in_its_binade x Hx) as [Hlo _].
    replace (Zfloor (ln x / ln 2) - 53)%Z with (Zfloor (ln x / ln 2) + -53)%Z by lia.
    rewrite two_to_add. nra.
  - change (-1022 - 53)%Z with (-1075)%Z. nra.
Qed.

Lemma rnd_pos_nonneg (x : R) : 0 < x -> 0 <= Rounded.rnd_pos x.
Proof.
  intros Hx. unfold Rounded.rnd_pos. pose proof (quantum_pos x) as Hq.
  assert (0 <= Rounded.nearest_even (x / Rounded.quantum x))%Z as Hn.
  { apply nearest_even_ge. apply Rlt_le, Rdiv_lt_0_compat; assumption. }
  apply IZR_le in Hn. nra.
Qed.

Lemma rnd_pos_upper (x : R) : 0 < x -> Rounded.rnd_pos x <= powerRZ 2 (Rounded.binade x + 1).
Proof.
  intros Hx. unfold Rounded.rnd_pos. pose proof (quantum_pos x) as Hq.
  pose proof (below_next_binade x Hx) as Hb.
  assert (powerRZ 2 (Rounded.binade x + 1) = IZR (2 ^ 53) * Rounded.quantum x) as He.
  { unfold Rounded.quantum. rewrite <- two_to_IZR, <- two_to_add by lia. f_equal. lia. }
  rewrite He in *.
  assert (Rounded.nearest_even (x / Rounded.quantum x) <= 2 ^ 53)%Z as Hn.
  { apply nearest_even_le. apply Rlt_le.
    apply Rmult_lt_reg_r with (Rounded.quantum x); [assumption |].
    now rewrite quotient_times_quantum. }
  apply IZR_le in Hn. nra.
Qed.

Lemma rnd_pos_lower (x : R) :
  0 < x -> Rounded.binade x = Zfloor (ln x / ln 2) -> powerRZ 2 (Rounded.binade x) <= Rounded.rnd_pos x.
Proof.
  intros Hx Hb. unfold Rounded.rnd_pos. pose proof (quantum_pos x) as Hq.
  destruct (in_its_binade x Hx) as [Hlo _]. rewrite <- Hb in Hlo.
  assert (powerRZ 2 (Rounded.binade x) = IZR (2 ^ 52) * Rounded.quantum x) as He.
  { unfold Rounded.quantum. rewrite <- two_to_IZR, <- two_to_add by lia. f_equal. lia. }
  rewrite He in *.
  assert (2 ^ 52 <= Rounded.nearest_even (x / Rounded.quantum x))%Z as Hn.
  { apply nearest_even_ge.
    apply Rmult_le_reg_r with (Rounded.quantum x); [assumption |].
    now rewrite quotient_times_quantum. }
  apply IZR_le in Hn. nra.
Qed.

Lemma binade_monotone (x y : R) : 0 < x -> x <= y -> (Rounded.binade x <= Rounded.binade y)%Z.
Proof.
  intros Hx Hxy. pose proof ln_lt_2 as H2.
  assert (ln x <= ln y) as Hl.
  { destruct (Req_dec x y) as [-> | Hn]; [lra |].
    apply Rlt_le, ln_increasing; lra. }
  assert (ln x / ln 2 <= ln y / ln 2) as Hq.
  { unfold Rdiv. apply Rmult_le_compat_r; [| exact Hl].
    apply Rlt_le, Rinv_0_lt_compat. lra. }
  apply Zfloor_le in Hq. unfold Rounded.binade. lia.
Qed.

Lemma rnd_pos_monotone (x y : R) : 0 < x -> x <= y -> Rounded.rnd_pos x <= Rounded.rnd_pos y.
Proof.
  intros Hx Hxy. assert (0 < y) as Hy by lra.
  pose proof (binade_monotone x y Hx Hxy) as Hb.
  destruct (Z.eq_dec (Rounded.binade x) (Rounded.binade y)) as [He | Hne].
  - unfold Rounded.rnd_pos, Rounded.quantum. rewrite He.
    pose proof (two_to_pos (Rounded.binade y - 52)) as Hq.
    set (q := powerRZ 2 (Rounded.binade y - 52)) in *.
    assert (x / q <= y / q) as Hd.
    { unfold Rdiv. apply Rmult_le_compat_r; [| exact Hxy].
      apply Rlt_le, Rinv_0_lt_compat. exact Hq. }
    apply nearest_even_monotone, IZR_le in Hd. nra.
  - apply Rle_trans with (powerRZ 2 (Rounded.binade x + 1)); [now apply rnd_pos_upper |].
    apply Rle_trans with (powerRZ 2 (Rounded.binade y)); [apply two_to_le; lia |].
    apply rnd_pos_lower; [exact Hy |].
    destruct (binade_cases y) as [[H _] | [H _]]; [exact H |].
    destruct (binade_cases x) as [[_ H'] | [H' _]]; lia.
Qed.

Lemma rnd_pos_IZR (z : Z) : (0 < z <= 2 ^ 53)%Z -> Rounded.rnd_pos (IZR z) = IZR z.
Proof.
  intros [Hz0 Hz1].
  assert (0 < IZR z) as Hx by now apply IZR_lt.
  destruct (in_its_binade (IZR z) Hx) as [Hlo Hhi].
  set (e := Zfloor (ln (IZR z) / ln 2)) in *.
  assert (0 <= e)%Z as He0.
  { destruct (Z_lt_le_dec e 0) as [Hneg | Hpos]; [| exact Hpos].
    assert (powerRZ 2 (e + 1) <= powerRZ 2 0) as H by (apply two_to_le; lia).
    change (powerRZ 2 0) with 1 in H.
    assert (1 <= IZR z) by (apply (IZR_le 1); lia). lra. }
  assert (e <= 53)%Z as He1.
  { destruct (Z_lt_le_dec 53 e) as [Hbig | Hsmall]; [| exact Hsmall].
    assert (powerRZ 2 54 <= powerRZ 2 e) as H by (apply two_to_le; lia).
    rewrite (two_to_IZR 54) in H by lia.
    assert (IZR z <= IZR (2 ^ 53)) by now apply IZR_le.
    assert (IZR (2 ^ 53) < IZR (2 ^ 54)) by (apply IZR_lt; lia). lra. }
  assert (Rounded.binade (IZR z) = e) as Hb by (unfold Rounded.binade; fold e; lia).
  unfold Rounded.rnd_pos, Rounded.quantum. rewrite Hb.
  destruct (Z.eq_dec e 53) as [-> | Hne].
  - rewrite (two_to_IZR 53) in Hlo by lia. apply le_IZR in Hlo.
    assert (z = 2 ^ 53)%Z as -> by lia.
    change (53 - 52)%Z with 1%Z. change (powerRZ 2 1) with (2 * 1).
    replace (IZR (2 ^ 53) / (2 * 1)) with (IZR (2 ^ 52)).
    + rewrite nearest_even_IZR.
      change (2 ^ 52)%Z with 4503599627370496%Z.
      change (2 ^ 53)%Z with 9007199254740992%Z. lra.
    + change (2 ^ 52)%Z with 4503599627370496%Z.
      change (2 ^ 53)%Z with 9007199254740992%Z. lra.
  - pose proof (two_to_pos (e - 52)) as Hq.
    assert (powerRZ 2 (e - 52) * IZR (2 ^ (52 - e)) = 1) as Hinv.
    { rewrite <- two_to_IZR, <- two_to_add by lia.
      replace (e - 52 + (52 - e))%Z with 0%Z by lia. reflexivity. }
    replace (IZR z / powerRZ 2 (e - 52)) with (IZR (z * 2 ^ (52 - e))).
    + rewrite nearest_even_IZR, mult_IZR. nra.
    + rewrite mult_IZR. field_simplify_eq; [nra | lra].
Qed.

End RoundPositive.

Section Round64.

Open Scope R_scope.

Lemma rnd64_pos (x : R) : 0 < x -> Rounded.rnd64 x = Rounded.rnd_pos x.
Proof. intros H. unfold Rounded.rnd64. destruct (Rlt_dec 0 x); [reflexivity | lra]. Qed.

Lemma rnd64_neg (x : R) : x < 0 -> Rounded.rnd64 x = - Rounded.rnd_pos (- x).
Proof.
  intros H. unfold Rounded.rnd64. destruct (Rlt_dec 0 x); [lra |].
  destruct (Rlt_dec x 0); [reflexivity | lra].
Qed.

Lemma rnd64_0 : Rounded.rnd64 0 = 0.
Proof.
  unfold Rounded.rnd64. destruct (Rlt_dec 0 0); [lra |]. destruct (Rlt_dec 0 0); [lra | reflexivity].
Qed.

Lemma rnd64_monotone (x y : R) : x <= y -> Rounded.rnd64 x <= Rounded.rnd64 y.
Proof.
  intros Hxy.
  destruct (Rlt_dec 0 x) as [Hx | Hx].
  - rewrite (rnd64_pos x Hx), (rnd64_pos y) by lra. now apply rnd_pos_monotone.
  - destruct (Rlt_dec x 0) as [Hx' | Hx'].
    + rewrite (rnd64_neg x Hx').
      pose proof (rnd_pos_nonneg (- x) ltac:(lra)) as Hn.
      destruct (Rlt_dec 0 y) as [Hy | Hy].
      * rewrite (rnd64_pos y Hy). pose proof (rnd_pos_nonneg y Hy). lra.
      * destruct (Rlt_dec y 0) as [Hy' | Hy'].
        -- rewrite (rnd64_neg y Hy').
           pose proof (rnd_pos_monotone (- y) (- x) ltac:(lra) ltac:(lra)). lra.
        -- assert (y = 0) as -> by lra. rewrite rnd64_0. lra.
    + assert (x = 0) as -> by lra. rewrite rnd64_0.
      destruct (Rlt_dec 0 y) as [Hy | Hy].
      * rewrite (rnd64_pos y Hy). now apply rnd_pos_nonneg.
      * assert (y = 0) as -> by lra. rewrite rnd64_0. lra.
Qed.

Lemma rnd64_IZR (z : Z) : (Z.abs z <= 2 ^ 53)%Z -> Rounded.rnd64 (IZR z) = IZR z.
Proof.
  intros Hz. destruct (Z.lt_trichotomy z 0) as [Hn | [-> | Hp]].
  - rewrite rnd64_neg by (apply (IZR_lt _ 0); lia).
    rewrite <- opp_IZR, rnd_pos_IZR by lia. rewrite opp_IZR. lra.
  - apply rnd64_0.
  - rewrite rnd64_pos by (apply (IZR_lt 0); lia). apply rnd_pos_IZR. lia.
Qed.

Lemma rnd64_error (x : R) :
  Rabs (Rounded.rnd64 x - x) <= Rabs x * powerRZ 2 (-53) + powerRZ 2 (-1075).
Proof.
  pose proof (two_to_pos (-53)) as H53. pose proof (two_to_pos (-1075)) as H1075.
  destruct (Rlt_dec 0 x) as [Hx | Hx].
  - rewrite (rnd64_pos x Hx), (Rabs_pos_eq x) by lra.
    pose proof (rnd_pos_error x). pose proof (half_quantum x Hx).
    apply Rabs_le. lra.
  - destruct (Rlt_dec x 0) as [Hx' | Hx'].
    + rewrite (rnd64_neg x Hx'), (Rabs_left x) by lra.
      pose proof (rnd_pos_error (- x)). pose proof (half_quantum (- x) ltac:(lra)).
      apply Rabs_le. lra.
    + assert (x = 0) as -> by lra.
      rewrite rnd64_0, Rminus_diag, Rabs_R0. lra.
Qed.

Lemma two_to_minus_53 : powerRZ 2 (-53) <= 2 / 10 ^ 16.
Proof. cbn [powerRZ]. replace (Pos.to_nat 53) with 53%nat by reflexivity. lra. Qed.

Lemma two_to_minus_1075 : powerRZ 2 (-1075) <= 1 / 10 ^ 18.
Proof.
  apply Rle_trans with (powerRZ 2 (-60)); [apply two_to_le; lia |].
  cbn [powerRZ]. replace (Pos.to_nat 60) with 60%nat by reflexivity. lra.
Qed.


Lemma nearest_even_near (k : Z) (r : R) :
  Rabs (r - IZR k) < 1 / 2 -> Rounded.nearest_even r = k.
Proof.
  intros H. apply Rabs_def2 in H. pose proof (nearest_even_error r) as He.
  assert (k - 1 < Rounded.nearest_even r < k + 1)%Z as Hk.
  { split; apply lt_IZR; rewrite ?minus_IZR, ?plus_IZR; lra. }
  lia.
Qed.

(** A number of the binade [e] whose quotient by the quantum is nearer to
    [k] than to any other integer is rounded to [k] quanta. *)
Lemma rnd64_in_binade (x : R) (e k : Z) :
  (-1022 <= e)%Z -> powerRZ 2 e <= x < powerRZ 2 (e + 1) ->
  Rabs (x / powerRZ 2 (e - 52) - IZR k) < 1 / 2 ->
  Rounded.rnd64 x = IZR k * powerRZ 2 (e - 52).
Proof.
  intros He [Hlo Hhi] Hk. pose proof (two_to_pos e) as Hp.
  assert (0 < x) as Hx by lra.
  destruct (in_its_binade x Hx) as [Hlo' Hhi'].
  assert (Zfloor (ln x / ln 2) = e) as He0.
  { set (e0 := Zfloor (ln x / ln 2)) in *.
    destruct (Z.lt_trichotomy e0 e) as [Hlt | [Heq | Hgt]]; [| exact Heq |].
    - pose proof (two_to_le (e0 + 1) e ltac:(lia)). lra.
    - pose proof (two_to_le (e + 1) e0 ltac:(lia)). lra. }
  rewrite (rnd64_pos x Hx). unfold Rounded.rnd_pos, Rounded.quantum, Rounded.binade.
  rewrite He0, Z.max_r by lia. now rewrite (nearest_even_near k).
Qed.

(** The literals of the presets are the decimal numbers rounded. *)
Lemma literals_are_rounded :
  Rounded.rnd64 (1 / 10) = Rounded.literal_0_1 /\
  Rounded.rnd64 (2 / 10) = Rounded.literal_0_2 /\
  Rounded.rnd64 (3 / 10) = Rounded.literal_0_3.
Proof.
  unfold Rounded.literal_0_1, Rounded.literal_0_2, Rounded.literal_0_3.
  assert (powerRZ 2 (-4) = 1 / 16 /\ powerRZ 2 (-3) = 1 / 8 /\ powerRZ 2 (-2) = 1 / 4 /\
          powerRZ 2 (-1) = 1 / 2) as (P4 & P3 & P2 & P1).
  { cbn [powerRZ].
    replace (Pos.to_nat 4) with 4%nat by reflexivity.
    replace (Pos.to_nat 3) with 3%nat by reflexivity.
    replace (Pos.to_nat 2) with 2%nat by reflexivity.
    replace (Pos.to_nat 1) with 1%nat by reflexivity.
    repeat split; lra. }
  assert (powerRZ 2 (-56) = 1 / 72057594037927936 /\
          powerRZ 2 (-55) = 1 / 36028797018963968 /\
          powerRZ 2 (-54) = 1 / 18014398509481984) as (Q56 & Q55 & Q54).
  { cbn [powerRZ].
    replace (Pos.to_nat 56) with 56%nat by reflexivity.
    replace (Pos.to_nat 55) with 55%nat by reflexivity.
    replace (Pos.to_nat 54) with 54%nat by reflexivity.
    repeat split; lra. }
  repeat split.
  - rewrite (rnd64_in_binade (1 / 10) (-4) 7205759403792794).
    + change (-4 - 52)%Z with (-56)%Z. rewrite Q56. lra.
    + lia.
    + change (-4 + 1)%Z with (-3)%Z. rewrite P4, P3. lra.
    + change (-4 - 52)%Z with (-56)%Z. rewrite Q56. apply Rabs_def1; lra.
  - rewrite (rnd64_in_binade (2 / 10) (-3) 7205759403792794).
    + change (-3 - 52)%Z with (-55)%Z. rewrite Q55. lra.
    + lia.
    + change (-3 + 1)%Z with (-2)%Z. rewrite P3, P2. lra.
    + change (-3 - 52)%Z with (-55)%Z. rewrite Q55. apply Rabs_def1; lra.
  - rewrite (rnd64_in_binade (3 / 10) (-2) 5404319552844595).
    + change (-2 - 52)%Z with (-54)%Z. rewrite Q54. lra.
    + lia.
    + change (-2 + 1)%Z with (-1)%Z. rewrite P2, P1. lra.
    + change (-2 - 52)%Z with (-54)%Z. rewrite Q54. apply Rabs_def1; lra.
Qed.

(** Binary64 arithmetic is one of the arithmetics [Rounded.sound]
    admits. *)
Lemma binary64_sound : Rounded.sound Rounded.binary64.
Proof.
  pose proof two_to_minus_53 as H53. pose proof two_to_minus_1075 as H1075.
  pose proof (two_to_pos (-53)) as P53. pose proof (two_to_pos (-1075)) as P1075.
  assert (forall y, -1 <= y <= 1 -> -1 <= Rounded.rnd64 y <= 1) as Hrange.
  { intros y [Hlo Hhi]. split.
    - rewrite <- (rnd64_IZR (-1)) by (cbn; lia). now apply rnd64_monotone.
    - rewrite <- (rnd64_IZR 1) by (cbn; lia). now apply rnd64_monotone. }
  assert (forall y, -1 <= y <= 1 ->
            Rabs (Rounded.rnd64 y - y) <= Rounded.unit_roundoff) as Herr.
  { intros y Hy. pose proof (rnd64_error y) as He.
    assert (Rabs y <= 1) as Ha by (apply Rabs_le; lra).
    pose proof (Rabs_pos y). unfold Rounded.unit_roundoff. nra. }
  constructor; cbn [Rounded.binary64 Rounded.rnd Rounded.math_sin Rounded.math_cos
                    Rounded.math_pi].
  - apply rnd64_monotone.
  - intros z Hz. apply rnd64_IZR. unfold Rounded.max_exact in Hz.
    change (2 ^ 53)%Z with 9007199254740992%Z. exact Hz.
  - intros x _. pose proof (rnd64_error x) as He. pose proof (Rabs_pos x).
    unfold Rounded.unit_roundoff, Rounded.underflow. nra.
  - intros x. apply Hrange, SIN_bound.
  - intros x. apply Hrange, COS_bound.
  - intros x _. apply Herr, SIN_bound.
  - intros x _. apply Herr, COS_bound.
  - pose proof (rnd64_error PI) as He. pose proof PI_4. pose proof PI_RGT_0.
    rewrite (Rabs_pos_eq PI) in He by lra. unfold Rounded.unit_roundoff. nra.
Qed.

End Round64.

(** ** Paddle bounces *)

Section RoundedBounce.

Open Scope R_scope.
Import Game.

Lemma clamp_cases (q : R) :
  (q <= -1 -> Rmax (-1) (Rmin 1 q) = -1) /\
  (-1 <= q <= 1 -> Rmax (-1) (Rmin 1 q) = q) /\
  (1 <= q -> Rmax (-1) (Rmin 1 q) = 1).
Proof.
  unfold Rmax, Rmin.
  destruct (Rle_dec 1 q); destruct (Rle_dec (-1) _); repeat split; intros; lra.
Qed.

Variable A : Rounded.Arith.
Hypothesis HA : Rounded.sound A.

(** [PADDLE_HEIGHT / 2] is 50 without error, and a quotient of at least 1
    in magnitude is not rounded below 1. *)
Lemma quotient_beyond_paddle_end (b p : Rect.t) :
  ((50 <= Rect.centery b - Rect.centery p)%Z -> 1 <= Rounded.quotient A b p) /\
  ((Rect.centery b - Rect.centery p <= -50)%Z -> Rounded.quotient A b p <= -1).
Proof.
  unfold Rounded.quotient.
  replace (IZR PADDLE_HEIGHT / 2) with (IZR 50) by (unfold PADDLE_HEIGHT; lra).
  rewrite (rnd_IZR A HA 50) by (cbn; lia).
  set (d := (Rect.centery b - Rect.centery p)%Z).
  split; intros Hd.
  - apply (IZR_le 50) in Hd.
    rewrite <- (rnd_IZR A HA 1) at 1 by (cbn; lia).
    apply (Rounded.rnd_monotone A HA). lra.
  - apply (IZR_le _ (-50)) in Hd.
    rewrite <- (rnd_IZR A HA (-1)) by (cbn; lia).
    apply (Rounded.rnd_monotone A HA). lra.
Qed.

Lemma rounded_left_collision_velocity (s : State) :
  Rect.colliderect (Ball.rect (ball s)) (Paddle.rect (left_paddle s)) = true ->
  Ball.vx (ball s) < 0 ->
  let o := Rounded.hit_offset A (Ball.rect (ball s)) (Paddle.rect (left_paddle s)) in
  let angle := Rounded.rnd A (o * Rounded.MAX_ANGLE A) in
  ball (fst (Rounded.left_collision A s))
    = Ball.mk (Rect.set_left (Rect.right (Paddle.rect (left_paddle s)) + 1)
                             (Ball.rect (ball s)))
              (Rounded.rnd A (7 * Rounded.math_cos A angle))
              (Rounded.rnd A (7 * Rounded.math_sin A angle)).
Proof.
  intros Hc Hv. unfold Rounded.left_collision. rewrite Hc, (Rltb_true _ _ Hv).
  reflexivity.
Qed.

Lemma rounded_right_collision_velocity (s : State) :
  Rect.colliderect (Ball.rect (ball s)) (Paddle.rect (right_paddle s)) = true ->
  0 < Ball.vx (ball s) ->
  let o := Rounded.hit_offset A (Ball.rect (ball s)) (Paddle.rect (right_paddle s)) in
  let angle := Rounded.rnd A (o * Rounded.MAX_ANGLE A) in
  ball (fst (Rounded.right_collision A s))
    = Ball.mk (Rect.set_right (Rect.left (Paddle.rect (right_paddle s)) - 1)
                              (Ball.rect (ball s)))
              (Rounded.rnd A (-7 * Rounded.math_cos A angle))
              (Rounded.rnd A (7 * Rounded.math_sin A angle)).
Proof.
  intros Hc Hv. unfold Rounded.right_collision. rewrite Hc, (Rltb_true _ _ Hv).
  cbn [fst ball set_ball]. unfold BALL_SPEED.
  replace (- 7 * Rounded.math_cos A
             (Rounded.rnd A
                (Rounded.hit_offset A (Ball.rect (ball s)) (Paddle.rect (right_paddle s))
                 * Rounded.MAX_ANGLE A)))
    with (-7 * Rounded.math_cos A
             (Rounded.rnd A
                (Rounded.hit_offset A (Ball.rect (ball s)) (Paddle.rect (right_paddle s))
                 * Rounded.MAX_ANGLE A))) by lra.
  reflexivity.
Qed.

(** The velocity computed from a clamped offset [o]: its components are
    within [4.3e-14] of those at the angle [o * pi / 3], and the square of
    its length within [1e-12] of 49. *)
Lemma bounce_components (k o : R) :
  k = 7 \/ k = -7 -> -1 <= o <= 1 ->
  let angle := Rounded.rnd A (o * Rounded.MAX_ANGLE A) in
  let vx := Rounded.rnd A (k * Rounded.math_cos A angle) in
  let vy := Rounded.rnd A (7 * Rounded.math_sin A angle) in
  Rabs (vx² + vy² - 49) <= 1 / 10 ^ 12 /\
  - (43 / 10 ^ 15) <= vx - k * cos (o * (PI / 3)) <= 43 / 10 ^ 15 /\
  - (43 / 10 ^ 15) <= vy - 7 * sin (o * (PI / 3)) <= 43 / 10 ^ 15.
Proof.
  intros Hk Ho. cbv zeta.
  pose proof (angle_near A HA o Ho) as Ha.
  set (a := Rounded.rnd A (o * Rounded.MAX_ANGLE A)) in *.
  pose proof PI_4 as H4. pose proof PI_RGT_0 as H0.
  assert (- (3 / 2) <= o * (PI / 3) <= 3 / 2) as Hb by (split; nra).
  assert (Rabs a <= 2) as Ha2 by (apply Rabs_le; lra).
  pose proof (cos_component A HA k a Hk Ha2) as Hx.
  pose proof (sin_component A HA a Ha2) as Hy.
  split; [now apply (speed_near _ _ k a) |].
  pose proof (cos_lipschitz a (o * (PI / 3))) as Lc.
  pose proof (sin_lipschitz a (o * (PI / 3))) as Ls.
  assert (Rabs (a - o * (PI / 3)) <= 4 / 10 ^ 15) as Hd by (apply Rabs_le; lra).
  apply Rabs_le_elim in Lc, Ls.
  destruct Hk as [-> | ->]; split; lra.
Qed.

End RoundedBounce.

(** C7: the offset that enters the deflection angle is the quotient
    [(ball_center_y - paddle_center_y) / (PADDLE_HEIGHT / 2)], as the
    floats give it, cut to [-1, 1]: it is -1 when the quotient is at most
    -1, the quotient itself between -1 and 1, and 1 when the quotient is
    at least 1.  So it lies in [-1, 1] for every pair of rectangles, and
    with the ball's centre 50 pixels or more from the paddle's, which
    includes every position outside the paddle's span, it is exactly -1 or
    1.  Both collision responses compute the angle and the new velocity
    from that clamped value. *)
Theorem hit_offset_is_the_clamped_quotient
  (A : Rounded.Arith) (s : Game.State) (b p : Rect.t) :
  Rounded.sound A ->
  let d := (Rect.centery b - Rect.centery p)%Z in
  let q := Rounded.quotient A b p in
  let o := Rounded.hit_offset A b p in
  (q = Rounded.rnd A (IZR d / Rounded.rnd A (IZR PADDLE_HEIGHT / 2)) /\
   -1 <= o <= 1 /\
   (q <= -1 -> o = -1) /\ (-1 <= q <= 1 -> o = q) /\ (1 <= q -> o = 1) /\
   ((d <= -50)%Z -> o = -1) /\ ((50 <= d)%Z -> o = 1))%R /\
  (Rect.colliderect (Ball.rect (Game.ball s)) (Paddle.rect (Game.left_paddle s)) = true ->
   (Ball.vx (Game.ball s) < 0)%R ->
   let ol := Rounded.hit_offset A (Ball.rect (Game.ball s))
                                (Paddle.rect (Game.left_paddle s)) in
   let angle := Rounded.rnd A (ol * Rounded.MAX_ANGLE A) in
   let b' := Game.ball (fst (Rounded.left_collision A s)) in
   Ball.vx b' = Rounded.rnd A (7 * Rounded.math_cos A angle) /\
   Ball.vy b' = Rounded.rnd A (7 * Rounded.math_sin A angle)) /\
  (Rect.colliderect (Ball.rect (Game.ball s)) (Paddle.rect (Game.right_paddle s)) = true ->
   (0 < Ball.vx (Game.ball s))%R ->
   let or := Rounded.hit_offset A (Ball.rect (Game.ball s))
                                (Paddle.rect (Game.right_paddle s)) in
   let angle := Rounded.rnd A (or * Rounded.MAX_ANGLE A) in
   let b' := Game.ball (fst (Rounded.right_collision A s)) in
   Ball.vx b' = Rounded.rnd A (-7 * Rounded.math_cos A angle) /\
   Ball.vy b' = Rounded.rnd A (7 * Rounded.math_sin A angle)).
Proof.
  intros HA. cbv zeta.
  destruct (clamp_cases (Rounded.quotient A b p)) as (Hlo & Hmid & Hhi).
  destruct (quotient_beyond_paddle_end A HA b p) as [Hbelow Habove].
  split; [| split].
  - split; [reflexivity |]. split; [apply clamp_bounds |].
    split; [exact Hlo |]. split; [exact Hmid |]. split; [exact Hhi |].
    split; intros Hd.
    + apply Hlo, Habove, Hd.
    + apply Hhi, Hbelow, Hd.
  - intros Hc Hv. rewrite (rounded_left_collision_velocity A s Hc Hv).
    split; reflexivity.
  - intros Hc Hv. rewrite (rounded_right_collision_velocity A s Hc Hv).
    split; reflexivity.
Qed.

(** The ball's centre 52 pixels below the paddle's, 2 pixels beyond its
    end: the quotient is 1.04, the offset used is 1, and the ball leaves
    at the largest angle. *)
Lemma hit_offset_is_the_clamped_quotient_witness :
  let s := Scenario.low_on_left_paddle in
  let b := Ball.rect (Game.ball s) in
  let p := Paddle.rect (Game.left_paddle s) in
  (Rect.centery b - Rect.centery p = 52)%Z /\
  Rounded.hit_offset Rounded.binary64 b p = 1%R /\
  Ball.vy (Game.ball (fst (Rounded.left_collision Rounded.binary64 s)))
    = Rounded.rnd64
        (7 * Rounded.rnd64
               (sin (Rounded.rnd64 (1 * Rounded.MAX_ANGLE Rounded.binary64))))%R.
Proof.
  cbv zeta.
  destruct (hit_offset_is_the_clamped_quotient Rounded.binary64
              Scenario.low_on_left_paddle
              (Ball.rect (Game.ball Scenario.low_on_left_paddle))
              (Paddle.rect (Game.left_paddle Scenario.low_on_left_paddle))
              binary64_sound) as ((_ & _ & _ & _ & _ & _ & Hend) & Hleft & _).
  assert (Rounded.hit_offset Rounded.binary64
            (Ball.rect (Game.ball Scenario.low_on_left_paddle))
            (Paddle.rect (Game.left_paddle Scenario.low_on_left_paddle)) = 1%R) as Ho.
  { apply Hend. cbn. lia. }
  split; [reflexivity |]. split; [exact Ho |].
  destruct Hleft as [_ Hvy]; [reflexivity | cbn; lra |].
  rewrite Hvy, Ho. reflexivity.
Defined.

(** C1, as the floats have it: when a collision response fires (the ball
    overlaps the paddle and moves toward it), the new velocity has
    [vx² + vy²] equal to [BALL_SPEED²] up to the rounding of the float
    operations, within [1e-12] whatever the offset of the hit, and [vx]
    points away from the paddle that was struck: positive after the left
    paddle, negative after the right one. *)
Theorem paddle_bounce_speed_up_to_rounding (A : Rounded.Arith) (s : Game.State) :
  Rounded.sound A ->
  (Rect.colliderect (Ball.rect (Game.ball s)) (Paddle.rect (Game.left_paddle s)) = true ->
   (Ball.vx (Game.ball s) < 0)%R ->
   let b' := Game.ball (fst (Rounded.left_collision A s)) in
   (Rabs ((Ball.vx b')² + (Ball.vy b')² - (IZR BALL_SPEED)²) <= 1 / 10 ^ 12 /\
    0 < Ball.vx b')%R) /\
  (Rect.colliderect (Ball.rect (Game.ball s)) (Paddle.rect (Game.right_paddle s)) = true ->
   (0 < Ball.vx (Game.ball s))%R ->
   let b' := Game.ball (fst (Rounded.right_collision A s)) in
   (Rabs ((Ball.vx b')² + (Ball.vy b')² - (IZR BALL_SPEED)²) <= 1 / 10 ^ 12 /\
    Ball.vx b' < 0)%R).
Proof.
  intros HA.
  assert (forall o : R, (-1 <= o <= 1 -> 1 / 2 <= cos (o * (PI / 3)))%R) as Hcos.
  { intros o Ho. apply cos_within_max_angle. now apply offset_angle_within_max. }
  assert (((IZR BALL_SPEED)² = 49)%R) as -> by (unfold BALL_SPEED, Rsqr; lra).
  split; intros Hc Hv; cbv zeta.
  - rewrite (rounded_left_collision_velocity A s Hc Hv). cbn [Ball.vx Ball.vy].
    pose proof (clamp_bounds (Rounded.quotient A (Ball.rect (Game.ball s))
                                (Paddle.rect (Game.left_paddle s)))) as Ho.
    fold (Rounded.hit_offset A (Ball.rect (Game.ball s))
            (Paddle.rect (Game.left_paddle s))) in Ho.
    destruct (bounce_components A HA 7 _ (or_introl eq_refl) Ho) as (Hs & Hx & _).
    split; [exact Hs |]. specialize (Hcos _ Ho). lra.
  - rewrite (rounded_right_collision_velocity A s Hc Hv). cbn [Ball.vx Ball.vy].
    pose proof (clamp_bounds (Rounded.quotient A (Ball.rect (Game.ball s))
                                (Paddle.rect (Game.right_paddle s)))) as Ho.
    fold (Rounded.hit_offset A (Ball.rect (Game.ball s))
            (Paddle.rect (Game.right_paddle s))) in Ho.
    destruct (bounce_components A HA (-7) _ (or_intror eq_refl) Ho) as (Hs & Hx & _).
    split; [exact Hs |]. specialize (Hcos _ Ho). lra.
Qed.

Lemma paddle_bounce_speed_up_to_rounding_witness :
  (let b' := Game.ball (fst (Rounded.left_collision Rounded.binary64 Scenario.at_left_paddle)) in
   (Rabs ((Ball.vx b')² + (Ball.vy b')² - (IZR BALL_SPEED)²) <= 1 / 10 ^ 12 /\
    0 < Ball.vx b')%R) /\
  (let b' := Game.ball (fst (Rounded.right_collision Rounded.binary64
                               Scenario.at_right_paddle)) in
   (Rabs ((Ball.vx b')² + (Ball.vy b')² - (IZR BALL_SPEED)²) <= 1 / 10 ^ 12 /\
    Ball.vx b' < 0)%R).
Proof.
  split.
  - apply (paddle_bounce_speed_up_to_rounding Rounded.binary64 Scenario.at_left_paddle
             binary64_sound); [reflexivity | cbn; lra].
  - apply (paddle_bounce_speed_up_to_rounding Rounded.binary64 Scenario.at_right_paddle
             binary64_sound); [reflexivity | cbn; lra].
Defined.

(** X6: a hit at or beyond an end of the paddle (the centres 50 pixels or
    more apart) deflects by [MAX_ANGLE]: up to the rounding of the float
    operations (within [1e-13]) the horizontal speed is half of
    [BALL_SPEED], away from the paddle, and the vertical speed is
    [BALL_SPEED * sqrt 3 / 2], toward the side of the hit. *)
Theorem bounce_saturates_at_max_angle (A : Rounded.Arith) (s : Game.State) :
  Rounded.sound A ->
  (Rect.colliderect (Ball.rect (Game.ball s)) (Paddle.rect (Game.left_paddle s)) = true ->
   (Ball.vx (Game.ball s) < 0)%R ->
   let cb := Rect.centery (Ball.rect (Game.ball s)) in
   let cp := Rect.centery (Paddle.rect (Game.left_paddle s)) in
   let b' := Game.ball (fst (Rounded.left_collision A s)) in
   (cp + 50 <= cb ->
    (Rabs (Ball.vx b' - 7 / 2) <= 1 / 10 ^ 13 /\
     Rabs (Ball.vy b' - 7 * (sqrt 3 / 2)) <= 1 / 10 ^ 13)%R) /\
   (cb <= cp - 50 ->
    (Rabs (Ball.vx b' - 7 / 2) <= 1 / 10 ^ 13 /\
     Rabs (Ball.vy b' + 7 * (sqrt 3 / 2)) <= 1 / 10 ^ 13)%R)) /\
  (Rect.colliderect (Ball.rect (Game.ball s)) (Paddle.rect (Game.right_paddle s)) = true ->
   (0 < Ball.vx (Game.ball s))%R ->
   let cb := Rect.centery (Ball.rect (Game.ball s)) in
   let cp := Rect.centery (Paddle.rect (Game.right_paddle s)) in
   let b' := Game.ball (fst (Rounded.right_collision A s)) in
   (cp + 50 <= cb ->
    (Rabs (Ball.vx b' + 7 / 2) <= 1 / 10 ^ 13 /\
     Rabs (Ball.vy b' - 7 * (sqrt 3 / 2)) <= 1 / 10 ^ 13)%R) /\
   (cb <= cp - 50 ->
    (Rabs (Ball.vx b' + 7 / 2) <= 1 / 10 ^ 13 /\
     Rabs (Ball.vy b' + 7 * (sqrt 3 / 2)) <= 1 / 10 ^ 13)%R)).
Proof.
  intros HA.
  assert (cos (1 * (PI / 3)) = (1 / 2)%R /\ sin (1 * (PI / 3)) = (sqrt 3 / 2)%R)
    as [Hc1 Hs1].
  { rewrite Rmult_1_l. split; [apply cos_PI3 | apply sin_PI3]. }
  assert (cos (-1 * (PI / 3)) = (1 / 2)%R /\ sin (-1 * (PI / 3)) = (- (sqrt 3 / 2))%R)
    as [Hc2 Hs2].
  { replace (-1 * (PI / 3))%R with (- (PI / 3))%R by lra.
    rewrite cos_neg, sin_neg, cos_PI3, sin_PI3. split; reflexivity. }
  assert (forall b p,
            ((Rect.centery p + 50 <= Rect.centery b) -> Rounded.hit_offset A b p = 1%R) /\
            ((Rect.centery b <= Rect.centery p - 50) -> Rounded.hit_offset A b p = (-1)%R))
    as Hend.
  { intros b p. destruct (clamp_cases (Rounded.quotient A b p)) as (Hlo & _ & Hhi).
    destruct (quotient_beyond_paddle_end A HA b p) as [Hbelow Habove].
    split; intros Hd; [apply Hhi, Hbelow | apply Hlo, Habove]; lia. }
  pose proof (bounce_components A HA 7 1 (or_introl eq_refl) ltac:(lra)) as L1.
  pose proof (bounce_components A HA 7 (-1) (or_introl eq_refl) ltac:(lra)) as L2.
  pose proof (bounce_components A HA (-7) 1 (or_intror eq_refl) ltac:(lra)) as R1.
  pose proof (bounce_components A HA (-7) (-1) (or_intror eq_refl) ltac:(lra)) as R2.
  cbv zeta in L1, L2, R1, R2. rewrite ?Hc1, ?Hs1, ?Hc2, ?Hs2 in L1, L2, R1, R2.
  split; intros Hc Hv; cbv zeta.
  - rewrite (rounded_left_collision_velocity A s Hc Hv). cbn [Ball.vx Ball.vy].
    destruct (Hend (Ball.rect (Game.ball s)) (Paddle.rect (Game.left_paddle s)))
      as [Hlow Hup].
    split; intros Hd.
    + rewrite (Hlow Hd). destruct L1 as (_ & Hx & Hy). split; apply Rabs_le; lra.
    + rewrite (Hup Hd). destruct L2 as (_ & Hx & Hy). split; apply Rabs_le; lra.
  - rewrite (rounded_right_collision_velocity A s Hc Hv). cbn [Ball.vx Ball.vy].
    destruct (Hend (Ball.rect (Game.ball s)) (Paddle.rect (Game.right_paddle s)))
      as [Hlow Hup].
    split; intros Hd.
    + rewrite (Hlow Hd). destruct R1 as (_ & Hx & Hy). split; apply Rabs_le; lra.
    + rewrite (Hup Hd). destruct R2 as (_ & Hx & Hy). split; apply Rabs_le; lra.
Qed.

Lemma bounce_saturates_at_max_angle_witness :
  let b' := Game.ball (fst (Rounded.left_collision Rounded.binary64
                              Scenario.low_on_left_paddle)) in
  (Rabs (Ball.vx b' - 7 / 2) <= 1 / 10 ^ 13 /\
   Rabs (Ball.vy b' - 7 * (sqrt 3 / 2)) <= 1 / 10 ^ 13)%R.
Proof.
  destruct (bounce_saturates_at_max_angle Rounded.binary64 Scenario.low_on_left_paddle
              binary64_sound) as [HL _].
  apply HL; [reflexivity | cbn; lra | cbn; lia].
Defined.

(** ** The same computations on binary64 numbers *)

Section Binary64.

Import PrimFloat.

(** [MAX_ANGLE] is the float 1.0471975511965976; a hit 52 pixels below
    the paddle's centre has the quotient 1.04, the offset 1 and the angle
    [MAX_ANGLE]. *)
Lemma saturated_hit_angle :
  B64.MAX_ANGLE = 0x1.0c152382d7365p+0%float /\
  B64.hit_offset 52 = 1%float /\
  (B64.hit_offset 52 * B64.MAX_ANGLE)%float = B64.MAX_ANGLE.
Proof. repeat split; vm_compute; reflexivity. Qed.

(** The rounding on the reals gives what the processor gives, here for
    the quotient [math.pi / 3] and the product [7 * math.cos(MAX_ANGLE)]. *)
Example rounding_agrees_with_the_processor :
  B64.to_R B64.MAX_ANGLE = Rounded.rnd64 (B64.to_R B64.math_pi / 3)%R /\
  B64.to_R (7 * B64.cos_MAX_ANGLE)%float
    = Rounded.rnd64 (7 * B64.to_R B64.cos_MAX_ANGLE)%R.
Proof.
  assert (B64.to_R B64.math_pi = 884279719003555 / 281474976710656)%R as ->.
  { unfold B64.to_R. set (a := FloatOps.Prim2SF _). vm_compute in a. subst a.
    cbn [powerRZ]. replace (Pos.to_nat 51) with 51%nat by reflexivity. lra. }
  assert (B64.to_R B64.MAX_ANGLE = 4716158501352293 / 4503599627370496)%R as ->.
  { unfold B64.to_R. set (a := FloatOps.Prim2SF _). vm_compute in a. subst a.
    cbn [powerRZ]. replace (Pos.to_nat 52) with 52%nat by reflexivity. lra. }
  assert (B64.to_R B64.cos_MAX_ANGLE = 4503599627370497 / 9007199254740992)%R as ->.
  { unfold B64.to_R. set (a := FloatOps.Prim2SF _). vm_compute in a. subst a.
    cbn [powerRZ]. replace (Pos.to_nat 53) with 53%nat by reflexivity. lra. }
  assert (B64.to_R (7 * B64.cos_MAX_ANGLE)%float
          = 7881299347898370 / 2251799813685248)%R as ->.
  { unfold B64.to_R. set (a := FloatOps.Prim2SF _). vm_compute in a. subst a.
    cbn [powerRZ]. replace (Pos.to_nat 51) with 51%nat by reflexivity. lra. }
  assert (powerRZ 2 0 = 1 /\ powerRZ 2 1 = 2 /\ powerRZ 2 2 = 4)%R as (P0 & P1 & P2).
  { cbn [powerRZ].
    replace (Pos.to_nat 1) with 1%nat by reflexivity.
    replace (Pos.to_nat 2) with 2%nat by reflexivity.
    repeat split; lra. }
  assert (powerRZ 2 (-52) = 1 / 4503599627370496 /\
          powerRZ 2 (-51) = 1 / 2251799813685248)%R as (Q52 & Q51).
  { cbn [powerRZ].
    replace (Pos.to_nat 52) with 52%nat by reflexivity.
    replace (Pos.to_nat 51) with 51%nat by reflexivity.
    split; lra. }
  split.
  - rewrite (rnd64_in_binade _ 0 4716158501352293).
    + change (0 - 52)%Z with (-52)%Z. rewrite Q52. lra.
    + lia.
    + change (0 + 1)%Z with 1%Z. rewrite P0, P1. lra.
    + change (0 - 52)%Z with (-52)%Z. rewrite Q52. apply Rabs_def1; lra.
  - rewrite (rnd64_in_binade _ 1 7881299347898370).
    + change (1 - 52)%Z with (-51)%Z. rewrite Q51. lra.
    + lia.
    + change (1 + 1)%Z with 2%Z. rewrite P1, P2. lra.
    + change (1 - 52)%Z with (-51)%Z. rewrite Q51. apply Rabs_def1; lra.
Qed.

(** C1 fails as stated: at that hit the response computes the velocity
    (3.5000000000000009, 6.0621778264910704); the sum of the squares of
    these two numbers is not 49, and computed in floats it is
    49.000000000000007. *)
Lemma bounce_speed_counterexample :
  let v := B64.velocity 7 B64.cos_MAX_ANGLE B64.sin_MAX_ANGLE in
  v = (0x1.c000000000002p+1, 0x1.83fab8b4d4315p+2)%float /\
  B64.speed_squared v = 0x1.8800000000001p+5%float /\
  PrimFloat.eqb (B64.speed_squared v) 49 = false /\
  ((B64.to_R (fst v))² + (B64.to_R (snd v))² <> 49)%R.
Proof.
  cbv zeta. split; [vm_compute; reflexivity |].
  split; [vm_compute; reflexivity |]. split; [vm_compute; reflexivity |].
  unfold B64.to_R.
  set (a := FloatOps.Prim2SF _). vm_compute in a. subst a.
  set (a := FloatOps.Prim2SF _). vm_compute in a. subst a.
  unfold Rsqr. cbn [powerRZ].
  replace (Pos.to_nat 51) with 51%nat by reflexivity.
  replace (Pos.to_nat 50) with 50%nat by reflexivity.
  lra.
Qed.

End Binary64.

(** ** Serves *)

Section RoundedReset.

Open Scope R_scope.

Variable A : Rounded.Arith.
Hypothesis HA : Rounded.sound A.





End RoundedReset.



Section Binary64Reset.

Import PrimFloat.


End Binary64Reset.

(** ** The movement of the ball *)

Section RoundedMove.

Open Scope R_scope.
Import Game.

Variable A : Rounded.Arith.
Hypothesis HA : Rounded.sound A.

(** The sum of a coordinate and a velocity within 0.49 of [k] whole pixels
    is stored as the coordinate plus [k]. *)
Lemma store_near (x k : Z) (v : R) :
  (Z.abs x <= 1000000)%Z -> (Z.abs k <= 1000000)%Z ->
  Rabs (v - IZR k) <= 49 / 100 ->
  Rounded.pg_round A (Rounded.rnd A (IZR x + v)) = (x + k)%Z.
Proof.
  intros Hx Hk Hv. apply Rabs_le_elim in Hv.
  apply Z.abs_le in Hx. apply Z.abs_le in Hk.
  destruct Hx as [Hx1 Hx2]. destruct Hk as [Hk1 Hk2].
  apply IZR_le in Hx1, Hx2, Hk1, Hk2. rewrite opp_IZR in Hx1, Hk1.
  pose proof (rnd_within A HA (IZR x + v) 3000000) as Hs.
  assert (Rabs (IZR x + v) <= 3000000) as Hb by (apply Rabs_le; lra).
  specialize (Hs Hb ltac:(lra)).
  set (s := Rounded.rnd A (IZR x + v)) in *.
  unfold Rounded.pg_round. destruct (Rlt_dec s 0).
  - pose proof (rnd_within A HA (s - 1 / 2) 3000000) as Ht.
    assert (Rabs (s - 1 / 2) <= 3000000) as Hb' by (apply Rabs_le; lra).
    specialize (Ht Hb' ltac:(lra)).
    apply Zceil_eq. rewrite plus_IZR. lra.
  - pose proof (rnd_within A HA (s + 1 / 2) 3000000) as Ht.
    assert (Rabs (s + 1 / 2) <= 3000000) as Hb' by (apply Rabs_le; lra).
    specialize (Ht Hb' ltac:(lra)).
    apply Zfloor_eq. rewrite plus_IZR. lra.
Qed.

(** One frame of a ball whose velocity is within 0.49 of [(kx, ky)]. *)
Lemma move_near (r : Rect.t) (vx vy : R) (kx ky : Z) :
  (Z.abs (Rect.x r) <= 1000000)%Z -> (Z.abs kx <= 1000000)%Z ->
  (Z.abs (Rect.y r) <= 1000000)%Z -> (Z.abs ky <= 1000000)%Z ->
  Rabs (vx - IZR kx) <= 49 / 100 -> Rabs (vy - IZR ky) <= 49 / 100 ->
  Rounded.move A (Ball.mk r vx vy)
    = Ball.mk (Rect.mk (Rect.x r + kx) (Rect.y r + ky) (Rect.w r) (Rect.h r)) vx vy.
Proof.
  intros Hx Hkx Hy Hky Hvx Hvy.
  unfold Rounded.move, Rect.set_x, Rect.set_y.
  cbn [Ball.rect Ball.vx Ball.vy Rect.x Rect.y Rect.w Rect.h].
  now rewrite (store_near _ kx), (store_near _ ky).
Qed.


End RoundedMove.

(** C10, as the code has it: [move] adds each velocity component to the
    coordinate in floats and stores the sum rounded to the nearest
    integer, a half going away from zero; size and velocity are kept.  On
    a playfield (coordinates of at most a million in magnitude) a
    component within 0.49 of a whole number [k] of pixels moves the
    coordinate by [k]; so a component of absolute value at most 0.49
    leaves the coordinate where it is, and one of absolute value between
    0.51 and 1.49 moves it by one pixel in its direction. *)
Theorem move_rounds_the_sum (A : Rounded.Arith) (b : Ball.t) :
  Rounded.sound A ->
  let r := Ball.rect b in
  let r' := Ball.rect (Rounded.move A b) in
  Rect.x r' = Rounded.pg_round A (Rounded.rnd A (IZR (Rect.x r) + Ball.vx b)) /\
  Rect.y r' = Rounded.pg_round A (Rounded.rnd A (IZR (Rect.y r) + Ball.vy b)) /\
  Rect.w r' = Rect.w r /\ Rect.h r' = Rect.h r /\
  Ball.vx (Rounded.move A b) = Ball.vx b /\ Ball.vy (Rounded.move A b) = Ball.vy b /\
  (forall k : Z,
     Z.abs (Rect.x r) <= 1000000 -> Z.abs k <= 1000000 ->
     (Rabs (Ball.vx b - IZR k) <= 49 / 100)%R -> Rect.x r' = Rect.x r + k) /\
  (forall k : Z,
     Z.abs (Rect.y r) <= 1000000 -> Z.abs k <= 1000000 ->
     (Rabs (Ball.vy b - IZR k) <= 49 / 100)%R -> Rect.y r' = Rect.y r + k).
Proof.
  intros HA. cbv zeta. unfold Rounded.move, Rect.set_x, Rect.set_y.
  cbn [Ball.rect Ball.vx Ball.vy Rect.x Rect.y Rect.w Rect.h].
  repeat (split; [reflexivity |]).
  split; intros k Hc Hk Hv; now apply store_near.
Qed.

(** A ball at (400, 300) with the velocity (0.25, -0.75): the first
    coordinate stays, the second moves by one pixel. *)
Lemma move_rounds_the_sum_witness :
  let b := Ball.mk (Rect.mk 400 300 15 15) (1 / 4) (- (3 / 4)) in
  Rect.x (Ball.rect (Rounded.move Rounded.binary64 b)) = 400 /\
  Rect.y (Ball.rect (Rounded.move Rounded.binary64 b)) = 299.
Proof.
  destruct (move_rounds_the_sum Rounded.binary64
              (Ball.mk (Rect.mk 400 300 15 15) (1 / 4) (- (3 / 4))) binary64_sound)
    as (_ & _ & _ & _ & _ & _ & Hx & Hy).
  cbn [Ball.rect Ball.vx Ball.vy Rect.x Rect.y] in Hx, Hy. split.
  - apply (Hx 0); [lia | lia | apply Rabs_le; lra].
  - apply (Hy (-1)); [lia | lia | apply Rabs_le; lra].
Defined.

(** C10 fails as stated: a ball at (400, 300) with the velocity
    (7, 0.75), both components floats, is moved to (407, 301); the
    vertical component is below 1 in absolute value, and the truncation of
    the sum 300.75 would have left it at 300. *)
Lemma move_small_velocity_counterexample :
  let b := Ball.mk (Rect.mk 400 300 15 15) 7 (3 / 4) in
  (Rabs (Ball.vy b) < 1)%R /\
  Ball.rect (Ball.move b) = Rect.mk 407 301 15 15 /\
  py_int (IZR (Rect.y (Ball.rect b)) + Ball.vy b) = 300.
Proof.
  cbv zeta. cbn [Ball.vy Ball.rect Rect.y]. split; [apply Rabs_def1; lra |]. split.
  - unfold Ball.move, Rect.set_x_float, Rect.set_y_float, Rect.set_x, Rect.set_y.
    cbn [Ball.rect Ball.vx Ball.vy Rect.x Rect.y Rect.w Rect.h].
    rewrite (pg_round_near 407) by (apply Rabs_def1; lra).
    rewrite (pg_round_near 301) by (apply Rabs_def1; lra).
    reflexivity.
  - apply py_int_floor_eq; lra.
Qed.



(** X12: the part of a pixel in the velocity is dropped anew in every
    frame and never carried over.  A ball that only moves, with a velocity
    within 0.49 of [(kx, ky)] whole pixels, is after [n] frames exactly
    [n * kx] and [n * ky] pixels from where it started (as long as the
    coordinates stay within a million); its velocity is unchanged. *)
Theorem subpixel_part_is_dropped_every_frame
  (A : Rounded.Arith) (b : Ball.t) (kx ky : Z) (n : nat) :
  Rounded.sound A ->
  (Rabs (Ball.vx b - IZR kx) <= 49 / 100)%R ->
  (Rabs (Ball.vy b - IZR ky) <= 49 / 100)%R ->
  Z.abs (Rect.x (Ball.rect b)) + Z.of_nat n * Z.abs kx <= 1000000 ->
  Z.abs (Rect.y (Ball.rect b)) + Z.of_nat n * Z.abs ky <= 1000000 ->
  Nat.iter n (Rounded.move A) b
    = Ball.mk (Rect.mk (Rect.x (Ball.rect b) + Z.of_nat n * kx)
                       (Rect.y (Ball.rect b) + Z.of_nat n * ky)
                       (Rect.w (Ball.rect b)) (Rect.h (Ball.rect b)))
              (Ball.vx b) (Ball.vy b).
Proof.
  intros HA Hvx Hvy. induction n as [| n IH]; intros Hx Hy.
  - cbn [Nat.iter nat_rect Z.of_nat]. rewrite !Z.mul_0_l, !Z.add_0_r.
    destruct b as [[x y w h] vx vy]. reflexivity.
  - change (Nat.iter (S n) (Rounded.move A) b)
      with (Rounded.move A (Nat.iter n (Rounded.move A) b)).
    rewrite Nat2Z.inj_succ in Hx, Hy.
    rewrite IH by nia.
    rewrite (move_near A HA _ _ _ kx ky); cbn [Rect.x Rect.y Rect.w Rect.h];
      try assumption; try nia.
    rewrite Nat2Z.inj_succ. do 2 f_equal; lia.
Qed.

(** At (3.7, 0.25) pixels per frame the ball advances 4 pixels a frame
    and stays at its height: after 10 frames it is 40 pixels further. *)
Lemma subpixel_part_is_dropped_every_frame_witness :
  Nat.iter 10 (Rounded.move Rounded.binary64)
    (Ball.mk (Rect.mk 400 300 15 15) (37 / 10) (1 / 4))
    = Ball.mk (Rect.mk 440 300 15 15) (37 / 10) (1 / 4).
Proof.
  apply (subpixel_part_is_dropped_every_frame Rounded.binary64
           (Ball.mk (Rect.mk 400 300 15 15) (37 / 10) (1 / 4)) 4 0 10 binary64_sound).
  - cbn [Ball.vx]. apply Rabs_le; lra.
  - cbn [Ball.vy]. apply Rabs_le; lra.
  - cbn. lia.
  - cbn. lia.
Defined.

(** ** Tone generation *)

Section RoundedTone.

Open Scope R_scope.

Variable A : Rounded.Arith.
Hypothesis HA : Rounded.sound A.

Lemma rounded_samples_length (frequency duration volume : R) :
  length (Rounded.samples A frequency duration volume)
    = Z.to_nat (Rounded.n_samples A duration).
Proof. unfold Rounded.samples. now rewrite length_map, range_length. Qed.

Lemma rounded_samples_nth (frequency duration volume : R) (i : nat) :
  (i < Z.to_nat (Rounded.n_samples A duration))%nat ->
  nth i (Rounded.samples A frequency duration volume) 0%Z
    = Rounded.int_val A frequency volume (Z.of_nat i).
Proof.
  intros Hi. unfold Rounded.samples.
  rewrite nth_indep with (d' := Rounded.int_val A frequency volume 0%Z)
    by now rewrite length_map, range_length.
  rewrite map_nth, range_nth by assumption. reflexivity.
Qed.

(** Rounding keeps a number between two integers between them. *)
Lemma rnd_between (x : R) (m : Z) :
  (0 <= m <= 9007199254740992)%Z -> - IZR m <= x <= IZR m ->
  - IZR m <= Rounded.rnd A x <= IZR m.
Proof.
  intros Hm [Hlo Hhi]. split.
  - rewrite <- opp_IZR, <- (rnd_IZR A HA (- m)) by lia.
    apply (Rounded.rnd_monotone A HA). now rewrite opp_IZR.
  - rewrite <- (rnd_IZR A HA m) by lia. now apply (Rounded.rnd_monotone A HA).
Qed.

Lemma rounded_int_val_fits (frequency volume : R) (i : Z) :
  -1 <= volume <= 1 ->
  SoundEngine.fits_int16 (Rounded.int_val A frequency volume i) = true.
Proof.
  intros Hv. unfold Rounded.int_val. cbv zeta.
  set (x := Rounded.math_sin A _).
  pose proof (Rounded.sin_range A HA
    (Rounded.rnd A (Rounded.rnd A (Rounded.rnd A (2 * Rounded.math_pi A) * frequency)
                    * Rounded.rnd A (IZR i / IZR SoundEngine.sample_rate)))) as Hs.
  fold x in Hs.
  pose proof (rnd_between (volume * 32767) 32767 ltac:(lia) ltac:(lra)) as Hw.
  set (w := Rounded.rnd A (volume * 32767)) in *.
  pose proof (rnd_between (w * x) 32767 ltac:(lia) ltac:(split; nra)) as Hr.
  assert (Rabs (Rounded.rnd A (w * x)) <= IZR 32767) as Hb by (apply Rabs_le; lra).
  apply py_int_bounded in Hb.
  unfold SoundEngine.fits_int16. apply andb_true_iff. split; apply Z.leb_le; lia.
Qed.

Lemma rounded_generate_tone_buffer (frequency duration volume : R) :
  -1 <= volume <= 1 ->
  Rounded._generate_tone A frequency duration volume
    = Some (Rounded.samples A frequency duration volume).
Proof.
  intros Hv. unfold Rounded._generate_tone. cbv zeta.
  assert (forallb SoundEngine.fits_int16 (Rounded.samples A frequency duration volume)
          = true) as ->; [| reflexivity].
  apply forallb_forall. intros v Hin. unfold Rounded.samples in Hin.
  apply in_map_iff in Hin. destruct Hin as (i & <- & _).
  now apply rounded_int_val_fits.
Qed.

(** The float [0.1] is a little above one tenth: the product with 22050
    is not below 2205, and its rounding is 2205 or a little more. *)
Lemma rounded_n_samples_hit_paddle :
  Rounded.n_samples A Rounded.literal_0_1 = 2205%Z.
Proof.
  unfold Rounded.n_samples, Rounded.literal_0_1, SoundEngine.sample_rate.
  set (x := 22050 * (3602879701896397 / 36028797018963968)).
  assert (2205 <= x <= 2205 + 1 / 10 ^ 9) as Hx by (unfold x; lra).
  pose proof (rnd_within A HA x 3000 ltac:(apply Rabs_le; lra) ltac:(lra)) as He.
  assert (2205 <= Rounded.rnd A x) as Hlo.
  { rewrite <- (rnd_IZR A HA 2205) by lia.
    apply (Rounded.rnd_monotone A HA). lra. }
  apply py_int_floor_eq; lra.
Qed.

(** At the volume [0.2] no sample exceeds 6553 in magnitude. *)
Lemma rounded_int_val_hit_paddle (frequency : R) (i : Z) :
  - (2 / 10 * 32767) <= IZR (Rounded.int_val A frequency Rounded.literal_0_2 i)
    <= 2 / 10 * 32767.
Proof.
  unfold Rounded.int_val, Rounded.literal_0_2. cbv zeta.
  set (x := Rounded.math_sin A _).
  pose proof (Rounded.sin_range A HA
    (Rounded.rnd A (Rounded.rnd A (Rounded.rnd A (2 * Rounded.math_pi A) * frequency)
                    * Rounded.rnd A (IZR i / IZR SoundEngine.sample_rate)))) as Hs.
  fold x in Hs.
  set (a := 3602879701896397 / 18014398509481984 * 32767).
  assert (6553 <= a <= 6553 + 41 / 100) as Ha by (unfold a; lra).
  pose proof (rnd_within A HA a 7000 ltac:(apply Rabs_le; lra) ltac:(lra)) as Hw.
  set (w := Rounded.rnd A a) in *.
  assert (- (6553 + 42 / 100) <= w * x <= 6553 + 42 / 100) as Hp by (split; nra).
  pose proof (rnd_within A HA (w * x) 7000 ltac:(apply Rabs_le; lra) ltac:(lra)) as Hr.
  pose proof (py_int_abs (Rounded.rnd A (w * x))) as Habs.
  assert (Rabs (Rounded.rnd A (w * x)) <= 6553 + 1 / 2) as Hb by (apply Rabs_le; lra).
  set (n := py_int (Rounded.rnd A (w * x))) in *.
  assert (- (6553 + 1 / 2) <= IZR n <= 6553 + 1 / 2) as [Hn1 Hn2]
    by (apply Rabs_le_elim; lra).
  assert (-6554 < n < 6554)%Z as Hn.
  { split; apply lt_IZR; lra. }
  assert (-6553 <= n <= 6553)%Z as [Hz1 Hz2] by lia.
  apply IZR_le in Hz1, Hz2. lra.
Qed.

End RoundedTone.

(** C3, as the code has it: for a volume of magnitude at most 1 (and a
    frequency and a duration on which no float operation overflows),
    [_generate_tone] produces [int(sample_rate * duration)] samples (none
    when that is negative), the product being the float product and its
    integer part being taken by truncation toward zero; sample [i] is
    [int(volume * 32767 * sin(2π * frequency * i / sample_rate))], again
    the truncated float result, and fits in signed 16 bits; in particular
    the preset (440, 0.1, 0.2) yields exactly 2205 samples, each within
    [-0.2 * 32767, 0.2 * 32767]. *)
Theorem generate_tone_truncates (A : Rounded.Arith) (frequency duration volume : R) :
  Rounded.sound A ->
  (Rabs frequency <= 10 ^ 9 -> Rabs duration <= 10 ^ 9 -> -1 <= volume <= 1 ->
   (exists buf,
      Rounded._generate_tone A frequency duration volume = Some buf /\
      Z.of_nat (length buf) = Z.max 0 (py_int (Rounded.rnd A (22050 * duration))) /\
      forall i : nat, (i < length buf)%nat ->
        nth i buf 0%Z
          = py_int (Rounded.rnd A
              (Rounded.rnd A (volume * 32767)
               * Rounded.math_sin A
                   (Rounded.rnd A
                      (Rounded.rnd A (Rounded.rnd A (2 * Rounded.math_pi A) * frequency)
                       * Rounded.rnd A (INR i / 22050))))) /\
        (-32768 <= nth i buf 0 <= 32767)%Z) /\
   (exists buf,
      Rounded.hit_paddle A = Some buf /\
      length buf = 2205%nat /\
      Forall (fun v => - (2 / 10 * 32767) <= IZR v <= 2 / 10 * 32767) buf))%R.
Proof.
  intros HA _ _ Hv. split.
  - exists (Rounded.samples A frequency duration volume).
    split; [now apply rounded_generate_tone_buffer |].
    rewrite rounded_samples_length.
    split; [unfold Rounded.n_samples, SoundEngine.sample_rate; lia |].
    intros i Hi. rewrite rounded_samples_nth by assumption.
    split.
    + unfold Rounded.int_val, SoundEngine.sample_rate. cbv zeta.
      now rewrite INR_IZR_INZ.
    + pose proof (rounded_int_val_fits A HA frequency volume (Z.of_nat i) Hv) as Hf.
      unfold SoundEngine.fits_int16 in Hf. apply andb_true_iff in Hf.
      rewrite !Z.leb_le in Hf. exact Hf.
  - exists (Rounded.samples A 440 Rounded.literal_0_1 Rounded.literal_0_2).
    split.
    { unfold Rounded.hit_paddle. apply (rounded_generate_tone_buffer A HA).
      unfold Rounded.literal_0_2. lra. }
    split; [rewrite rounded_samples_length, (rounded_n_samples_hit_paddle A HA);
            reflexivity |].
    apply Forall_forall. intros v Hin. unfold Rounded.samples in Hin.
    apply in_map_iff in Hin. destruct Hin as (i & <- & _).
    apply (rounded_int_val_hit_paddle A HA).
Qed.

Lemma generate_tone_truncates_witness :
  ((exists buf,
      Rounded._generate_tone Rounded.binary64 220 (1 / 4) (1 / 2) = Some buf /\
      Z.of_nat (length buf) = Z.max 0 (py_int (Rounded.rnd64 (22050 * (1 / 4)))) /\
      forall i : nat, (i < length buf)%nat ->
        nth i buf 0%Z
          = py_int (Rounded.rnd64
              (Rounded.rnd64 (1 / 2 * 32767)
               * Rounded.rnd64
                   (sin (Rounded.rnd64
                           (Rounded.rnd64 (Rounded.rnd64 (2 * Rounded.rnd64 PI) * 220)
                            * Rounded.rnd64 (INR i / 22050)))))) /\
        (-32768 <= nth i buf 0 <= 32767)%Z) /\
   (exists buf,
      Rounded.hit_paddle Rounded.binary64 = Some buf /\
      length buf = 2205%nat /\
      Forall (fun v => - (2 / 10 * 32767) <= IZR v <= 2 / 10 * 32767) buf))%R.
Proof.
  apply (generate_tone_truncates Rounded.binary64 220 (1 / 4) (1 / 2) binary64_sound)%R.
  - rewrite Rabs_pos_eq; lra.
  - rewrite Rabs_pos_eq; lra.
  - lra.
Defined.

Section Binary64Tone.

Import PrimFloat.

(** The literals of the presets. *)
Lemma literals :
  B64.to_R 0x1.999999999999ap-4 = Rounded.literal_0_1 /\
  B64.to_R 0x1.999999999999ap-3 = Rounded.literal_0_2 /\
  B64.to_R 0x1.3333333333333p-2 = Rounded.literal_0_3.
Proof.
  unfold B64.to_R, Rounded.literal_0_1, Rounded.literal_0_2, Rounded.literal_0_3.
  repeat split.
  - set (a := FloatOps.Prim2SF _). vm_compute in a. subst a. cbn [powerRZ].
    replace (Pos.to_nat 56) with 56%nat by reflexivity. lra.
  - set (a := FloatOps.Prim2SF _). vm_compute in a. subst a. cbn [powerRZ].
    replace (Pos.to_nat 55) with 55%nat by reflexivity. lra.
  - set (a := FloatOps.Prim2SF _). vm_compute in a. subst a. cbn [powerRZ].
    replace (Pos.to_nat 54) with 54%nat by reflexivity. lra.
Qed.

(** The count is the truncation of the float product, not of the exact
    one: for the float just under [0.1] the float product is 2205 and so
    is the count, where the exact product is a little under 2205. *)
Example sample_count_of_the_float_product :
  let d := 0x1.9999999999999p-4%float in
  (22050 * d)%float = 2205%float /\
  B64.n_samples d = 2205 /\
  SoundEngine.n_samples (B64.to_R d) = 2204.
Proof.
  cbv zeta. split; [vm_compute; reflexivity |]. split; [vm_compute; reflexivity |].
  unfold B64.to_R.
  set (a := FloatOps.Prim2SF _). vm_compute in a. subst a. cbn [powerRZ].
  replace (Pos.to_nat 56) with 56%nat by reflexivity.
  unfold SoundEngine.n_samples, SoundEngine.sample_rate.
  apply py_int_floor_eq; lra.
Qed.

End Binary64Tone.
